(** * brunzo: the .bru document parser and the schema restructuring pass

    A shallow embedding of [parser.ts] (block extraction, key-value blocks,
    example responses, the document record) and of the two snapshots of
    [generator.ts] (the [restructureArrays] pass and the naming helpers),
    with the properties of the specification stated over them.

    JavaScript strings are sequences of UTF-16 code units; a text is a
    [list N] of code units here, so that the whitespace class of [\s] and
    of [String.prototype.trim] is the full one. *)

From Stdlib Require Import String Ascii.
From Stdlib Require Import List NArith ZArith Arith Bool Lia DecimalString.
Import ListNotations.



(* ================================================================== *)
(** ** Texts *)
(* ================================================================== *)

Definition str := list N.

(** A literal of the source, as code units. *)
Definition lit (s : string) : str :=
  map N_of_ascii (list_ascii_of_string s).

Definition LBRACE : N := 123.  (* { *)
Definition RBRACE : N := 125.  (* } *)
Definition COLON  : N := 58.   (* : *)
Definition NL     : N := 10.   (* \n *)

Definition str_eqb (a b : str) : bool :=
  if list_eq_dec N.eq_dec a b then true else false.

(** [\s] of a JavaScript regular expression, which is also what [trim]
    removes: WhiteSpace and LineTerminator code units. *)
Definition is_ws (c : N) : bool :=
  ((9 <=? c) && (c <=? 13) || (c =? 32) || (c =? 160) || (c =? 5760)
   || ((8192 <=? c) && (c <=? 8202)) || (c =? 8232) || (c =? 8233)
   || (c =? 8239) || (c =? 8287) || (c =? 12288) || (c =? 65279))%N.

(** LineTerminator: what [.] does not match. *)
Definition is_lt (c : N) : bool :=
  ((c =? 10) || (c =? 13) || (c =? 8232) || (c =? 8233))%N.

Fixpoint skip_ws (s : str) : str :=
  match s with
  | c :: t => if is_ws c then skip_ws t else s
  | [] => []
  end.

Definition trim (s : str) : str := rev (skip_ws (rev (skip_ws s))).

(** [s.startsWith(p)], returning what follows the prefix. *)
Fixpoint strip_prefix (p s : str) : option str :=
  match p, s with
  | [], _ => Some s
  | a :: p', b :: s' => if (a =? b)%N then strip_prefix p' s' else None
  | _ :: _, [] => None
  end.

Definition startsWith (s p : str) : bool :=
  match strip_prefix p s with Some _ => true | None => false end.

(** [s.indexOf(c)] for a single code unit. *)
Fixpoint index_of (c : N) (s : str) : option nat :=
  match s with
  | [] => None
  | x :: t => if (x =? c)%N then Some 0 else option_map S (index_of c t)
  end.

(** [s.indexOf(c, from)]. *)
Definition indexOf (c : N) (s : str) (from : nat) : option nat :=
  option_map (fun k => from + k) (index_of c (skipn from s)).

(** [s.substring(a, b)]: both ends clamped to the length, swapped when
    out of order. *)
Definition substring (s : str) (a b : nat) : str :=
  let a' := Nat.min a (length s) in
  let b' := Nat.min b (length s) in
  firstn (Nat.max a' b' - Nat.min a' b') (skipn (Nat.min a' b') s).

(** [s.split('\n')]. *)
Fixpoint split_lines_aux (s cur : str) : list str :=
  match s with
  | [] => [rev cur]
  | c :: t => if (c =? NL)%N then rev cur :: split_lines_aux t []
              else split_lines_aux t (c :: cur)
  end.

Definition split_lines (s : str) : list str := split_lines_aux s [].

(* ================================================================== *)
(** ** Block headers: the regular expression [name\s*:?\s*\{] *)
(* ================================================================== *)

(** The name is escaped before it enters the pattern, so it is matched
    literally.  [\s], [:] and [{] are disjoint classes, so the greedy
    left-to-right reading below is the only way the pattern can match. *)
Definition skip_colon (s : str) : str :=
  match s with
  | c :: t => if (c =? COLON)%N then t else s
  | [] => []
  end.

Definition header_at (name s : str) : bool :=
  match strip_prefix name s with
  | None => false
  | Some r =>
      match skip_ws (skip_colon (skip_ws r)) with
      | c :: _ => (c =? LBRACE)%N
      | [] => false
      end
  end.

(** [content.match(regex).index]: the leftmost position where the pattern
    matches. *)
Fixpoint find_header (name s : str) : option nat :=
  if header_at name s then Some 0
  else match s with
       | [] => None
       | _ :: t => option_map S (find_header name t)
       end.

(** The depth-counting loop
    [while (i < content.length && braceCount > 0) { ...; i++ }],
    run over the text from position [i] on. *)
Fixpoint scan_braces (rest : str) (braceCount i : nat) : nat * nat :=
  match braceCount, rest with
  | 0, _ => (braceCount, i)
  | _, [] => (braceCount, i)
  | S d, c :: t =>
      if (c =? LBRACE)%N then scan_braces t (S braceCount) (S i)
      else if (c =? RBRACE)%N then scan_braces t d (S i)
      else scan_braces t braceCount (S i)
  end.

Definition extractBlockContent (content blockStartName : str) : option str :=
  match find_header blockStartName content with
  | None => None
  | Some m =>
      match indexOf LBRACE content m with
      | None => None
      | Some openBraceIndex =>
          let '(braceCount, i) :=
            scan_braces (skipn (openBraceIndex + 1) content) 1 (openBraceIndex + 1) in
          if braceCount =? 0
          then Some (substring content (openBraceIndex + 1) (i - 1))
          else None
      end
  end.

(** One turn of the [while (true)] loop of [stripBlocks]: [Some] the
    shortened text when a balanced block was cut out, [None] when the loop
    is left by one of its three [break]s. *)
Definition strip_step (newContent blockStartName : str) : option str :=
  match find_header blockStartName newContent with
  | None => None
  | Some m =>
      match indexOf LBRACE newContent m with
      | None => None
      | Some openBraceIndex =>
          let '(braceCount, i) :=
            scan_braces (skipn (openBraceIndex + 1) newContent) 1 (openBraceIndex + 1) in
          if braceCount =? 0
          then Some (substring newContent 0 m ++
                     substring newContent i (length newContent))
          else None
      end
  end.

Fixpoint strip_loop (fuel : nat) (newContent blockStartName : str) : str :=
  match fuel with
  | 0 => newContent
  | S f =>
      match strip_step newContent blockStartName with
      | Some c' => strip_loop f c' blockStartName
      | None => newContent
      end
  end.

(** The loop is run with one unit of fuel per code unit of the text; that
    this is never exhausted before a [break] is [stripBlocks_total]. *)
Definition stripBlocks (content blockStartName : str) : str :=
  strip_loop (length content) content blockStartName.

(* ================================================================== *)
(** ** The other regular expressions of [parseBruFile] *)
(* ================================================================== *)

(** [name\s*\{] at the head of [s]: what follows the brace. *)
Definition plain_header_at (name s : str) : option str :=
  match strip_prefix name s with
  | None => None
  | Some r =>
      match skip_ws r with
      | c :: t => if (c =? LBRACE)%N then Some t else None
      | [] => None
      end
  end.

(** [s.indexOf(p)] for a text [p], returning what lies before and after
    the first occurrence. *)
Fixpoint find_sub_aux (p s before : str) : option (str * str) :=
  match strip_prefix p s with
  | Some r => Some (rev before, r)
  | None =>
      match s with
      | [] => None
      | c :: t => find_sub_aux p t (c :: before)
      end
  end.

Definition find_sub (p s : str) : option (str * str) := find_sub_aux p s [].

(** [/meta\s*\{([\s\S]*?)\}/]: group 1.  The lazy group ends at the first
    closing brace after the leftmost header; when there is none after the
    leftmost header there is none after a later one either. *)
Fixpoint match_meta (s : str) : option str :=
  match plain_header_at (lit "meta") s with
  | Some r =>
      match index_of RBRACE r with
      | Some k => Some (firstn k r)
      | None => None
      end
  | None =>
      match s with
      | [] => None
      | _ :: t => match_meta t
      end
  end.

Fixpoint take_line (s : str) : str :=
  match s with
  | c :: t => if is_lt c then [] else c :: take_line t
  | [] => []
  end.

(** The last code unit of [s] that is not a line terminator. *)
Fixpoint last_non_lt (s : str) : option N :=
  match s with
  | [] => None
  | c :: t =>
      match last_non_lt t with
      | Some d => Some d
      | None => if is_lt c then None else Some c
      end
  end.

(** [key\s*(.+)] at the head of [s] ([key] ends in the colon): group 1.
    [\s*] is greedy; when it swallows the rest of the text it gives back
    code units until [.] can match one, which is then the last code unit
    of the text that is not a line terminator. *)
Definition key_line_at (key s : str) : option str :=
  match strip_prefix key s with
  | None => None
  | Some r =>
      match skip_ws r with
      | c :: t => Some (take_line (c :: t))
      | [] => option_map (fun c => [c]) (last_non_lt r)
      end
  end.

(** [s.match(/key\s*(.+)/)]: group 1 of the leftmost match. *)
Fixpoint match_key_line (key s : str) : option str :=
  match key_line_at key s with
  | Some c => Some c
  | None =>
      match s with
      | [] => None
      | _ :: t => match_key_line key t
      end
  end.

Definition method_tokens : list str :=
  map lit ["get"; "post"; "put"; "delete"; "patch"; "options"; "head"]%string.

Fixpoint first_token (tokens : list str) (s : str) : option str :=
  match tokens with
  | [] => None
  | tk :: rest =>
      match plain_header_at tk s with
      | Some _ => Some tk
      | None => first_token rest s
      end
  end.

(** [/^(get|post|put|delete|patch|options|head)\s*\{/m]: group 1.  With
    the [m] flag [^] matches at the start of the text and after every
    line terminator. *)
Fixpoint match_method (s : str) (line_start : bool) : option str :=
  match (if line_start then first_token method_tokens s else None) with
  | Some tk => Some tk
  | None =>
      match s with
      | [] => None
      | c :: t => match_method t (is_lt c)
      end
  end.

Definition is_digit (c : N) : bool := ((48 <=? c) && (c <=? 57))%N.

Fixpoint take_digits (s : str) : str :=
  match s with
  | c :: t => if is_digit c then c :: take_digits t else []
  | [] => []
  end.

Definition code_at (s : str) : option str :=
  match strip_prefix (lit "code:") s with
  | Some r => match take_digits (skip_ws r) with
              | [] => None
              | ds => Some ds
              end
  | None => None
  end.

(** [/code:\s*(\d+)/]: group 1 of the leftmost match. *)
Fixpoint match_code (s : str) : option str :=
  match code_at s with
  | Some ds => Some ds
  | None =>
      match s with
      | [] => None
      | _ :: t => match_code t
      end
  end.

Definition quoted_at (q s : str) : option str :=
  match strip_prefix (lit "content:") s with
  | Some r =>
      match strip_prefix q (skip_ws r) with
      | Some body => option_map fst (find_sub q body)
      | None => None
      end
  | None => None
  end.

(** [/content:\s*Q([\s\S]*?)Q/] for a quote text [Q] (three single quotes,
    or one double quote): group 1 of the leftmost match. *)
Fixpoint match_quoted (q s : str) : option str :=
  match quoted_at q s with
  | Some c => Some c
  | None =>
      match s with
      | [] => None
      | _ :: t => match_quoted q t
      end
  end.

(** [/content:\s*([\s\S]+)/]: group 1.  The group runs to the end of the
    text; when [\s*] has swallowed everything it gives back one code
    unit. *)
Fixpoint match_bare (s : str) : option str :=
  match strip_prefix (lit "content:") s with
  | Some r =>
      match skip_ws r with
      | c :: t => Some (c :: t)
      | [] => match rev r with
              | c :: _ => Some [c]
              | [] => None
              end
      end
  | None =>
      match s with
      | [] => None
      | _ :: t => match_bare t
      end
  end.

Definition orElse {A} (a b : option A) : option A :=
  match a with Some _ => a | None => b end.

Definition match_content (bodyBlock : str) : option str :=
  orElse (match_quoted (lit "'''") bodyBlock)
         (orElse (match_quoted [34%N] bodyBlock) (match_bare bodyBlock)).

(** [/example\s*\{/] at the head of [s]: the length of the match. *)
Definition example_match_len (s : str) : option nat :=
  match plain_header_at (lit "example") s with
  | Some r => Some (length s - length r)
  | None => None
  end.

(** The indices that the loop
    [while ((exampleMatch = exampleRegex.exec(content)) !== null)] visits:
    each search starts at [lastIndex], the end of the previous match.
    [skip] counts the code units left before [lastIndex].  A match is at
    least eight code units long, so the guard that bumps [lastIndex] on
    an empty match never fires. *)
Fixpoint example_indices (s : str) (pos skip : nat) : list nat :=
  match s with
  | [] => []
  | _ :: t =>
      match skip with
      | S k => example_indices t (S pos) k
      | 0 =>
          match example_match_len s with
          | Some len => pos :: example_indices t (S pos) (len - 1)
          | None => example_indices t (S pos) 0
          end
      end
  end.

(* ================================================================== *)
(** ** Outcomes: a call returns or throws *)
(* ================================================================== *)

Inductive outcome (A : Type) : Type :=
| Returned (a : A)
| Thrown.
Arguments Returned {A} a.
Arguments Thrown {A}.

Definition bind {A B} (c : outcome A) (k : A -> outcome B) : outcome B :=
  match c with
  | Returned a => k a
  | Thrown => Thrown
  end.

(** [try { c } catch (e) { h }] *)
Definition try_catch {A} (c : outcome A) (h : outcome A) : outcome A :=
  match c with
  | Returned a => Returned a
  | Thrown => h
  end.

Declare Scope outcome_scope.
Delimit Scope outcome_scope with outcome.
Notation "x <- c ;; k" := (bind c (fun x => k))
  (at level 61, c at next level, right associativity) : outcome_scope.
Notation "'ret' a" := (Returned a) (at level 60) : outcome_scope.

(** A text in a condition: absent and empty are both falsy. *)
Definition truthy (o : option str) : option str :=
  match o with
  | Some (c :: t) => Some (c :: t)
  | _ => None
  end.

(* ================================================================== *)
(** ** Records of the parser *)
(* ================================================================== *)

(** The values [parseKvContent] stores. *)
Inductive kv_value (num : Type) : Type :=
| KBool (b : bool)
| KNum (n : num)
| KStr (s : str).
Arguments KBool {num} b.
Arguments KNum {num} n.
Arguments KStr {num} s.

(** A [Record<string, any>] built by assignments [result[key] = value]:
    the own properties in the order of their first assignment. *)
Definition kv_object (num : Type) := list (str * kv_value num).

Module Response.
Record t (num J : Type) : Type := mk {
  statusCode : num;
  body : option J;
  headers : option (kv_object num)
}.
Arguments mk {num J}.
Arguments statusCode {num J}.
Arguments body {num J}.
Arguments headers {num J}.
End Response.

Module BruFile.
Record t (num J : Type) : Type := mk {
  path : str;
  name : str;
  method : str;
  url : str;
  body : option J;
  headers : option (kv_object num);
  query : option (kv_object num);
  params : option (kv_object num);
  responses : option (list (Response.t num J))
}.
Arguments mk {num J}.
Arguments path {num J}.
Arguments name {num J}.
Arguments method {num J}.
Arguments url {num J}.
Arguments body {num J}.
Arguments headers {num J}.
Arguments query {num J}.
Arguments params {num J}.
Arguments responses {num J}.
End BruFile.

(* ================================================================== *)
(** ** [parseKvContent] and [parseBruFile] *)
(* ================================================================== *)

Section Parser.

(** JavaScript numbers and the built-ins that produce and test them. *)
Variable num : Type.
Variable Number : str -> num.          (* Number(value) *)
Variable isNaN : num -> bool.
Variable parseInt10 : str -> num.      (* parseInt(digits, 10) *)
Variable num_truthy : num -> bool.     (* neither 0 nor NaN *)
Variable same_num : num -> num -> bool.  (* SameValueZero, of Set.has *)

(** Parsed JSON5 values, and [JSON5.parse], which throws on a text that
    is not JSON5. *)
Variable J : Type.
Variable JSON5_parse : str -> outcome J.

(** [path.basename(filePath, '.bru')] *)
Variable basename_bru : str -> str.

Local Open Scope outcome_scope.

Local Abbreviation kv := (kv_value num).
Local Abbreviation object := (kv_object num).

Fixpoint obj_lookup (o : object) (k : str) : option kv :=
  match o with
  | [] => None
  | (k', v) :: t => if str_eqb k' k then Some v else obj_lookup t k
  end.

Fixpoint obj_store (o : object) (k : str) (v : kv) : object :=
  match o with
  | [] => [(k, v)]
  | (k', v') :: t =>
      if str_eqb k' k then (k', v) :: t else (k', v') :: obj_store t k v
  end.

(** [result[key] = value] on an object literal.  The key [__proto__] is
    the accessor of [Object.prototype]; its setter ignores a value that
    is not an object, so that assignment stores nothing. *)
Definition obj_assign (o : object) (k : str) (v : kv) : object :=
  if str_eqb k (lit "__proto__") then o else obj_store o k v.

(** The chain of conditions on [value]. *)
Definition coerce (value : str) : kv :=
  if str_eqb value (lit "true") then KBool true
  else if str_eqb value (lit "false") then KBool false
  else if negb (isNaN (Number value)) && negb (str_eqb value []) then
         KNum (Number value)
  else KStr value.

(** The key and the value text of a line, when the line is used. *)
Definition kv_line (line : str) : option (str * str) :=
  let trimmed := trim line in
  match trimmed with
  | [] => None
  | _ =>
      if startsWith trimmed (lit "//") || startsWith trimmed (lit "#")
      then None
      else match index_of COLON trimmed with
           | None => None
           | Some colonIndex =>
               let key := trim (substring trimmed 0 colonIndex) in
               let value :=
                 trim (substring trimmed (colonIndex + 1) (length trimmed)) in
               Some (key, value)
           end
  end.

(** The body of the [for] loop. *)
Definition kv_step (result : object) (line : str) : object :=
  match kv_line line with
  | Some (key, value) => obj_assign result key (coerce value)
  | None => result
  end.

Definition parseKvContent (blockContent : str) : option object :=
  let lines := split_lines blockContent in
  let result := fold_left kv_step lines [] in
  match result with
  | [] => None
  | _ => Some result
  end.

Local Abbreviation response := (Response.t num J).
Local Abbreviation brufile := (BruFile.t num J).

(** [block ? parseKvContent(block) : undefined] *)
Definition parse_kv_block (block : option str) : option object :=
  match truthy block with
  | Some b => parseKvContent b
  | None => None
  end.

(** The status code of a response block, when one is written. *)
Definition status_code (responseContent : str) : option num :=
  match truthy (extractBlockContent responseContent (lit "status")) with
  | Some statusBlock => option_map parseInt10 (match_code statusBlock)
  | None => None
  end.

(** The body of a response block: [undefined] unless the literal is
    found and parses. *)
Definition response_body (responseContent : str) : outcome (option J) :=
  match truthy (extractBlockContent responseContent (lit "body")) with
  | Some bodyBlock =>
      match match_content bodyBlock with
      | Some c =>
          try_catch (v <- JSON5_parse (trim c) ;; ret (Some v)) (ret None)
      | None => ret None
      end
  | None => ret None
  end.

(** The body of the example loop, for the match at index [m]. *)
Definition parse_example (content : str)
    (st : list response * list num) (m : nat)
  : outcome (list response * list num) :=
  let '(responses, statusCodesSeen) := st in
  match truthy (extractBlockContent (skipn m content) (lit "example")) with
  | None => ret st
  | Some exampleContent =>
      match truthy (extractBlockContent exampleContent (lit "response")) with
      | None => ret st
      | Some responseContent =>
          match status_code responseContent with
          | None => ret st
          | Some statusCode =>
              if num_truthy statusCode
                 && negb (existsb (same_num statusCode) statusCodesSeen)
              then
                responseBody <- response_body responseContent ;;
                let responseHeaders :=
                  parse_kv_block
                    (extractBlockContent responseContent (lit "headers")) in
                ret (responses ++
                       [Response.mk statusCode responseBody responseHeaders],
                     statusCode :: statusCodesSeen)
              else ret st
          end
      end
  end.

Fixpoint example_loop (content : str) (ms : list nat)
    (st : list response * list num)
  : outcome (list response * list num) :=
  match ms with
  | [] => ret st
  | m :: rest =>
      st' <- parse_example content st m ;;
      example_loop content rest st'
  end.

(** The document-level payload: [null] unless the block is found and
    parses. *)
Definition document_body (cleanContent : str) : outcome (option J) :=
  match truthy (extractBlockContent cleanContent (lit "body:json")) with
  | Some bodyContent =>
      try_catch (v <- JSON5_parse bodyContent ;; ret (Some v)) (ret None)
  | None => ret None
  end.

(** [parseBruFile], from the text that [fs.readFile] delivered.  The
    declared result is [BruFile | null]. *)
Definition parseBruFile (filePath content : str) : outcome (option brufile) :=
  let name :=
    match match_meta content with
    | Some meta =>
        match match_key_line (lit "name:") meta with
        | Some n => trim n
        | None => basename_bru filePath
        end
    | None => basename_bru filePath
    end in
  let method :=
    match match_method content true with
    | Some tk => tk
    | None => lit "unknown"
    end in
  let url :=
    match match_key_line (lit "url:") content with
    | Some u => trim u
    | None => []
    end in
  st <- example_loop content (example_indices content 0 0) ([], []) ;;
  let responses := fst st in
  let cleanContent := stripBlocks content (lit "example") in
  body <- document_body cleanContent ;;
  let headers := parse_kv_block (extractBlockContent cleanContent (lit "headers")) in
  let query := parse_kv_block (extractBlockContent cleanContent (lit "params:query")) in
  let params := parse_kv_block (extractBlockContent cleanContent (lit "params:path")) in
  ret (Some (BruFile.mk filePath name method url body headers query params
               (match responses with [] => None | _ => Some responses end))).

(** *** What the example loop is meant to compute *)

Definition returned_value {A} (c : outcome (option A)) : option A :=
  match c with
  | Returned v => v
  | Thrown => None
  end.

(** The response that the example block at index [m] describes, taken by
    itself: its status code, body and headers. *)
Definition example_candidate (content : str) (m : nat) : option response :=
  match truthy (extractBlockContent (skipn m content) (lit "example")) with
  | None => None
  | Some exampleContent =>
      match truthy (extractBlockContent exampleContent (lit "response")) with
      | None => None
      | Some responseContent =>
          match status_code responseContent with
          | None => None
          | Some statusCode =>
              if num_truthy statusCode
              then Some (Response.mk statusCode
                           (returned_value (response_body responseContent))
                           (parse_kv_block
                              (extractBlockContent responseContent
                                 (lit "headers"))))
              else None
          end
      end
  end.

(** The responses of all example blocks, in the order of the text. *)
Definition candidates (content : str) : list response :=
  flat_map (fun m => match example_candidate content m with
                     | Some r => [r]
                     | None => []
                     end)
           (example_indices content 0 0).

(** Deduplication by status code, first seen wins. *)
Fixpoint first_wins (rs : list response) (seen : list num) : list response :=
  match rs with
  | [] => []
  | r :: rest =>
      if existsb (same_num (Response.statusCode r)) seen
      then first_wins rest seen
      else r :: first_wins rest (Response.statusCode r :: seen)
  end.

(** No response has the status code of one before it. *)
Fixpoint distinct_codes (rs : list response) : Prop :=
  match rs with
  | [] => True
  | r :: rest =>
      Forall (fun r' => same_num (Response.statusCode r')
                          (Response.statusCode r) = false) rest /\
      distinct_codes rest
  end.

End Parser.

Arguments obj_lookup {num}.
Arguments obj_store {num}.
Arguments obj_assign {num}.
Arguments coerce {num}.
Arguments kv_step {num}.
Arguments parseKvContent {num}.
Arguments parse_kv_block {num}.
Arguments status_code {num}.
Arguments response_body {J}.
Arguments parse_example {num} _ _ _ _ _ {J}.
Arguments example_loop {num} _ _ _ _ _ {J}.
Arguments document_body {J}.
Arguments parseBruFile {num} _ _ _ _ _ {J}.
Arguments example_candidate {num} _ _ _ _ {J}.
Arguments candidates {num} _ _ _ _ {J}.
Arguments first_wins {num} _ {J}.
Arguments distinct_codes {num} _ {J}.

(* ================================================================== *)
(** ** JSON values and the way JavaScript reads them *)
(* ================================================================== *)

(** What [JSON.parse] returns.  An object is the list of its own
    properties in order, each key once. *)
#[warnings="-register-all"]
Inductive json : Type :=
| JNull
| JBool (b : bool)
| JNum (n : Z)
| JStr (s : str)
| JArr (items : list json)
| JObj (fields : list (str * json)).

(** A value in a condition; [None] is [undefined]. *)
Definition js_truthy (v : option json) : bool :=
  match v with
  | None | Some JNull => false
  | Some (JBool b) => b
  | Some (JNum n) => negb (n =? 0)%Z
  | Some (JStr s) => match s with [] => false | _ => true end
  | Some (JArr _) | Some (JObj _) => true
  end.

Fixpoint assoc {A} (l : list (str * A)) (k : str) : option A :=
  match l with
  | [] => None
  | (k', v) :: t => if str_eqb k' k then Some v else assoc t k
  end.

(** [o[k] = v] on own properties: an existing key keeps its place. *)
Fixpoint assoc_set {A} (l : list (str * A)) (k : str) (v : A) : list (str * A) :=
  match l with
  | [] => [(k, v)]
  | (k', v') :: t =>
      if str_eqb k' k then (k', v) :: t else (k', v') :: assoc_set t k v
  end.

(** The decimal numeral of an array index. *)
Definition index_key (i : nat) : str :=
  lit (DecimalString.NilZero.string_of_uint (Nat.to_uint i)).

Fixpoint indexed (l : list json) (i : nat) : list (str * json) :=
  match l with
  | [] => []
  | x :: t => (index_key i, x) :: indexed t (S i)
  end.

(** [Object.keys(c)] with the values under them, for a value [c] that
    stands where an object is expected.  The code units of a text are
    left out: they are texts themselves and the walk passes over them. *)
Definition own_entries (c : json) : list (str * json) :=
  match c with
  | JObj fields => fields
  | JArr items => indexed items 0
  | _ => []
  end.

(** [c[key] = v] for a key among [Object.keys(c)]. *)
Definition entry_set (c : json) (key : str) (v : json) : json :=
  match c with
  | JObj fields => JObj (assoc_set fields key v)
  | JArr items =>
      JArr (map (fun kv => if str_eqb (fst kv) key then v else snd kv)
                (indexed items 0))
  | _ => c
  end.

(** The walk of a schema ends in one of three ways. *)
Inductive walk (A : Type) : Type :=
| Finished (a : A)
| TypeError          (* a property of [null] or [undefined] was read, or a
                        method called that the value does not have *)
| OutsideModel       (* the run leaves what the model covers *)
| OutOfFuel.         (* the recursion is deeper than the fuel *)
Arguments Finished {A} a.
Arguments TypeError {A}.
Arguments OutsideModel {A}.
Arguments OutOfFuel {A}.

Definition wbind {A B} (c : walk A) (k : A -> walk B) : walk B :=
  match c with
  | Finished a => k a
  | TypeError => TypeError
  | OutsideModel => OutsideModel
  | OutOfFuel => OutOfFuel
  end.

Declare Scope walk_scope.
Delimit Scope walk_scope with walk.
Notation "x <- c ;; k" := (wbind c (fun x => k))
  (at level 61, c at next level, right associativity) : walk_scope.
Notation "' p <- c ;; k" := (wbind c (fun p => k))
  (at level 61, p pattern, c at next level, right associativity) : walk_scope.

(** [x.k] for one of the fixed property names the generator reads
    ([type], [items], [properties], [$ref]): reading a property of [null]
    or [undefined] throws, a value that is not an object has none of
    them. *)
Definition prop_of (x : option json) (k : str) : walk (option json) :=
  match x with
  | None | Some JNull => TypeError
  | Some (JObj fields) => Finished (assoc fields k)
  | Some _ => Finished None
  end.

Definition is_text (v : option json) (s : str) : bool :=
  match v with
  | Some (JStr t) => str_eqb t s
  | _ => false
  end.

(* ================================================================== *)
(** ** Names *)
(* ================================================================== *)

Definition is_upper (c : N) : bool := ((65 <=? c) && (c <=? 90))%N.
Definition is_lower (c : N) : bool := ((97 <=? c) && (c <=? 122))%N.
Definition is_alnum (c : N) : bool := is_upper c || is_lower c || is_digit c.
(** [\w] *)
Definition is_word (c : N) : bool := is_alnum c || (c =? 95)%N.

Definition upper (c : N) : N := if is_lower c then (c - 32)%N else c.
Definition lower (c : N) : N := if is_upper c then (c + 32)%N else c.

(** [toPascalCase]: the first replacement upper-cases the word code unit
    at the start of the text and every word code unit that follows a
    code unit that is not one (the matches of [^\w] and [\b\w]; [[A-Z]]
    matches code units that are upper case already); the other two drop
    every code unit outside [[a-zA-Z0-9]].  [prev_word] tells whether the
    code unit before is a word code unit. *)
Fixpoint pascal_from (s : str) (prev_word : bool) : str :=
  match s with
  | [] => []
  | c :: t =>
      let c' := if is_word c && negb prev_word then upper c else c in
      if is_alnum c then c' :: pascal_from t (is_word c)
      else pascal_from t (is_word c)
  end.

Definition toPascalCase (s : str) : str := pascal_from s false.

Definition toCamelCase (s : str) : str :=
  match toPascalCase s with
  | [] => []
  | c :: t => lower c :: t
  end.

Definition definitions_prefix : str := lit "#/definitions/".

(** [`#/definitions/${name}`] *)
Definition ref_to (name : str) : str := definitions_prefix ++ name.

(** [ref.replace('#/definitions/', '')]: the first occurrence goes. *)
Definition ref_name (ref : str) : str :=
  match find_sub definitions_prefix ref with
  | Some (before, after) => before ++ after
  | None => ref
  end.

(** [{ $ref: `#/definitions/${name}` }] *)
Definition ref_schema (name : str) : json :=
  JObj [(lit "$ref", JStr (ref_to name))].

(** [{ type: 'array', items: { $ref: `#/definitions/${name}` } }] *)
Definition array_of_ref (name : str) : json :=
  JObj [(lit "type", JStr (lit "array")); (lit "items", ref_schema name)].

(** The names every object inherits from [Object.prototype]; a lookup of
    one of them in a mapping that has no own property of that name
    answers with the inherited value. *)
Definition inherited_names : list str :=
  map lit ["constructor"; "__proto__"; "hasOwnProperty"; "isPrototypeOf";
           "propertyIsEnumerable"; "toLocaleString"; "toString"; "valueOf";
           "__defineGetter__"; "__defineSetter__"; "__lookupGetter__";
           "__lookupSetter__"]%string.

Definition is_inherited (name : str) : bool :=
  existsb (str_eqb name) inherited_names.

(* ================================================================== *)
(** ** The store that [restructureArrays] works on *)
(* ================================================================== *)

(** The objects that the walk mutates are the schema itself and the
    values of the [definitions] mapping.  Each of them is a cell of the
    store; the mapping gives a cell to a name, in the order in which the
    names were first assigned.  An assignment to a name puts the value in
    a fresh cell, so a walk over the value that the name had before goes
    on over that value.  [schema] is the cell of the schema.

    One object has two holders for a while: an item schema that stands
    inline in an array is registered under its name as it is, not as a
    copy, and until the array property is rewritten at the end of the
    visit the property holds it too.  The cell of the item is the one
    that is walked; the array property keeps the item as it was, and is
    overwritten as a whole when the visit ends.  The two differ only for
    a reader of the enclosing object during the walk of the item, that
    is for a copy taken of the enclosing definition from inside its own
    item. *)
Record store : Type := {
  cells : list json;
  definitions : list (str * nat)
}.

Definition schema_cell : nat := 0.

Definition cell_at (s : store) (c : nat) : option json := nth_error (cells s) c.

Fixpoint replace_nth {A} (l : list A) (i : nat) (v : A) : list A :=
  match l, i with
  | [], _ => []
  | _ :: t, 0 => v :: t
  | x :: t, S j => x :: replace_nth t j v
  end.

Definition set_cell (s : store) (c : nat) (v : json) : store :=
  {| cells := replace_nth (cells s) c v; definitions := definitions s |}.

(** The value a name has in the mapping. *)
Definition def_value (s : store) (name : str) : option json :=
  match assoc (definitions s) name with
  | Some c => cell_at s c
  | None => None
  end.

(** [definitions[name]] read. *)
Definition def_read (s : store) (name : str) : walk (option json) :=
  match def_value s name with
  | Some v => Finished (Some v)
  | None => if is_inherited name then OutsideModel else Finished None
  end.

(** [definitions[name] = v]; the answer holds the cell of [v].  An
    assignment to [__proto__] would set the prototype of the mapping. *)
Definition def_assign (s : store) (name : str) (v : json) : walk (nat * store) :=
  if str_eqb name (lit "__proto__") then OutsideModel
  else
    let c := length (cells s) in
    Finished (c, {| cells := cells s ++ [v];
                    definitions := assoc_set (definitions s) name c |}).

(** [JSON.parse(JSON.stringify(v))] of a value that [JSON.parse]
    returned: a copy, which as a value is [v]. *)
Definition clone (v : json) : json := v.

(** The object that stands at [path] below [obj]: each step goes through
    [properties] to the property of that key. *)
Fixpoint descend (obj : json) (path : list str) : option json :=
  match path with
  | [] => Some obj
  | key :: rest =>
      match obj with
      | JObj fields =>
          match assoc fields (lit "properties") with
          | Some container =>
              match assoc (own_entries container) key with
              | Some child => descend child rest
              | None => None
              end
          | None => None
          end
      | _ => None
      end
  end.

(** [obj.properties[key] = v] for the object [obj]. *)
Definition set_property (obj : json) (key : str) (v : json) : json :=
  match obj with
  | JObj fields =>
      match assoc fields (lit "properties") with
      | Some container =>
          JObj (assoc_set fields (lit "properties") (entry_set container key v))
      | None => obj
      end
  | _ => obj
  end.

(** The same for the object that stands at [path] below [obj]. *)
Fixpoint set_property_at (obj : json) (path : list str) (key : str) (v : json)
  : json :=
  match path with
  | [] => set_property obj key v
  | k :: rest =>
      match descend obj [k] with
      | Some child => set_property obj k (set_property_at child rest key v)
      | None => obj
      end
  end.

(** The object of cell [c] at [path], now. *)
Definition object_at (s : store) (c : nat) (path : list str) : option json :=
  match cell_at s c with
  | Some obj => descend obj path
  | None => None
  end.

Definition write_property (s : store) (c : nat) (path : list str)
    (key : str) (v : json) : store :=
  match cell_at s c with
  | Some obj => set_cell s c (set_property_at obj path key v)
  | None => s
  end.

(** [typeof v === 'object'] for a truthy [v]. *)
Definition is_object (v : json) : bool :=
  match v with
  | JArr _ | JObj _ => true
  | _ => false
  end.

(** [ref.replace(...)]: only a text has the method. *)
Definition replace_prefix (ref : option json) : walk str :=
  match ref with
  | Some (JStr r) => Finished (ref_name r)
  | _ => TypeError
  end.

(** [for (const key of keys) body(key)] over a store. *)
Fixpoint for_keys (body : str -> store -> walk store) (keys : list str)
    (s : store) : walk store :=
  match keys with
  | [] => Finished s
  | key :: rest => wbind (body key s) (for_keys body rest)
  end.

(** The store a schema starts from, for a [definitions] property that is
    absent, falsy or an object.  The mapping is the store's; the schema
    cell keeps an empty object in its place, which [schema_of] replaces
    by the mapping when the walk is over (the walk reads the schema
    through [properties] alone). *)
Definition initial_store (fields : list (str * json)) (defs : list (str * json))
  : store :=
  {| cells := JObj (assoc_set fields (lit "definitions") (JObj [])) :: map snd defs;
     definitions := combine (map fst defs) (seq 1 (length defs)) |}.

(** The [definitions] mapping of a store, as the object it is. *)
Definition definitions_object (s : store) : json :=
  JObj (flat_map (fun nc => match cell_at s (snd nc) with
                            | Some v => [(fst nc, v)]
                            | None => []
                            end)
                 (definitions s)).

(** The schema of a store: the schema cell with its [definitions]. *)
Definition schema_of (s : store) : walk json :=
  match cell_at s schema_cell with
  | Some (JObj fields) =>
      Finished (JObj (assoc_set fields (lit "definitions") (definitions_object s)))
  | _ => OutsideModel
  end.

(** The first two lines of [restructureArrays]. *)
Definition open_schema (schema : json) : walk store :=
  match schema with
  | JNull => TypeError
  | JObj fields =>
      match assoc fields (lit "definitions") with
      | Some (JObj defs) =>
          if existsb (fun nv => str_eqb (fst nv) (lit "__proto__")) defs
          then OutsideModel
          else Finished (initial_store fields defs)
      | d => if js_truthy d then OutsideModel
             else Finished (initial_store fields [])
      end
  | _ => OutsideModel
  end.

(** The first step for an array property, the same text in both
    snapshots of [restructureArrays]: the item schema gets the name
    [itemName], as a copy of the definition it refers to or as it stands,
    and is walked under that name; a reference to a name that has no
    truthy definition is passed over.  [walk_item] walks the value of a
    cell under a name. *)
Definition lift_item (walk_item : nat -> str -> store -> walk store)
    (itemSchema item_ref : option json) (itemName : str) (s : store)
  : walk store :=
  (if js_truthy item_ref then
     oldRef <- replace_prefix item_ref ;;
     old <- def_read s oldRef ;;
     match old with
     | Some target =>
         if js_truthy old then
           '(ci, s') <- def_assign s itemName (clone target) ;;
           walk_item ci itemName s'
         else Finished s
     | None => Finished s
     end
   else
     match itemSchema with
     | Some item =>
         '(ci, s') <- def_assign s itemName item ;;
         walk_item ci itemName s'
     | None => TypeError
     end)%walk.

(* ================================================================== *)
(** ** [restructureArrays], the snapshot that names every nested object
       by its access path and keeps arrays in place *)
(* ================================================================== *)

Module PathNamed.

(** The body of the loop over the keys of [obj.properties], for the
    object of cell [c]; [self] is [processObject] for the calls inside. *)
Definition process_key (self : nat -> str -> store -> walk store)
    (c : nat) (currentName key : str) (s : store) : walk store :=
  (obj_properties <- prop_of (object_at s c []) (lit "properties") ;;
   let prop :=
     match obj_properties with
     | Some container => assoc (own_entries container) key
     | None => None
     end in
   prop_type <- prop_of prop (lit "type") ;;
   if is_text prop_type (lit "array") then
     let arrayName := currentName ++ toPascalCase key in
     let itemName := arrayName ++ lit "Item" in
     itemSchema <- prop_of prop (lit "items") ;;
     item_ref <- prop_of itemSchema (lit "$ref") ;;
     s1 <- lift_item self itemSchema item_ref itemName s ;;
     Finished (write_property s1 c [] key (array_of_ref itemName))
   else
     prop_properties <- prop_of prop (lit "properties") ;;
     if is_text prop_type (lit "object") && js_truthy prop_properties then
       let objectName := currentName ++ toPascalCase key in
       match prop with
       | Some p =>
           '(co, s') <- def_assign s objectName (clone p) ;;
           self co objectName
             (write_property s' c [] key (ref_schema objectName))
       | None => TypeError
       end
     else
       prop_ref <- prop_of prop (lit "$ref") ;;
       if js_truthy prop_ref then
         oldRef <- replace_prefix prop_ref ;;
         let objectName := currentName ++ toPascalCase key in
         old <- def_read s oldRef ;;
         match old with
         | Some target =>
             if js_truthy old && negb (str_eqb oldRef objectName) then
               '(co, s') <- def_assign s objectName (clone target) ;;
               self co objectName
                 (write_property s' c [] key (ref_schema objectName))
             else Finished s
         | None => Finished s
         end
       else Finished s)%walk.

(** [processObject(obj, currentName)] for the object of cell [c]. *)
Fixpoint processObject (fuel : nat) (c : nat) (currentName : str) (s : store)
  : walk store :=
  match fuel with
  | 0 => OutOfFuel
  | S fuel' =>
      match cell_at s c with
      | None => OutsideModel
      | Some obj =>
          if negb (js_truthy (Some obj)) || negb (is_object obj)
          then Finished s
          else
            (obj_properties <- prop_of (Some obj) (lit "properties") ;;
             if js_truthy obj_properties then
               for_keys (process_key (processObject fuel') c currentName)
                 (map fst (match obj_properties with
                           | Some container => own_entries container
                           | None => []
                           end))
                 s
             else Finished s)%walk
      end
  end.

Definition restructureArrays (fuel : nat) (schema : json) (rootName : str)
  : walk json :=
  (s <- open_schema schema ;;
   s' <- processObject fuel schema_cell rootName s ;;
   schema_of s')%walk.

End PathNamed.

(* ================================================================== *)
(** ** [restructureArrays], the snapshot that registers a definition for
       every array beside the one for its items *)
(* ================================================================== *)

Module ArrayLayer.

(** The body of the loop over the keys of [obj.properties], for the
    object that stands at [path] in cell [c]; [self] is [processObject]
    for the calls inside.  An inline object is walked where it stands. *)
Definition process_key (self : nat -> list str -> str -> store -> walk store)
    (c : nat) (path : list str) (currentName key : str) (s : store)
  : walk store :=
  (obj_properties <- prop_of (object_at s c path) (lit "properties") ;;
   let prop :=
     match obj_properties with
     | Some container => assoc (own_entries container) key
     | None => None
     end in
   prop_type <- prop_of prop (lit "type") ;;
   if is_text prop_type (lit "array") then
     let arrayName := currentName ++ toPascalCase key in
     let itemName := arrayName ++ lit "Item" in
     itemSchema <- prop_of prop (lit "items") ;;
     item_ref <- prop_of itemSchema (lit "$ref") ;;
     s1 <- lift_item (fun ci => self ci []) itemSchema item_ref itemName s ;;
     '(_, s2) <- def_assign s1 arrayName (array_of_ref itemName) ;;
     Finished (write_property s2 c path key (ref_schema arrayName))
   else if is_text prop_type (lit "object") then
     self c (path ++ [key]) (currentName ++ toPascalCase key) s
   else
     prop_ref <- prop_of prop (lit "$ref") ;;
     if js_truthy prop_ref then
       _ <- replace_prefix prop_ref ;;
       Finished s
     else Finished s)%walk.

(** [processObject(obj, currentName)] for the object at [path] in cell
    [c]. *)
Fixpoint processObject (fuel : nat) (c : nat) (path : list str)
    (currentName : str) (s : store) : walk store :=
  match fuel with
  | 0 => OutOfFuel
  | S fuel' =>
      match object_at s c path with
      | None => OutsideModel
      | Some obj =>
          if negb (js_truthy (Some obj)) || negb (is_object obj)
          then Finished s
          else
            (obj_properties <- prop_of (Some obj) (lit "properties") ;;
             if js_truthy obj_properties then
               for_keys (process_key (processObject fuel') c path currentName)
                 (map fst (match obj_properties with
                           | Some container => own_entries container
                           | None => []
                           end))
                 s
             else Finished s)%walk
      end
  end.

Definition restructureArrays (fuel : nat) (schema : json) (rootName : str)
  : walk json :=
  (s <- open_schema schema ;;
   s' <- processObject fuel schema_cell [] rootName s ;;
   schema_of s')%walk.

End ArrayLayer.

(* ================================================================== *)
(** ** From the restructured schema to the declarations *)
(* ================================================================== *)

(** The name a reference object holds: [obj['$ref']] truthy and a text. *)
Definition reference_of (fields : list (str * json)) : option str :=
  match assoc fields (lit "$ref") with
  | Some (JStr (c :: r)) => Some (ref_name (c :: r))
  | _ => None
  end.

(** [replaceRefsWithMarkers]: a reference to a name of [map] becomes
    [{ const: "__REF__" + map[name] }]; a reference object is not
    entered; [map] is built from own keys. *)
Fixpoint replaceRefsWithMarkers (map_ : list (str * str)) (j : json) : json :=
  match j with
  | JArr items => JArr (map (replaceRefsWithMarkers map_) items)
  | JObj fields =>
      match reference_of fields with
      | Some name =>
          match assoc map_ name with
          | Some (c :: target) =>
              JObj (assoc_set (filter (fun kv => negb (str_eqb (fst kv) (lit "$ref")))
                                 fields)
                      (lit "const") (JStr (lit "__REF__" ++ c :: target)))
          | _ => j
          end
      | None =>
          JObj (map (fun kv => (fst kv, replaceRefsWithMarkers map_ (snd kv)))
                    fields)
      end
  | _ => j
  end.

(** A declaration that the renderer is asked for: the identifier and the
    schema it is rendered from. *)
Record declaration : Type := {
  identifier : str;
  rendered_from : json
}.

Definition schema_name (key : str) : str :=
  toCamelCase (toPascalCase key) ++ lit "Schema".

(** [`export type ${t} = z.infer<typeof ${s}>;`] *)
Definition type_export (typeName schemaName : str) : str :=
  lit "export type " ++ typeName ++ lit " = z.infer<typeof " ++ schemaName
  ++ lit ">;".

(** [{ ...v }]: the own enumerable properties of a value. *)
Definition spread (v : json) : list (str * json) :=
  match v with
  | JObj fields => fields
  | JArr items => indexed items 0
  | JStr s => indexed (map (fun c => JStr [c]) s) 0
  | _ => []
  end.

(** The root reference that the inferencer emits is unwrapped: when
    [jsonSchema.$ref] starts with [#/definitions/] and names a truthy
    definition, the schema becomes that definition with the other
    definitions and [$schema] beside it, and the definition leaves the
    mapping.  This covers a [$ref] that is a text and [definitions] that
    is an object; any other draft is given back as it is. *)
Definition unwrap_root (jsonSchema : json) : json :=
  match jsonSchema with
  | JObj fields =>
      match assoc fields (lit "$ref"), assoc fields (lit "definitions") with
      | Some (JStr ref), Some (JObj defs) =>
          if startsWith ref definitions_prefix then
            match assoc defs (ref_name ref) with
            | Some target =>
                if js_truthy (Some target) then
                  let with_defs :=
                    assoc_set (spread target) (lit "definitions")
                      (JObj (filter (fun kv =>
                                       negb (str_eqb (fst kv) (ref_name ref)))
                                    defs)) in
                  JObj (match assoc fields (lit "$schema") with
                        | Some v => assoc_set with_defs (lit "$schema") v
                        | None => with_defs
                        end)
                else jsonSchema
            | None => jsonSchema
            end
          else jsonSchema
      | _, _ => jsonSchema
      end
  | _ => jsonSchema
  end.

(** Steps 3 to 5 of [generateComponentSchema], from the restructured
    schema: the declarations handed to the renderer, definitions first
    and the root last, and the type exports. *)
Definition declarations_of (baseName : str) (jsonSchema : json)
  : list declaration * list str :=
  let fields := match jsonSchema with JObj f => f | _ => [] end in
  let definitions :=
    match assoc fields (lit "definitions") with
    | Some (JObj defs) => defs
    | _ => []
    end in
  let defKeys := map fst definitions in
  let refMap := map (fun key => (key, schema_name key)) defKeys in
  let typeExports :=
    map (fun key => type_export (toPascalCase key) (schema_name key)) defKeys
    ++ [type_export baseName (toCamelCase baseName ++ lit "Schema")] in
  let rootSchema :=
    JObj (filter (fun kv => negb (str_eqb (fst kv) (lit "definitions"))) fields) in
  let zodSegments :=
    map (fun kv => {| identifier := schema_name (fst kv);
                      rendered_from := replaceRefsWithMarkers refMap (snd kv) |})
        definitions
    ++ [{| identifier := toCamelCase baseName ++ lit "Schema";
           rendered_from := replaceRefsWithMarkers refMap rootSchema |}] in
  (zodSegments, typeExports).

(** [Array.from(new Set(xs))]: the first copy of each text stays. *)
Fixpoint unique (xs : list str) : list str :=
  match xs with
  | [] => []
  | x :: rest => x :: filter (fun y => negb (str_eqb y x)) (unique rest)
  end.

(* ================================================================== *)
(** ** Draft schemas to run the generator on *)
(* ================================================================== *)

Module Drafts.

Definition text (s : string) : json := JStr (lit s).
Definition field (k : string) (v : json) : str * json := (lit k, v).
Definition typed (t : string) : json := JObj [field "type" (text t)].
Definition reference (name : string) : json :=
  JObj [field "$ref" (JStr (ref_to (lit name)))].

(** An object schema in the layout of the inferencer. *)
Definition object_schema (title : string) (properties : list (str * json))
  : json :=
  JObj [field "type" (text "object");
        field "additionalProperties" (JBool false);
        field "properties" (JObj properties);
        field "required" (JArr (map (fun kv => JStr (fst kv)) properties));
        field "title" (text title)].

Definition array_schema (items : json) : json :=
  JObj [field "type" (text "array"); field "items" items].

Definition post_schema : json :=
  object_schema "Post" [field "id" (typed "integer");
                        field "title" (typed "string")].

(** The draft of the inferencer ([quicktype], target [schema]) for the
    sample [{ posts: [ { id: 1, title: 'Hi' } ] }] under the name
    [GetPostsBody]: every object is a definition, the root is a reference
    to the top-level one, and the array holds a reference to its item. *)
Definition posts_draft : json :=
  JObj [field "$schema" (text "http://json-schema.org/draft-06/schema#");
        field "$ref" (JStr (ref_to (lit "GetPostsBody")));
        field "definitions"
          (JObj [field "GetPostsBody"
                   (object_schema "GetPostsBody"
                      [field "posts" (array_schema (reference "Post"))]);
                 field "Post" post_schema])].



(** A tree: the items of [children] are nodes again. *)
Definition tree_draft : json :=
  JObj [field "type" (text "object");
        field "properties"
          (JObj [field "children" (array_schema (reference "Node"))]);
        field "definitions"
          (JObj [field "Node"
                   (object_schema "Node"
                      [field "children" (array_schema (reference "Node"))])])].

(** An array whose item reference names no definition. *)
Definition broken_draft : json :=
  JObj [field "type" (text "object");
        field "properties"
          (JObj [field "a" (array_schema (reference "Missing"))])].

(** A tree under the name [Node] in the layout of the inferencer: the
    root is a reference to the definition, whose children are nodes
    again. *)
Definition node_draft : json :=
  JObj [field "$schema" (text "http://json-schema.org/draft-06/schema#");
        field "$ref" (JStr (ref_to (lit "Node")));
        field "definitions"
          (JObj [field "Node"
                   (object_schema "Node"
                      [field "children" (array_schema (reference "Node"))])])].

(** A linked list: the root refers to a node, and a node to the next
    one. *)
Definition list_draft : json :=
  JObj [field "type" (text "object");
        field "properties" (JObj [field "head" (reference "Node")]);
        field "definitions"
          (JObj [field "Node"
                   (object_schema "Node"
                      [field "next" (reference "Node")])])].

(** An object of two scalars, with an empty [definitions]. *)
Definition flat_draft : json :=
  JObj [field "type" (text "object");
        field "properties" (JObj [field "id" (typed "integer");
                                  field "title" (typed "string")]);
        field "definitions" (JObj [])].

(** Two arrays whose keys have one name in Pascal case. *)
Definition colliding_draft : json :=
  JObj [field "type" (text "object");
        field "properties"
          (JObj [field "a-b"
                   (array_schema
                      (object_schema "AB" [field "id" (typed "integer")]));
                 field "aB"
                   (array_schema
                      (object_schema "AB" [field "name" (typed "string")]))])].

(** The marker that stands for a reference to a schema name in a
    declaration: [{ const: "__REF__" + name }]. *)
Definition marker (name : string) : json :=
  JObj [field "const" (JStr (lit "__REF__" ++ lit name))].

(** The root of the sample once the root reference is unwrapped, with
    [posts] as the value of its property. *)
Definition posts_root (posts : json) : json :=
  JObj [field "type" (text "object");
        field "additionalProperties" (JBool false);
        field "properties" (JObj [field "posts" posts]);
        field "required" (JArr [text "posts"]);
        field "title" (text "GetPostsBody");
        field "$schema" (text "http://json-schema.org/draft-06/schema#")].

End Drafts.

(* ================================================================== *)
(** ** [urlToPathName] *)
(* ================================================================== *)

Definition SLASH : N := 47.     (* / *)
Definition QUESTION : N := 63.  (* ? *)
Definition HASH : N := 35.      (* # *)
Definition DQUOTE : N := 34.
Definition SQUOTE : N := 39.
Definition RPAREN : N := 41.    (* ) *)

Fixpoint take_while (p : N -> bool) (s : str) : str :=
  match s with
  | c :: t => if p c then c :: take_while p t else []
  | [] => []
  end.

Fixpoint drop_while (p : N -> bool) (s : str) : str :=
  match s with
  | c :: t => if p c then drop_while p t else s
  | [] => []
  end.

Definition not_rbrace (c : N) : bool := negb (c =? RBRACE)%N.
Definition not_slash (c : N) : bool := negb (c =? SLASH)%N.
Definition is_slash (c : N) : bool := (c =? SLASH)%N.

(** [/\{\{[^}]+\}\}/] at the head of [s]: the length of the match.  The
    class takes every code unit up to the next closing brace, of which
    there must be one at least, and two closing braces must follow. *)
Definition template_len (s : str) : option nat :=
  match strip_prefix (lit "{{") s with
  | Some r =>
      match take_while not_rbrace r,
            strip_prefix (lit "}}") (drop_while not_rbrace r) with
      | c :: inside, Some _ => Some (2 + length (c :: inside) + 2)
      | _, _ => None
      end
  | None => None
  end.

(** [url.replace(/\{\{[^}]+\}\}/g, '')]: every match from the left is
    left out; [skip] counts the code units of a match still to pass. *)
Fixpoint remove_templates (s : str) (skip : nat) : str :=
  match s with
  | [] => []
  | c :: t =>
      match skip with
      | S k => remove_templates t k
      | 0 =>
          match template_len s with
          | Some len => remove_templates t (len - 1)
          | None => c :: remove_templates t 0
          end
      end
  end.

(** [cleaned.replace(/^https?:\/\/[^/]*/, '')] *)
Definition strip_origin (s : str) : str :=
  match orElse (strip_prefix (lit "https://") s)
               (strip_prefix (lit "http://") s) with
  | Some r => drop_while not_slash r
  | None => s
  end.

(** [cleaned.replace(/[?#].*$/, '')]: the text is cut at the first [?]
    or [#] after which no line terminator stands ([.] matches none, and
    [$] is the end of the text). *)
Fixpoint cut_query (s : str) : str :=
  match s with
  | [] => []
  | c :: t =>
      if ((c =? QUESTION) || (c =? HASH))%N
         && forallb (fun d => negb (is_lt d)) t
      then []
      else c :: cut_query t
  end.

(** [cleaned.replace(/^\/+|\/+$/g, '')] *)
Definition trim_slashes (s : str) : str :=
  rev (drop_while is_slash (rev (drop_while is_slash s))).

(** [cleaned.split('/')] *)
Fixpoint split_slash_aux (s cur : str) : list str :=
  match s with
  | [] => [rev cur]
  | c :: t => if (c =? SLASH)%N then rev cur :: split_slash_aux t []
              else split_slash_aux t (c :: cur)
  end.

Definition split_slash (s : str) : list str := split_slash_aux s [].

Definition nonempty (s : str) : bool :=
  match s with [] => false | _ => true end.

(** [segment.replace(/^:/, '').replace(/^\{|\}$/g, '')]: a colon at the
    start goes, then an opening brace at the start and a closing brace
    at the end. *)
Definition clean_segment (segment : str) : str :=
  let s1 := skip_colon segment in
  let s2 := match s1 with
            | c :: t => if (c =? LBRACE)%N then t else s1
            | [] => []
            end in
  match rev s2 with
  | c :: t => if (c =? RBRACE)%N then rev t else s2
  | [] => []
  end.

Definition urlToPathName (url : str) : str :=
  let cleaned := remove_templates url 0 in
  let cleaned := strip_origin cleaned in
  let cleaned := cut_query cleaned in
  let cleaned := trim_slashes cleaned in
  match cleaned with
  | [] => []
  | _ =>
      let segments :=
        map clean_segment (filter nonempty (split_slash cleaned)) in
      concat (map toPascalCase segments)
  end.

(* ================================================================== *)
(** ** From the components of a document to the files written *)
(* ================================================================== *)

(** The import statement of the renderer: [import { z } from], a
    double quote, [zod], a double quote. *)
Definition zod_import : str :=
  lit "import { z } from " ++ DQUOTE :: lit "zod" ++ [DQUOTE].

(** [code.replace(/<the import>[\s\S]*?\n/, '').trim()]: the first
    import and what follows it through the next line feed go.
    When no line feed follows the first import, none follows a later
    one. *)
Definition clean_code (code : str) : str :=
  trim (match find_sub zod_import code with
        | Some (before, after) =>
            match index_of NL after with
            | Some k => before ++ skipn (S k) after
            | None => code
            end
        | None => code
        end).

Definition is_quote (c : N) : bool := ((c =? SQUOTE) || (c =? DQUOTE))%N.

(** A quote and a closing parenthesis stand at the head of [t]. *)
Definition ends_marker (t : str) : bool :=
  match t with
  | q :: p :: _ => is_quote q && (p =? RPAREN)%N
  | _ => false
  end.

(** The lazy group [(.+?)] before a quote and [\)]: its length, the
    least one of at least one for which the rest of the pattern matches;
    [.] matches no line terminator. *)
Fixpoint lazy_group (g : str) : option nat :=
  match g with
  | [] => None
  | c :: t =>
      if is_lt c then None
      else if ends_marker t then Some 1
      else option_map S (lazy_group t)
  end.

(** The marker pattern at the head of [s], [z\.literal\(], a quote of
    either kind, [__REF__(.+?)], a quote of either kind, [\)]: group 1
    and the length of the match. *)
Definition marker_at (s : str) : option (str * nat) :=
  match strip_prefix (lit "z.literal(") s with
  | Some (q :: r) =>
      if is_quote q then
        match strip_prefix (lit "__REF__") r with
        | Some g =>
            match lazy_group g with
            | Some k => Some (firstn k g, 10 + 1 + 7 + k + 2)
            | None => None
            end
        | None => None
        end
      else None
  | _ => None
  end.

(** [fullContent.replace(<the marker pattern>, 'z.lazy(() => $1)')],
    every match from the left. *)
Fixpoint rewrite_markers (s : str) (skip : nat) : str :=
  match s with
  | [] => []
  | c :: t =>
      match skip with
      | S k => rewrite_markers t k
      | 0 =>
          match marker_at s with
          | Some (g, len) =>
              lit "z.lazy(() => " ++ g ++ lit ")"
              ++ rewrite_markers t (len - 1)
          | None => c :: rewrite_markers t 0
          end
      end
  end.

(** [xs.join(sep)] *)
Fixpoint join (sep : str) (xs : list str) : str :=
  match xs with
  | [] => []
  | [x] => x
  | x :: rest => x ++ sep ++ join sep rest
  end.

Record ComponentResult : Type := {
  zodSegments : list str;
  typeExports : list str
}.

Record GenStats : Type := {
  documentedEndpoints : nat;
  createdSchemas : nat
}.

Section Output.

(** The values of the components of a document ([any] in the source),
    seen through what the generator does with them: the test [!data],
    the test for an object or array without keys, and the draft that the
    inferencer makes of [JSON.stringify(data)] under a name. *)
Variable num J : Type.
Variable data : Type.
Variable of_body : J -> data.
Variable of_mapping : kv_object num -> data.
Variable data_truthy : data -> bool.
Variable data_no_keys : data -> bool.
Variable infer : str -> data -> json.

(** [jsonSchemaToZod(schema, { module: 'esm', name, type: false })] *)
Variable render : json -> str -> str.

(** [`${response.statusCode}`] *)
Variable status_text : num -> str.

(** [restructureArrays], of the snapshot at hand, and the base name of
    the file of a document. *)
Variable restructure : json -> str -> walk json.
Variable base_name : BruFile.t num J -> str.

(** Whether the responses of a document are read. *)
Variable with_responses : bool.

Definition generateComponentSchema (name : str) (d : data)
  : walk ComponentResult :=
  if negb (data_truthy d) || data_no_keys d then
    Finished {| zodSegments := []; typeExports := [] |}
  else
    let baseName := toPascalCase name in
    let jsonSchema := unwrap_root (infer baseName d) in
    (restructured <- restructure jsonSchema baseName ;;
     let '(declarations, exports) := declarations_of baseName restructured in
     Finished
       {| zodSegments :=
            map (fun dcl => clean_code (render (rendered_from dcl)
                                               (identifier dcl)))
                declarations;
          typeExports := exports |})%walk.

(** [runGen(suffix, data)] on the two lists of a file. *)
Definition runGen (baseName : str) (acc : list str * list str)
    (component : str * option data) : walk (list str * list str) :=
  let '(allZodSegments, allTypeExports) := acc in
  match snd component with
  | None => Finished acc
  | Some d =>
      if negb (data_truthy d) then Finished acc
      else
        (res <- generateComponentSchema (baseName ++ fst component) d ;;
         Finished (allZodSegments ++ zodSegments res,
                   allTypeExports ++ typeExports res))%walk
  end.

Fixpoint run_all (baseName : str) (components : list (str * option data))
    (acc : list str * list str) : walk (list str * list str) :=
  match components with
  | [] => Finished acc
  | c :: rest =>
      (acc' <- runGen baseName acc c ;; run_all baseName rest acc')%walk
  end.

(** The calls of [runGen] for a document, in the order of the source. *)
Definition components (file : BruFile.t num J) : list (str * option data) :=
  [(lit "Body", option_map of_body (BruFile.body file));
   (lit "Header", option_map of_mapping (BruFile.headers file));
   (lit "Query", option_map of_mapping (BruFile.query file));
   (lit "Params", option_map of_mapping (BruFile.params file))]
  ++ (if with_responses then
        match BruFile.responses file with
        | Some responses =>
            flat_map
              (fun response =>
                 [(status_text (Response.statusCode response),
                   option_map of_body (Response.body response));
                  (status_text (Response.statusCode response) ++ lit "Header",
                   option_map of_mapping (Response.headers response))])
              responses
        | None => []
        end
      else []).

(** The text of a file, from its two lists. *)
Definition file_content (allZodSegments allTypeExports : list str) : str :=
  let fullContent :=
    zod_import ++ lit ";" ++ [NL; NL] ++ join [NL; NL] allZodSegments in
  let fullContent := rewrite_markers fullContent 0 in
  let uniqueTypeExports := unique allTypeExports in
  fullContent ++ [NL; NL] ++ join [NL] uniqueTypeExports ++ [NL].

(** The body of the loop of [generateSchemas] on the files written so
    far, each with its name in the output directory and its text, and
    the two counters. *)
Definition generate_file (st : list (str * str) * GenStats)
    (file : BruFile.t num J) : walk (list (str * str) * GenStats) :=
  let '(written, stats) := st in
  let baseName := base_name file in
  let fileName := baseName ++ lit ".ts" in
  (lists <- run_all baseName (components file) ([], []) ;;
   let '(allZodSegments, allTypeExports) := lists in
   match allZodSegments with
   | [] => Finished st
   | _ =>
       Finished
         (written ++ [(fileName, file_content allZodSegments allTypeExports)],
          {| documentedEndpoints := S (documentedEndpoints stats);
             createdSchemas := createdSchemas stats + length allZodSegments |})
   end)%walk.

Fixpoint generate_files (bruFiles : list (BruFile.t num J))
    (st : list (str * str) * GenStats) : walk (list (str * str) * GenStats) :=
  match bruFiles with
  | [] => Finished st
  | file :: rest =>
      (st' <- generate_file st file ;; generate_files rest st')%walk
  end.

(** [generateSchemas(bruFiles, outPath)]: the files written into the
    output directory, in order, and the counters returned.  Clearing or
    creating the directory comes before and is not part of this. *)
Definition generateSchemas (bruFiles : list (BruFile.t num J))
  : walk (list (str * str) * GenStats) :=
  generate_files bruFiles
    ([], {| documentedEndpoints := 0; createdSchemas := 0 |}).

End Output.

(** The snapshot that names files by method and URL, reads the
    responses, and keeps arrays in place. *)
Module PathNamedOutput.

Definition base_name {num J} (file : BruFile.t num J) : str :=
  toPascalCase (BruFile.method file) ++ urlToPathName (BruFile.url file).

Definition generateSchemas {num J data} (of_body : J -> data)
    (of_mapping : kv_object num -> data) (data_truthy data_no_keys : data -> bool)
    (infer : str -> data -> json) (render : json -> str -> str)
    (status_text : num -> str) (fuel : nat)
    (bruFiles : list (BruFile.t num J)) : walk (list (str * str) * GenStats) :=
  generateSchemas num J data of_body of_mapping data_truthy data_no_keys infer
    render status_text (PathNamed.restructureArrays fuel) base_name true
    bruFiles.

End PathNamedOutput.

(** The snapshot that names files by the name of the document and
    registers a definition for every array. *)
Module ArrayLayerOutput.

Definition base_name {num J} (file : BruFile.t num J) : str :=
  toPascalCase (BruFile.name file).

Definition generateSchemas {num J data} (of_body : J -> data)
    (of_mapping : kv_object num -> data) (data_truthy data_no_keys : data -> bool)
    (infer : str -> data -> json) (render : json -> str -> str)
    (status_text : num -> str) (fuel : nat)
    (bruFiles : list (BruFile.t num J)) : walk (list (str * str) * GenStats) :=
  generateSchemas num J data of_body of_mapping data_truthy data_no_keys infer
    render status_text (ArrayLayer.restructureArrays fuel) base_name false
    bruFiles.

End ArrayLayerOutput.

(* ================================================================== *)
(** ** Stand-ins for the built-ins, to run the parser on concrete texts *)
(* ================================================================== *)

(** Enough of [Number], [parseInt] and [JSON5.parse] to run the parser on
    texts like those of the test suite.  Numbers are the unsigned decimal
    integers ([None] is [NaN]); the JSON5 stand-in accepts the texts that
    open with a brace and end with one, white space apart, and returns
    the text without that white space. *)
Module Sample.

Definition num := option N.

Fixpoint decimal (s : str) (acc : N) : option N :=
  match s with
  | [] => Some acc
  | c :: t => if is_digit c then decimal t (acc * 10 + (c - 48))%N else None
  end.

Definition Number (s : str) : num := decimal s 0.

Definition isNaN (n : num) : bool :=
  match n with None => true | Some _ => false end.

Definition parseInt10 (s : str) : num := decimal s 0.

Definition num_truthy (n : num) : bool :=
  match n with Some (Npos _) => true | _ => false end.

Definition same_num (a b : num) : bool :=
  match a, b with
  | Some x, Some y => (x =? y)%N
  | None, None => true
  | _, _ => false
  end.

Definition J := str.

Definition JSON5_parse (s : str) : outcome J :=
  match trim s, rev (trim s) with
  | c :: _, d :: _ =>
      if ((c =? LBRACE) && (d =? RBRACE))%N then Returned (trim s) else Thrown
  | _, _ => Thrown
  end.

Definition basename_bru (filePath : str) : str := filePath.

Definition parseBruFile :=
  parseBruFile Number isNaN parseInt10 num_truthy same_num JSON5_parse
    basename_bru.

Definition parseKvContent := parseKvContent Number isNaN.

(** A request with a payload and one example response that has headers of
    its own, after the file of the regression test. *)
Definition login_bru : str := lit
"meta {
  name: Login
  type: http
  seq: 4
}

post {
  url: {{systemurl}}/login
  body: json
  auth: inherit
}

body:json {
  { email: 1 }
}

example {
  name: example

  response: {
    headers: {
      content-type: application/json
    }

    status: {
      code: 200
      text: OK
    }

    body: {
      type: json
      content: '''
        { success: true }
      '''
    }
  }
}
".

(** Two examples with the same status code, and a third one whose body
    literal is not JSON5. *)
Definition twice_bru : str := lit
"get {
  url: /posts
}

example {
  response: {
    status: { code: 200 }
    body: {
      content: '''
        { first: 1 }
      '''
    }
  }
}

example {
  response: {
    status: { code: 200 }
    headers: { x-second: yes }
    body: {
      content: '''
        { second: 2 }
      '''
    }
  }
}

example {
  response: {
    status: { code: 404 }
    body: {
      content: not json
    }
  }
}

body:json {
  not json either
}
".

End Sample.

(** Stand-ins for the inferencer and the renderer, to run the generator
    on concrete documents: the components are JSON values; the
    inferencer describes a flat object under its name, as a definition
    that the root refers to; the renderer prints the import, an empty
    line and one declaration of the identifier, for any schema. *)
Module SampleOutput.

Definition data := json.

Definition data_truthy (d : data) : bool := js_truthy (Some d).

Definition data_no_keys (d : data) : bool :=
  match d with
  | JObj [] | JArr [] => true
  | _ => false
  end.

Definition type_name (v : json) : json :=
  JObj [(lit "type",
         JStr (match v with
               | JNull => lit "null"
               | JBool _ => lit "boolean"
               | JNum _ => lit "integer"
               | JStr _ => lit "string"
               | JArr _ => lit "array"
               | JObj _ => lit "object"
               end))].

Definition infer (name : str) (d : data) : json :=
  JObj [(lit "$schema", JStr (lit "http://json-schema.org/draft-06/schema#"));
        (lit "$ref", JStr (ref_to name));
        (lit "definitions",
         JObj [(name,
                JObj [(lit "type", JStr (lit "object"));
                      (lit "properties",
                       JObj (map (fun kv => (fst kv, type_name (snd kv)))
                                 (own_entries d)));
                      (lit "title", JStr name)])])].

Definition render (schema : json) (name : str) : str :=
  zod_import ++ [NL; NL] ++ lit "export const " ++ name ++ lit " = z.any()"
  ++ [NL].

Definition of_mapping (o : kv_object Sample.num) : data :=
  JObj (map (fun kv => (fst kv, JNull)) o).

Definition status_text (n : Sample.num) : str :=
  match n with
  | Some k => lit (DecimalString.NilZero.string_of_uint (N.to_uint k))
  | None => lit "NaN"
  end.

(** A request with a payload and nothing else. *)
Definition posts_document : BruFile.t Sample.num json :=
  BruFile.mk (lit "posts.bru") (lit "Get Posts") (lit "get")
    (lit "{{systemurl}}/posts")
    (Some (JObj [(lit "id", JNum 1); (lit "title", JStr (lit "Hi"))]))
    None None None None.

(** A request without any component. *)
Definition ping_document : BruFile.t Sample.num json :=
  BruFile.mk (lit "ping.bru") (lit "Ping") (lit "get") (lit "/ping")
    None None None None None.

End SampleOutput.

(* ================================================================== *)
(** ** Notions the properties are stated with *)
(* ================================================================== *)

(** The separator between a block name and its brace: [\s*:?\s*]. *)
Definition is_separator (sep : str) : Prop :=
  exists w1 w2 colon,
    sep = w1 ++ colon ++ w2 /\ forallb is_ws w1 = true /\
    forallb is_ws w2 = true /\ (colon = [] \/ colon = [COLON]).

(** Occurrences of a code unit. *)
Fixpoint count (c : N) (s : str) : nat :=
  match s with
  | [] => 0
  | x :: t => (if (x =? c)%N then 1 else 0) + count c t
  end.

Definition opens (s : str) : nat := count LBRACE s.
Definition closes (s : str) : nat := count RBRACE s.

(** A text that, read at depth [S d], comes back to depth 1 at its end and
    never closes the block before. *)
Definition depth_ok (d : nat) (body : str) : Prop :=
  closes body = opens body + d /\
  forall k, closes (firstn k body) <= opens (firstn k body) + d.

(** Braces that balance: as many closing as opening ones, and no prefix
    that closes more than it opens. *)
Definition balanced (body : str) : Prop := depth_ok 0 body.

(** The pattern [name\s*:?\s*\{] matches at index [m] of [content]. *)
Definition header_matches (name content : str) (m : nat) : Prop :=
  m <= length content /\
  exists sep rest, skipn m content = name ++ sep ++ LBRACE :: rest /\
                   is_separator sep.

(** [m] is the index of the first block header. *)
Definition first_header (name content : str) (m : nat) : Prop :=
  header_matches name content m /\
  forall k, k < m -> ~ header_matches name content k.

(** The two steps that [extractBlockContent] and [stripBlocks] share, the
    header search and the brace scan, and their three ways out.  [Cut] is
    a block whose header starts at [m], whose opening brace follows [pre]
    and whose inside is [body]; [Open] is a header whose block never
    closes. *)
Inductive block_scan (content name : str) : Prop :=
| NoHeader : find_header name content = None -> block_scan content name
| Cut (m : nat) (pre body rest : str) :
    find_header name content = Some m ->
    indexOf LBRACE content m = Some (length pre) ->
    content = pre ++ LBRACE :: body ++ RBRACE :: rest ->
    m <= length pre -> ~ In LBRACE (skipn m pre) -> balanced body ->
    scan_braces (skipn (length pre + 1) content) 1 (length pre + 1)
    = (0, length pre + 1 + length body + 1) ->
    block_scan content name
| Open (m : nat) (pre tail : str) (bc i : nat) :
    find_header name content = Some m ->
    indexOf LBRACE content m = Some (length pre) ->
    content = pre ++ LBRACE :: tail ->
    m <= length pre -> ~ In LBRACE (skipn m pre) ->
    (forall body rest, tail = body ++ RBRACE :: rest -> ~ balanced body) ->
    scan_braces (skipn (length pre + 1) content) 1 (length pre + 1) = (bc, i) ->
    bc <> 0 ->
    block_scan content name.

(** A line that [parseKvContent] uses, with the key and the value text it
    holds: trimmed, the line is not a comment, and splits at its first
    colon into the key and the value, both trimmed in turn. *)
Definition usable_line (line key value : str) : Prop :=
  exists k0 v0,
    trim line = k0 ++ COLON :: v0 /\ ~ In COLON k0 /\
    startsWith (trim line) (lit "//") = false /\
    startsWith (trim line) (lit "#") = false /\
    key = trim k0 /\ value = trim v0.

(** [lines.join('\n')] *)
Fixpoint join_lines (lines : list str) : str :=
  match lines with
  | [] => []
  | [l] => l
  | l :: rest => l ++ NL :: join_lines rest
  end.

(** The text outside all blocks of a name: what is left when, again and
    again, the first block is cut out, from the start of its header
    through the closing brace that balances its opening brace; the cutting
    ends when no header is left or when the first header's block never
    closes. *)
Inductive without_blocks (name : str) : str -> str -> Prop :=
| wb_no_header content :
    (forall m, ~ header_matches name content m) ->
    without_blocks name content content
| wb_open content m pre tail :
    first_header name content m ->
    content = pre ++ LBRACE :: tail ->
    m <= length pre -> ~ In LBRACE (skipn m pre) ->
    (forall body rest, tail = body ++ RBRACE :: rest -> ~ balanced body) ->
    without_blocks name content content
| wb_cut content m pre body rest outside :
    first_header name content m ->
    content = pre ++ LBRACE :: body ++ RBRACE :: rest ->
    m <= length pre -> ~ In LBRACE (skipn m pre) -> balanced body ->
    without_blocks name (firstn m pre ++ rest) outside ->
    without_blocks name content outside.

(** *** Notions for the restructured schema *)

(** The names that the references of a value hold: every object, at any
    depth, whose [$ref] is a text that is not empty. *)
Fixpoint refs (j : json) : list str :=
  match j with
  | JArr items => flat_map refs items
  | JObj fields =>
      match assoc fields (lit "$ref") with
      | Some (JStr (c :: r)) => [ref_name (c :: r)]
      | _ => []
      end ++ flat_map (fun kv => refs (snd kv)) fields
  | _ => []
  end.

(** The value of a property of an object, [None] for [undefined]. *)
Definition property (j : json) (k : str) : option json :=
  match j with
  | JObj fields => assoc fields k
  | _ => None
  end.

(** The entry of a name in the [definitions] of a schema. *)
Definition definition_of (schema : json) (name : str) : option json :=
  match property schema (lit "definitions") with
  | Some defs => property defs name
  | None => None
  end.

(** [schema.properties[key]] *)
Definition property_schema (schema : json) (key : str) : option json :=
  match property schema (lit "properties") with
  | Some container => assoc (own_entries container) key
  | None => None
  end.

(** The identifiers of the declarations of a draft, and the type
    exports without repeats, as one document with this body alone
    gets them. *)
Definition assembled (restructured : walk json) (baseName : str)
  : option (list declaration * list str) :=
  match restructured with
  | Finished jsonSchema =>
      let '(zodSegments, typeExports) := declarations_of baseName jsonSchema in
      Some (zodSegments, unique typeExports)
  | _ => None
  end.

(** A declaration of an array schema. *)
Definition declares_array (d : declaration) : bool :=
  is_text (property (rendered_from d) (lit "type")) (lit "array").

(** The references in the root of a schema (the schema with its
    [definitions] emptied) and inside the entries of its [definitions]. *)
Definition schema_refs (schema : json) : list str :=
  match schema with
  | JObj fields =>
      refs (JObj (assoc_set fields (lit "definitions") (JObj [])))
      ++ match assoc fields (lit "definitions") with
         | Some (JObj defs) => flat_map (fun kv => refs (snd kv)) defs
         | _ => []
         end
  | _ => refs schema
  end.

(** The references of a schema that name no key of its [definitions]. *)
Definition dangling (schema : json) : list str :=
  filter (fun name => match definition_of schema name with
                      | Some _ => false
                      | None => true
                      end)
         (schema_refs schema).

(** No array schema, at any depth, has a falsy item schema. *)
Fixpoint items_ok (j : json) : bool :=
  match j with
  | JArr items => forallb items_ok items
  | JObj fields =>
      (if is_text (assoc fields (lit "type")) (lit "array")
       then match assoc fields (lit "items") with
            | Some v => js_truthy (Some v)
            | None => true
            end
       else true)
      && forallb (fun kv => items_ok (snd kv)) fields
  | _ => true
  end.

(** A draft in which every reference names a definition that is not
    falsy, and no array has a falsy item schema. *)
Definition draft_ok (schema : json) : Prop :=
  items_ok schema = true /\
  forall name, In name (schema_refs schema) ->
               js_truthy (definition_of schema name) = true.

(** [definitions[name]] is truthy. *)
Definition resolves (s : store) (name : str) : bool :=
  js_truthy (def_value s name).

(** A store in which every name has a cell, every reference of a cell
    resolves, and no array has a falsy item schema. *)
Definition sound (s : store) : Prop :=
  (forall name c, assoc (definitions s) name = Some c -> c < length (cells s)) /\
  forall c v, cell_at s c = Some v ->
    items_ok v = true /\ forall name, In name (refs v) -> resolves s name = true.

(** [s'] has the cells and the names of [s], and what resolved in [s]
    resolves in [s']. *)
Definition extends (s s' : store) : Prop :=
  length (cells s) <= length (cells s') /\
  (forall name, def_value s name <> None -> def_value s' name <> None) /\
  (forall name, resolves s name = true -> resolves s' name = true).

(** The cells of [s] other than [c] are the same in [s']. *)
Definition untouched_but (c : nat) (s s' : store) : Prop :=
  forall i, i < length (cells s) -> i <> c -> cell_at s' i = cell_at s i.

(** The value is an object, not an array. *)
Definition is_obj (v : json) : Prop := exists fields, v = JObj fields.

(** From [s] to [s'] the store stays sound, grows, and changes no cell
    of [s] but [c]. *)
Definition evolves (c : nat) (s s' : store) : Prop :=
  sound s' /\ extends s s' /\ untouched_but c s s'.

(** A walk of the value of a cell that keeps stores sound. *)
Definition keeps_sound (walker : nat -> str -> store -> walk store) : Prop :=
  forall c name s s',
    sound s -> walker c name s = Finished s' -> evolves c s s'.

(** The path [q] leaves the path [p]: after a common start, the next key
    of [q] is not the next key of [p]. *)
Fixpoint leaves (p q : list str) : bool :=
  match p, q with
  | b :: p', a :: q' => if str_eqb a b then leaves p' q' else true
  | _, _ => false
  end.

(** The schema names that the markers of a schema hold, in the order of
    the schema: a marker is a [const] of the text [__REF__] and a name. *)
Fixpoint markers (j : json) : list str :=
  match j with
  | JArr items => flat_map markers items
  | JObj fields =>
      flat_map (fun kv =>
                  match snd kv with
                  | JStr s =>
                      if str_eqb (fst kv) (lit "const") then
                        match strip_prefix (lit "__REF__") s with
                        | Some name => [name]
                        | None => []
                        end
                      else []
                  | _ => markers (snd kv)
                  end)
               fields
  | _ => []
  end.

(** What a property of an object adds to its markers. *)
Definition field_markers (kv : str * json) : list str :=
  match snd kv with
  | JStr s =>
      if str_eqb (fst kv) (lit "const") then
        match strip_prefix (lit "__REF__") s with
        | Some name => [name]
        | None => []
        end
      else []
  | _ => markers (snd kv)
  end.

(** [schema.definitions], an empty object when there is none. *)
Definition definitions_of_schema (schema : json) : json :=
  match property schema (lit "definitions") with
  | Some defs => defs
  | None => JObj []
  end.

(** A declaration that is not named after a definition of the draft
    itself: one of a definition that the walk makes, or the root. *)
Definition made_by_walk (draft : json) (d : declaration) : bool :=
  negb (existsb (fun key => str_eqb (identifier d) (schema_name key))
          (map fst (own_entries (definitions_of_schema draft)))).

(** The same for a type export. *)
Definition type_made_by_walk (draft : json) (t : str) : bool :=
  negb (existsb (fun key =>
                   str_eqb t (type_export (toPascalCase key) (schema_name key)))
          (map fst (own_entries (definitions_of_schema draft)))).

(** A place where [^] matches under the [m] flag: the start of the
    text, or the place after a line terminator.  [pre] is the text before
    the place. *)
Definition line_start (pre : str) : Prop :=
  pre = [] \/ exists p c, pre = p ++ [c] /\ is_lt c = true.

(** A request header of the method pattern, [token\s*\{], stands in
    [content] after [pre]. *)
Definition method_header (content pre token : str) : Prop :=
  In token method_tokens /\
  exists sep post,
    content = pre ++ token ++ sep ++ LBRACE :: post /\
    forallb is_ws sep = true.

(** A component that [runGen] passes over, or for which
    [generateComponentSchema] returns its two empty lists. *)
Definition yields_nothing {data : Type} (data_truthy data_no_keys : data -> bool)
    (component : str * option data) : Prop :=
  match snd component with
  | None => True
  | Some d => data_truthy d = false \/ data_no_keys d = true
  end.

(** A component for which [generateComponentSchema] goes on to make
    declarations: it is there, not falsy, and not without keys. *)
Definition yields_schemas {data : Type} (data_truthy data_no_keys : data -> bool)
    (component : str * option data) : bool :=
  match snd component with
  | None => false
  | Some d => data_truthy d && negb (data_no_keys d)
  end.

(** The first property of the object [v] is an array whose items refer
    to the definition [name]. *)
Definition refers_first (name : str) (v : json) : bool :=
  match property v (lit "properties") with
  | Some container =>
      match own_entries container with
      | (_, prop) :: _ =>
          is_text (property prop (lit "type")) (lit "array")
          && match property prop (lit "items") with
             | Some item =>
                 match property item (lit "$ref") with
                 | Some (JStr (c :: r)) => str_eqb (ref_name (c :: r)) name
                 | _ => false
                 end
             | None => false
             end
      | [] => false
      end
  | None => false
  end.

(** The first property of the object [v] is a reference to the
    definition [name]: it is no array, no object with properties of its
    own, and its [$ref] holds the name. *)
Definition links_first (name : str) (v : json) : bool :=
  match property v (lit "properties") with
  | Some container =>
      match own_entries container with
      | (_, prop) :: _ =>
          negb (is_text (property prop (lit "type")) (lit "array"))
          && negb (is_text (property prop (lit "type")) (lit "object")
                   && js_truthy (property prop (lit "properties")))
          && match property prop (lit "$ref") with
             | Some (JStr (c :: r)) => str_eqb (ref_name (c :: r)) name
             | _ => false
             end
      | [] => false
      end
  | None => false
  end.

(** A property that the walk of [restructureArrays] passes over: it is
    not [null], its type is neither [array] nor [object], and it holds
    no reference. *)
Definition flat_property (prop : json) : bool :=
  match prop with
  | JNull => false
  | _ =>
      negb (is_text (property prop (lit "type")) (lit "array"))
      && negb (is_text (property prop (lit "type")) (lit "object"))
      && negb (js_truthy (property prop (lit "$ref")))
  end.

(** *** The shape of an element *)











(* ================================================================== *)
(** * Properties *)
(* ================================================================== *)

Lemma str_eqb_eq a b : str_eqb a b = true <-> a = b.
Proof. unfold str_eqb. destruct (list_eq_dec N.eq_dec a b); split; congruence. Qed.

(* ================================================================== *)
(** * Properties of the block extractor *)
(* ================================================================== *)

Lemma index_of_split c s k :
  index_of c s = Some k ->
  exists pre post, s = pre ++ c :: post /\ length pre = k /\ ~ In c pre.
Proof.
  revert k. induction s as [|x t IH]; simpl; intros k H; [discriminate|].
  destruct (N.eqb_spec x c) as [->|Hne].
  - inversion H; subst. exists [], t. simpl. auto.
  - destruct (index_of c t) as [j|] eqn:E; [|discriminate].
    inversion H; subst. destruct (IH j eq_refl) as (pre & post & -> & Hl & Hn).
    exists (x :: pre), post. simpl. repeat split; auto.
    intros [->|Hin]; [congruence|auto].
Qed.

Lemma index_of_None c s : index_of c s = None -> ~ In c s.
Proof.
  induction s as [|x t IH]; simpl; intros H; [tauto|].
  destruct (N.eqb_spec x c); [discriminate|].
  destruct (index_of c t); [discriminate|].
  intros [->|Hin]; [congruence|]. now apply IH.
Qed.

Lemma index_of_app_notin c pre post :
  ~ In c pre -> index_of c (pre ++ c :: post) = Some (length pre).
Proof.
  induction pre as [|x t IH]; simpl; intros Hn.
  - now rewrite N.eqb_refl.
  - destruct (N.eqb_spec x c) as [->|_]; [tauto|].
    rewrite IH; auto.
Qed.

Lemma find_header_Some name s m :
  find_header name s = Some m ->
  m <= length s /\ header_at name (skipn m s) = true /\
  forall k, k < m -> header_at name (skipn k s) = false.
Proof.
  revert m. induction s as [|x t IH]; intros m H.
  - simpl in H. destruct (header_at name []) eqn:E; [|discriminate].
    inversion H; subst. simpl. repeat split; auto; intros; lia.
  - cbn [find_header] in H. destruct (header_at name (x :: t)) eqn:E.
    + inversion H; subst. simpl. repeat split; auto; intros; lia.
    + destruct (find_header name t) as [j|] eqn:F; [|discriminate].
      inversion H; subst. destruct (IH j eq_refl) as (Hl & Hh & Hf).
      simpl. repeat split; auto; try lia.
      intros [|k] Hk; simpl; auto. apply Hf; lia.
Qed.

Lemma find_header_None name s k :
  find_header name s = None -> header_at name (skipn k s) = false.
Proof.
  revert k. induction s as [|x t IH]; intros k H.
  - rewrite skipn_nil. simpl in H. destruct (header_at name []); [discriminate|auto].
  - cbn [find_header] in H. destruct (header_at name (x :: t)) eqn:E; [discriminate|].
    destruct (find_header name t) eqn:F; [discriminate|].
    destruct k; simpl; auto.
Qed.

Lemma find_header_first name s m :
  m <= length s -> header_at name (skipn m s) = true ->
  (forall k, k < m -> header_at name (skipn k s) = false) ->
  find_header name s = Some m.
Proof.
  intros Hl Hh Hf. destruct (find_header name s) as [j|] eqn:E.
  - destruct (find_header_Some _ _ _ E) as (Hj & Hhj & Hfj).
    destruct (Nat.lt_trichotomy j m) as [Hlt|[->|Hgt]]; auto.
    + rewrite (Hf j Hlt) in Hhj. discriminate.
    + rewrite (Hfj m Hgt) in Hh. discriminate.
  - rewrite (find_header_None _ _ m E) in Hh. discriminate.
Qed.

(** A header holds an opening brace. *)
Lemma skip_ws_suffix s : exists w, s = w ++ skip_ws s /\ forallb is_ws w = true.
Proof.
  induction s as [|c t (w & Hw & Hall)]; simpl.
  - exists []. auto.
  - destruct (is_ws c) eqn:E.
    + exists (c :: w). simpl. rewrite E, Hall. split; [congruence|auto].
    + exists []. auto.
Qed.

Lemma strip_prefix_Some p s r : strip_prefix p s = Some r <-> s = p ++ r.
Proof.
  revert s. induction p as [|a p IH]; intros s; simpl.
  - split; congruence.
  - destruct s as [|b s]; [split; discriminate|].
    destruct (N.eqb_spec a b) as [->|Hne].
    + rewrite IH. split; congruence.
    + split; [discriminate|]. intros H; inversion H; congruence.
Qed.

Lemma separator_no_brace sep : is_separator sep -> ~ In LBRACE sep.
Proof.
  intros (w1 & w2 & colon & -> & H1 & H2 & Hc) Hin.
  rewrite !in_app_iff in Hin.
  assert (Hw : forall w, forallb is_ws w = true -> ~ In LBRACE w).
  { intros w Hall Hi. rewrite forallb_forall in Hall. apply Hall in Hi.
    vm_compute in Hi. discriminate. }
  destruct Hin as [Hi|[Hi|Hi]].
  - now apply (Hw w1).
  - destruct Hc as [->| ->]; simpl in Hi; [tauto|].
    destruct Hi as [Hi|[]]. vm_compute in Hi. discriminate.
  - now apply (Hw w2).
Qed.

(** What the pattern [name\s*:?\s*\{] matches at the head of a text. *)
Lemma header_at_true name s :
  header_at name s = true <->
  exists sep rest, s = name ++ sep ++ LBRACE :: rest /\ is_separator sep.
Proof.
  unfold header_at. split.
  - destruct (strip_prefix name s) as [r|] eqn:E; [|discriminate].
    apply strip_prefix_Some in E. subst s.
    destruct (skip_ws_suffix r) as (w1 & Hr & H1).
    destruct (skip_ws_suffix (skip_colon (skip_ws r))) as (w2 & Hr2 & H2).
    destruct (skip_ws (skip_colon (skip_ws r))) as [|c rest] eqn:E2; [discriminate|].
    intros Hc. apply N.eqb_eq in Hc. subst c.
    assert (Hcol : exists colon, skip_ws r = colon ++ skip_colon (skip_ws r) /\
                                 (colon = [] \/ colon = [COLON])).
    { destruct (skip_ws r) as [|d t]; simpl.
      - exists []. auto.
      - destruct (N.eqb_spec d COLON) as [->|_].
        + exists [COLON]. auto.
        + exists []. auto. }
    destruct Hcol as (colon & Hcol & Hc).
    exists (w1 ++ colon ++ w2), rest. split.
    + rewrite Hr at 1. rewrite Hcol at 1. rewrite Hr2 at 1.
      now rewrite <- !app_assoc.
    + exists w1, w2, colon. auto.
  - intros (sep & rest & -> & w1 & w2 & colon & -> & H1 & H2 & Hc).
    assert (Hp : strip_prefix name (name ++ (w1 ++ colon ++ w2) ++ LBRACE :: rest)
                 = Some ((w1 ++ colon ++ w2) ++ LBRACE :: rest))
      by now apply strip_prefix_Some.
    rewrite Hp.
    assert (Hskip : forall w t, forallb is_ws w = true ->
                                skip_ws (w ++ t) = skip_ws t).
    { induction w as [|c w IH]; simpl; intros t Hw; auto.
      apply andb_prop in Hw. destruct Hw as [-> Hw]. auto. }
    rewrite <- !app_assoc. rewrite Hskip by auto.
    assert (Hw2 : skip_ws (w2 ++ LBRACE :: rest) = LBRACE :: rest).
    { rewrite Hskip by auto. reflexivity. }
    destruct Hc as [-> | ->].
    + cbn [app].
      assert (Hsc : skip_colon (skip_ws (LBRACE :: rest)) = LBRACE :: rest)
        by reflexivity.
      rewrite Hskip by auto. rewrite Hsc. reflexivity.
    + cbn [app].
      assert (Hsc : skip_ws (COLON :: w2 ++ LBRACE :: rest)
                    = COLON :: w2 ++ LBRACE :: rest) by reflexivity.
      rewrite Hsc. cbn [skip_colon]. rewrite N.eqb_refl. rewrite Hw2.
      reflexivity.
Qed.

Lemma count_app c a b : count c (a ++ b) = count c a + count c b.
Proof. induction a as [|x a IH]; simpl; [reflexivity|]. rewrite IH. lia. Qed.

Lemma count_notin c s : ~ In c s -> count c s = 0.
Proof.
  induction s as [|x t IH]; simpl; intros H; [reflexivity|].
  destruct (N.eqb_spec x c) as [->|_]; [tauto|]. rewrite IH; tauto.
Qed.

Lemma braces_differ : LBRACE <> RBRACE.
Proof. discriminate. Qed.

Lemma depth_ok_cons d d' c body :
  closes [c] + d' = opens [c] + d ->
  depth_ok d' body -> depth_ok d (c :: body).
Proof.
  unfold depth_ok, opens, closes. cbn [count]. intros Hc [Hb Hp]. split.
  - lia.
  - intros [|k]; cbn [firstn count]; [lia|]. specialize (Hp k). lia.
Qed.

Lemma never_zero_cons d d' c rest :
  closes [c] + d' = opens [c] + d ->
  (forall k, closes (firstn k rest) <= opens (firstn k rest) + d') ->
  forall k, closes (firstn k (c :: rest)) <= opens (firstn k (c :: rest)) + d.
Proof.
  unfold opens, closes. cbn [count]. intros Hc Hp [|k]; cbn [firstn count]; [lia|].
  specialize (Hp k). lia.
Qed.

Ltac count_braces :=
  unfold opens, closes; cbn [count];
  repeat match goal with
         | |- context [(?a =? ?b)%N] =>
             destruct (N.eqb_spec a b); try congruence; try discriminate
         end;
  simpl; lia.

(** What the depth-counting loop does from depth [S d]: either it stops at
    the closing brace that brings the depth to zero, having read a text in
    which the depth stayed positive, or it reads the whole text without
    the depth reaching zero. *)
Lemma scan_braces_spec rest : forall d i bc j,
  scan_braces rest (S d) i = (bc, j) ->
  (bc = 0 /\ exists body tail,
      rest = body ++ RBRACE :: tail /\ j = i + length body + 1 /\
      depth_ok d body) \/
  (bc <> 0 /\ j = i + length rest /\
   forall k, closes (firstn k rest) <= opens (firstn k rest) + d).
Proof.
  induction rest as [|c t IH]; intros d i bc j H.
  - simpl in H. inversion H; subst. right. split; [lia|]. split; [simpl; lia|].
    intros k. rewrite firstn_nil. unfold opens, closes. simpl. lia.
  - assert (Hstep : exists d',
               (d = 0 /\ c = RBRACE /\ (bc, j) = (0, S i)) \/
               (closes [c] + d' = opens [c] + d /\
                scan_braces t (S d') (S i) = (bc, j))).
    { cbn [scan_braces] in H.
      destruct (N.eqb_spec c LBRACE) as [->|HnL].
      - exists (S d). right. split; [count_braces|exact H].
      - destruct (N.eqb_spec c RBRACE) as [->|HnR].
        + destruct d as [|d].
          * exists 0. left.
            assert (E : scan_braces t 0 (S i) = (0, S i)) by (destruct t; reflexivity).
            rewrite E in H. auto.
          * exists d. right. split; [count_braces|exact H].
        + exists d. right. split; [count_braces|exact H]. }
    destruct Hstep as (d' & [(-> & -> & E)|(Hc & E)]).
    + inversion E; subst. left. split; auto. exists [], t.
      split; [reflexivity|]. split; [simpl; lia|].
      split; [reflexivity|]. intros k. rewrite firstn_nil. unfold opens, closes. simpl. lia.
    + destruct (IH _ _ _ _ E) as [(-> & body & tail & -> & -> & Hb)
                                 |(Hbc & -> & Hp)].
      * left. split; auto. exists (c :: body), tail.
        split; [reflexivity|]. split; [simpl; lia|].
        eapply depth_ok_cons; eauto.
      * right. split; auto. split; [simpl; lia|].
        eapply never_zero_cons; eauto.
Qed.

(** A text whose depth never reaches zero has no balanced block at its
    head. *)
Lemma never_closed_no_block tail :
  (forall k, closes (firstn k tail) <= opens (firstn k tail) + 0) ->
  forall body rest, tail = body ++ RBRACE :: rest -> ~ balanced body.
Proof.
  intros Hp body rest -> [Hb _].
  specialize (Hp (length body + 1)).
  rewrite firstn_app in Hp.
  replace (length body + 1 - length body) with 1 in Hp by lia.
  rewrite firstn_all2 in Hp by lia. cbn [firstn] in Hp.
  unfold opens, closes in *. rewrite !count_app in Hp. simpl in Hp. lia.
Qed.

Lemma header_at_matches name content m :
  m <= length content ->
  (header_at name (skipn m content) = true <-> header_matches name content m).
Proof.
  intros Hm. unfold header_matches. rewrite header_at_true. tauto.
Qed.

Lemma header_at_beyond name content m :
  length content < m -> header_at name (skipn m content) = false.
Proof.
  intros H. rewrite skipn_all2 by lia.
  destruct (header_at name []) eqn:E; auto.
  apply header_at_true in E. destruct E as (sep & rest & E & _).
  destruct name; destruct sep; discriminate.
Qed.

Lemma find_header_first_header name content m :
  find_header name content = Some m <-> first_header name content m.
Proof.
  split.
  - intros H. destruct (find_header_Some _ _ _ H) as (Hl & Hh & Hf).
    split; [now apply header_at_matches|].
    intros k Hk Hm. apply header_at_matches in Hm; [|lia].
    rewrite Hf in Hm by auto. discriminate.
  - intros [Hm Hf]. apply find_header_first.
    + apply Hm.
    + apply header_at_matches; [apply Hm|auto].
    + intros k Hk. destruct (header_at name (skipn k content)) eqn:E; auto.
      exfalso. apply (Hf k Hk). apply header_at_matches; auto.
      destruct Hm. lia.
Qed.

Lemma find_header_no_match name content :
  find_header name content = None <-> forall m, ~ header_matches name content m.
Proof.
  split.
  - intros H m Hm. pose proof Hm as [Hl _].
    apply header_at_matches in Hm; auto.
    rewrite (find_header_None _ _ m H) in Hm. discriminate.
  - intros H. destruct (find_header name content) as [m|] eqn:E; auto.
    exfalso. apply (H m). now apply find_header_first_header.
Qed.

(** [indexOf('{', m)] after a header match at [m]: the text splits at the
    first opening brace at or after [m]. *)
Lemma indexOf_split c s from ob :
  indexOf c s from = Some ob ->
  exists pre tail, s = pre ++ c :: tail /\ length pre = ob /\ from <= ob /\
                   ~ In c (skipn from pre).
Proof.
  unfold indexOf. intros H.
  destruct (index_of c (skipn from s)) as [k|] eqn:E; [|discriminate].
  inversion H; subst. clear H.
  destruct (index_of_split _ _ _ E) as (p & post & Hs & Hl & Hn).
  assert (Hfrom : from <= length s).
  { destruct (Nat.le_gt_cases from (length s)); auto.
    rewrite skipn_all2 in Hs by lia. destruct p; discriminate. }
  exists (firstn from s ++ p), post.
  repeat split.
  - rewrite <- app_assoc, <- Hs. now rewrite firstn_skipn.
  - rewrite length_app, firstn_length_le by lia. lia.
  - lia.
  - rewrite skipn_app, firstn_length_le by lia.
    rewrite Nat.sub_diag. simpl.
    rewrite skipn_all2 by (rewrite firstn_length_le; lia). simpl. auto.
Qed.

Lemma header_has_brace name content m :
  header_matches name content m -> In LBRACE (skipn m content).
Proof.
  intros (_ & sep & rest & -> & _). rewrite !in_app_iff. right. right.
  now left.
Qed.

Lemma indexOf_None c s from : indexOf c s from = None -> ~ In c (skipn from s).
Proof.
  unfold indexOf. destruct (index_of c (skipn from s)) eqn:E; [discriminate|].
  intros _. now apply index_of_None.
Qed.

Lemma substring_in_range (s : str) a b :
  a <= b -> b <= length s -> substring s a b = firstn (b - a) (skipn a s).
Proof.
  intros Hab Hb. unfold substring.
  replace (Nat.min a (length s)) with a by lia.
  replace (Nat.min b (length s)) with b by lia.
  replace (Nat.max a b) with b by lia.
  replace (Nat.min a b) with a by lia. reflexivity.
Qed.

Lemma substring_middle (pre mid post : str) :
  substring (pre ++ mid ++ post) (length pre) (length pre + length mid) = mid.
Proof.
  rewrite substring_in_range by (rewrite ?length_app; lia).
  rewrite skipn_app, Nat.sub_diag, skipn_all. simpl.
  replace (length pre + length mid - length pre) with (length mid) by lia.
  rewrite firstn_app, Nat.sub_diag, firstn_all. simpl. apply app_nil_r.
Qed.

Lemma substring_prefix (s : str) m : m <= length s -> substring s 0 m = firstn m s.
Proof.
  intros H. rewrite substring_in_range by lia. now rewrite Nat.sub_0_r.
Qed.

Lemma substring_suffix (s : str) i :
  i <= length s -> substring s i (length s) = skipn i s.
Proof.
  intros H. rewrite substring_in_range by lia.
  apply firstn_all2. rewrite length_skipn. lia.
Qed.

Lemma first_split_unique (c : N) (a b x y : str) :
  a ++ c :: x = b ++ c :: y -> ~ In c a -> ~ In c b -> a = b /\ x = y.
Proof.
  revert b. induction a as [|u a IH]; intros [|v b] H Ha Hb; simpl in *.
  - inversion H. auto.
  - inversion H; subst. tauto.
  - inversion H; subst. tauto.
  - inversion H; subst. destruct (IH b H2) as [-> ->]; auto.
Qed.

Lemma skipn_after_brace (pre tail : str) c :
  skipn (length pre + 1) (pre ++ c :: tail) = tail.
Proof.
  rewrite skipn_app. rewrite skipn_all2 by lia.
  replace (length pre + 1 - length pre) with 1 by lia. reflexivity.
Qed.

Lemma scan_block (content name : str) : block_scan content name.
Proof.
  destruct (find_header name content) as [m|] eqn:Hf; [|now apply NoHeader].
  destruct (indexOf LBRACE content m) as [ob|] eqn:Hi.
  - destruct (scan_braces (skipn (ob + 1) content) 1 (ob + 1)) as [bc i] eqn:Hs.
    destruct (indexOf_split _ _ _ _ Hi) as (pre & tail & Hc & Hl & Hm & Hn).
    subst ob. pose proof Hs as Hs'. rewrite Hc in Hs'.
    rewrite skipn_after_brace in Hs'.
    destruct (scan_braces_spec _ _ _ _ _ Hs')
      as [(-> & body & rest & -> & -> & Hb)|(Hbc & _ & Hp)].
    + apply (Cut content name m pre body rest); auto.
    + apply (Open content name m pre tail bc i); auto.
      now apply never_closed_no_block.
  - exfalso. apply indexOf_None in Hi. apply Hi.
    apply (header_has_brace name). now apply find_header_first_header.
Qed.

Lemma extract_Cut content name m pre body rest :
  find_header name content = Some m ->
  indexOf LBRACE content m = Some (length pre) ->
  content = pre ++ LBRACE :: body ++ RBRACE :: rest ->
  scan_braces (skipn (length pre + 1) content) 1 (length pre + 1)
  = (0, length pre + 1 + length body + 1) ->
  extractBlockContent content name = Some body.
Proof.
  intros Hf Hi Hc Hs. unfold extractBlockContent. rewrite Hf, Hi, Hs.
  cbn [Nat.eqb]. f_equal. rewrite Hc.
  replace (length pre + 1 + length body + 1 - 1)
    with (length (pre ++ [LBRACE]) + length body)
    by (rewrite length_app; simpl; lia).
  replace (length pre + 1) with (length (pre ++ [LBRACE]))
    by (rewrite length_app; simpl; lia).
  replace (pre ++ LBRACE :: body ++ RBRACE :: rest)
    with ((pre ++ [LBRACE]) ++ body ++ RBRACE :: rest)
    by (rewrite <- app_assoc; reflexivity).
  apply substring_middle.
Qed.

Lemma strip_step_Cut content name m pre body rest :
  find_header name content = Some m ->
  indexOf LBRACE content m = Some (length pre) ->
  content = pre ++ LBRACE :: body ++ RBRACE :: rest ->
  m <= length pre ->
  scan_braces (skipn (length pre + 1) content) 1 (length pre + 1)
  = (0, length pre + 1 + length body + 1) ->
  strip_step content name = Some (firstn m pre ++ rest).
Proof.
  intros Hf Hi Hc Hm Hs. unfold strip_step. rewrite Hf, Hi, Hs.
  cbn [Nat.eqb]. f_equal.
  assert (Hlen : length content = length pre + 1 + length body + 1 + length rest).
  { rewrite Hc. rewrite !length_app. simpl. rewrite length_app. simpl. lia. }
  rewrite substring_prefix by lia. rewrite substring_suffix by lia.
  f_equal.
  - rewrite Hc. rewrite firstn_app.
    replace (m - length pre) with 0 by lia. simpl. apply app_nil_r.
  - rewrite Hc.
    replace (pre ++ LBRACE :: body ++ RBRACE :: rest)
      with ((pre ++ LBRACE :: body ++ [RBRACE]) ++ rest)
      by (rewrite <- !app_assoc; simpl; rewrite <- app_assoc; reflexivity).
    replace (length pre + 1 + length body + 1)
      with (length (pre ++ LBRACE :: body ++ [RBRACE]))
      by (rewrite !length_app; simpl; rewrite length_app; simpl; lia).
    rewrite skipn_app, Nat.sub_diag, skipn_all. reflexivity.
Qed.

Lemma extract_Open content name m ob bc i :
  find_header name content = Some m ->
  indexOf LBRACE content m = Some ob ->
  scan_braces (skipn (ob + 1) content) 1 (ob + 1) = (bc, i) -> bc <> 0 ->
  extractBlockContent content name = None /\ strip_step content name = None.
Proof.
  intros Hf Hi Hs Hbc. unfold extractBlockContent, strip_step.
  rewrite Hf, Hi, Hs. destruct bc; [congruence|]. auto.
Qed.

(** A header of a name without an opening brace ends in the brace that
    [indexOf] finds. *)
Lemma header_brace_is_own name content m pre tail :
  header_matches name content m -> content = pre ++ LBRACE :: tail ->
  m <= length pre -> ~ In LBRACE (skipn m pre) -> ~ In LBRACE name ->
  exists sep, is_separator sep /\ pre = firstn m content ++ name ++ sep.
Proof.
  intros (_ & sep & rest & Hsk & Hsep) Hc Hm Hn Hname.
  exists sep. split; auto.
  assert (Hs : skipn m content = skipn m pre ++ LBRACE :: tail).
  { rewrite Hc, skipn_app. replace (m - length pre) with 0 by lia.
    reflexivity. }
  rewrite Hs in Hsk.
  replace (name ++ sep ++ LBRACE :: rest) with ((name ++ sep) ++ LBRACE :: rest)
    in Hsk by now rewrite <- app_assoc.
  apply first_split_unique in Hsk; auto.
  - destruct Hsk as [Hsk _]. rewrite <- Hsk.
    rewrite Hc, firstn_app. replace (m - length pre) with 0 by lia.
    simpl. rewrite app_nil_r. symmetry. apply firstn_skipn.
  - rewrite in_app_iff. intros [H|H]; [tauto|].
    now apply (separator_no_brace sep).
Qed.

Lemma first_header_unique name content m m' :
  first_header name content m -> first_header name content m' -> m = m'.
Proof.
  intros [Hm Hf] [Hm' Hf'].
  destruct (Nat.lt_trichotomy m m') as [H|[H|H]]; auto.
  - exfalso. now apply (Hf' m).
  - exfalso. now apply (Hf m').
Qed.

Lemma opening_unique (content : str) m pre tail pre' tail' :
  content = pre ++ LBRACE :: tail -> content = pre' ++ LBRACE :: tail' ->
  m <= length pre -> m <= length pre' ->
  ~ In LBRACE (skipn m pre) -> ~ In LBRACE (skipn m pre') ->
  pre = pre' /\ tail = tail'.
Proof.
  intros Hc Hc' Hm Hm' Hn Hn'.
  assert (Hs : skipn m pre ++ LBRACE :: tail = skipn m pre' ++ LBRACE :: tail').
  { transitivity (skipn m content).
    - rewrite Hc, skipn_app. replace (m - length pre) with 0 by lia. reflexivity.
    - rewrite Hc', skipn_app. replace (m - length pre') with 0 by lia.
      reflexivity. }
  apply first_split_unique in Hs; auto. destruct Hs as [Hs Ht]. split; auto.
  assert (Hf : firstn m pre = firstn m pre').
  { transitivity (firstn m content).
    - rewrite Hc, firstn_app. replace (m - length pre) with 0 by lia.
      simpl. now rewrite app_nil_r.
    - rewrite Hc', firstn_app. replace (m - length pre') with 0 by lia.
      simpl. now rewrite app_nil_r. }
  rewrite <- (firstn_skipn m pre), <- (firstn_skipn m pre'). congruence.
Qed.

(** ** The block extractor *)

(** C5.  [extractBlockContent] answers with the text strictly between the
    opening brace of the first block header (the first opening brace at
    or after the start of the leftmost match of the header pattern; for a
    name without a brace of its own, the brace that ends the header) and
    the closing brace that balances it, nested braces counted by depth;
    it answers with nothing when no header matches, or when no closing
    brace balances the opening one. *)
Theorem extractBlockContent_spec (content name : str) :
  match extractBlockContent content name with
  | Some body =>
      exists m pre rest,
        first_header name content m /\
        content = pre ++ LBRACE :: body ++ RBRACE :: rest /\
        m <= length pre /\ ~ In LBRACE (skipn m pre) /\
        balanced body /\
        (~ In LBRACE name ->
         exists sep, is_separator sep /\ pre = firstn m content ++ name ++ sep)
  | None =>
      (forall m, ~ header_matches name content m) \/
      (exists m pre tail,
          first_header name content m /\
          content = pre ++ LBRACE :: tail /\
          m <= length pre /\ ~ In LBRACE (skipn m pre) /\
          forall body rest, tail = body ++ RBRACE :: rest -> ~ balanced body)
  end.
Proof.
  destruct (scan_block content name)
    as [Hf|m pre body rest Hf Hi Hc Hm Hn Hb Hs|m pre tail bc i Hf Hi Hc Hm Hn Hb Hs Hbc].
  - unfold extractBlockContent. rewrite Hf. left.
    now apply find_header_no_match.
  - rewrite (extract_Cut _ _ _ _ _ _ Hf Hi Hc Hs).
    apply find_header_first_header in Hf.
    exists m, pre, rest. repeat (split; [assumption|]).
    apply (header_brace_is_own name content m pre (body ++ RBRACE :: rest));
      auto. apply Hf.
  - destruct (extract_Open _ _ _ _ _ _ Hf Hi Hs Hbc) as [-> _].
    right. exists m, pre, tail. apply find_header_first_header in Hf. auto.
Qed.

(** ** Removing all blocks of a name *)

Lemma strip_step_None_extract content name :
  strip_step content name = None <-> extractBlockContent content name = None.
Proof.
  destruct (scan_block content name)
    as [Hf|m pre body rest Hf Hi Hc Hm Hn Hb Hs|m pre tail bc i Hf Hi Hc Hm Hn Hb Hs Hbc].
  - unfold strip_step, extractBlockContent. rewrite Hf. tauto.
  - rewrite (extract_Cut _ _ _ _ _ _ Hf Hi Hc Hs).
    rewrite (strip_step_Cut _ _ _ _ _ _ Hf Hi Hc Hm Hs). split; discriminate.
  - destruct (extract_Open _ _ _ _ _ _ Hf Hi Hs Hbc) as [-> ->]. tauto.
Qed.

(** One turn of the loop that cuts: the text from the start of the header
    to the closing brace of its block is gone, and nothing else. *)
Lemma strip_step_Some content name c' :
  strip_step content name = Some c' ->
  exists m pre body rest,
    first_header name content m /\
    content = pre ++ LBRACE :: body ++ RBRACE :: rest /\
    m <= length pre /\ ~ In LBRACE (skipn m pre) /\ balanced body /\
    c' = firstn m pre ++ rest /\
    extractBlockContent content name = Some body.
Proof.
  intros H.
  destruct (scan_block content name)
    as [Hf|m pre body rest Hf Hi Hc Hm Hn Hb Hs|m pre tail bc i Hf Hi Hc Hm Hn Hb Hs Hbc].
  - unfold strip_step in H. rewrite Hf in H. discriminate.
  - rewrite (strip_step_Cut _ _ _ _ _ _ Hf Hi Hc Hm Hs) in H.
    inversion H; subst c'.
    exists m, pre, body, rest.
    pose proof (extract_Cut _ _ _ _ _ _ Hf Hi Hc Hs).
    apply find_header_first_header in Hf. auto 10.
  - destruct (extract_Open _ _ _ _ _ _ Hf Hi Hs Hbc) as [_ E].
    rewrite E in H. discriminate.
Qed.

Lemma strip_step_shorter content name c' :
  strip_step content name = Some c' -> length c' + 2 <= length content.
Proof.
  intros H. destruct (strip_step_Some _ _ _ H)
    as (m & pre & body & rest & _ & Hc & Hm & _ & _ & -> & _).
  rewrite Hc. rewrite !length_app, firstn_length_le by lia.
  simpl. rewrite length_app. simpl. lia.
Qed.

Lemma strip_loop_exits fuel : forall content name,
  length content <= fuel ->
  strip_step (strip_loop fuel content name) name = None.
Proof.
  induction fuel as [|f IH]; intros content name Hl.
  - cbn [strip_loop]. destruct (strip_step content name) as [c'|] eqn:E; auto.
    apply strip_step_shorter in E. lia.
  - cbn [strip_loop]. destruct (strip_step content name) as [c'|] eqn:E; auto.
    apply IH. apply strip_step_shorter in E. lia.
Qed.

Lemma strip_loop_fixed fuel content name :
  strip_step content name = None -> strip_loop fuel content name = content.
Proof. destruct fuel; simpl; intros H; [|rewrite H]; reflexivity. Qed.

Lemma strip_loop_enough fuel : forall fuel' content name,
  length content <= fuel -> length content <= fuel' ->
  strip_loop fuel content name = strip_loop fuel' content name.
Proof.
  induction fuel as [|f IH]; intros fuel' content name Hl Hl'.
  - assert (E : strip_step content name = None).
    { destruct (strip_step content name) eqn:E; auto.
      apply strip_step_shorter in E. lia. }
    simpl. symmetry. now apply strip_loop_fixed.
  - destruct fuel' as [|f'].
    + assert (E : strip_step content name = None).
      { destruct (strip_step content name) eqn:E; auto.
        apply strip_step_shorter in E. lia. }
      now apply strip_loop_fixed.
    + cbn [strip_loop]. destruct (strip_step content name) as [c'|] eqn:E; auto.
      apply strip_step_shorter in E. apply IH; lia.
Qed.

(** A block that [extractBlockContent] returns is cut out of the text
    after the first header. *)
Lemma extract_Some_cut content name body :
  extractBlockContent content name = Some body ->
  exists m pre rest,
    first_header name content m /\
    content = pre ++ LBRACE :: body ++ RBRACE :: rest /\
    m <= length pre /\ ~ In LBRACE (skipn m pre) /\ balanced body.
Proof.
  intros E.
  destruct (scan_block content name)
    as [Hf|m pre body' rest Hf Hi Hc Hm Hn Hb Hs
       |m pre tail bc i Hf Hi Hc Hm Hn Hb Hs Hbc].
  - unfold extractBlockContent in E. rewrite Hf in E. discriminate.
  - rewrite (extract_Cut _ _ _ _ _ _ Hf Hi Hc Hs) in E. injection E as <-.
    apply find_header_first_header in Hf. exists m, pre, rest. auto.
  - destruct (extract_Open _ _ _ _ _ _ Hf Hi Hs Hbc) as [E' _]. congruence.
Qed.

(** The loop of [stripBlocks] stops when there is no header, or when the
    braces after the first header never balance. *)
Lemma strip_step_None_cases c name :
  strip_step c name = None <->
  (forall m, ~ header_matches name c m) \/
  (exists m pre tail,
      first_header name c m /\ c = pre ++ LBRACE :: tail /\
      m <= length pre /\ ~ In LBRACE (skipn m pre) /\
      forall body rest, tail = body ++ RBRACE :: rest -> ~ balanced body).
Proof.
  rewrite strip_step_None_extract.
  destruct (extractBlockContent c name) as [body|] eqn:E.
  - split; [discriminate|]. intros Hr. exfalso. revert Hr.
    destruct (extract_Some_cut _ _ _ E)
      as (m & pre & rest & Hf & Hc & Hm & Hn & Hb).
    intros [Hno|(m' & pre' & tail' & Hf' & Hc' & Hm' & Hn' & Hno)].
    + apply (Hno m), Hf.
    + assert (m' = m) by now apply (first_header_unique name c). subst m'.
      destruct (opening_unique _ _ _ _ _ _ Hc Hc' Hm Hm' Hn Hn') as [-> <-].
      now apply (Hno body rest).
  - split; [intros _|reflexivity].
    destruct (scan_block c name)
      as [Hf|m pre body rest Hf Hi Hc Hm Hn Hb Hs
         |m pre tail bc i Hf Hi Hc Hm Hn Hb Hs Hbc].
    + left. now apply find_header_no_match.
    + rewrite (extract_Cut _ _ _ _ _ _ Hf Hi Hc Hs) in E. discriminate.
    + right. exists m, pre, tail. apply find_header_first_header in Hf. auto.
Qed.

(** C10.  [stripBlocks] is total.  A turn of its loop that finds a
    balanced block cuts the text from the start of the header through the
    closing brace, which makes the text at least two code units shorter;
    a turn that finds no header, or a header whose block never closes,
    leaves the loop (a header always holds an opening brace, so the
    second [break] is never taken).  The loop therefore reaches a [break]
    within one turn per code unit, and any larger bound gives the same
    text. *)
Theorem stripBlocks_total (content name : str) :
  (forall c c', strip_step c name = Some c' ->
     length c' + 2 <= length c /\
     exists m pre body rest,
       first_header name c m /\ c = pre ++ LBRACE :: body ++ RBRACE :: rest /\
       m <= length pre /\ balanced body /\ c' = firstn m pre ++ rest) /\
  (forall c, strip_step c name = None <->
     (forall m, ~ header_matches name c m) \/
     (exists m pre tail,
         first_header name c m /\ c = pre ++ LBRACE :: tail /\
         m <= length pre /\ ~ In LBRACE (skipn m pre) /\
         forall body rest, tail = body ++ RBRACE :: rest -> ~ balanced body)) /\
  strip_step (stripBlocks content name) name = None /\
  (forall fuel, length content <= fuel ->
     strip_loop fuel content name = stripBlocks content name).
Proof.
  split; [|split; [|split]].
  - intros c c' H. split; [now apply (strip_step_shorter c name)|].
    destruct (strip_step_Some _ _ _ H)
      as (m & pre & body & rest & Hf & Hc & Hm & _ & Hb & Hc' & _).
    exists m, pre, body, rest. auto.
  - intros c. apply strip_step_None_cases.
  - unfold stripBlocks. now apply strip_loop_exits.
  - intros fuel Hl. unfold stripBlocks. now apply strip_loop_enough.
Qed.

(** ** Key-value blocks *)

Lemma str_eqb_refl a : str_eqb a a = true.
Proof. now apply str_eqb_eq. Qed.

Lemma str_eqb_neq a b : a <> b -> str_eqb a b = false.
Proof.
  intros H. destruct (str_eqb a b) eqn:E; auto. apply str_eqb_eq in E. tauto.
Qed.

Lemma str_eqb_false a b : str_eqb a b = false -> a <> b.
Proof. intros H ->. rewrite str_eqb_refl in H. discriminate. Qed.

Lemma split_lines_aux_join s : forall cur,
  join_lines (split_lines_aux s cur) = rev cur ++ s /\
  split_lines_aux s cur <> [] /\
  (~ In NL cur -> forall l, In l (split_lines_aux s cur) -> ~ In NL l).
Proof.
  induction s as [|c t IH]; intros cur; simpl.
  - rewrite app_nil_r. split; [reflexivity|]. split; [discriminate|].
    intros Hn l [<-|[]]. now rewrite <- in_rev.
  - destruct (N.eqb_spec c NL) as [->|Hne].
    + destruct (IH []) as (Hj & Hne & Hnl). split; [|split].
      * cbn [join_lines]. destruct (split_lines_aux t []) eqn:E; [congruence|].
        rewrite Hj. reflexivity.
      * discriminate.
      * intros Hn l [<-|Hin]; [now rewrite <- in_rev|]. apply Hnl; auto.
    + destruct (IH (c :: cur)) as (Hj & Hne' & Hnl). split; [|split]; auto.
      * rewrite Hj. simpl. now rewrite <- app_assoc.
      * intros Hn. apply Hnl. simpl. intros [E|Hin]; [congruence|tauto].
Qed.

(** [split('\n')] cuts at every line feed and nowhere else. *)
Lemma split_lines_join s :
  join_lines (split_lines s) = s /\
  forall l, In l (split_lines s) -> ~ In NL l.
Proof.
  unfold split_lines. destruct (split_lines_aux_join s []) as (Hj & _ & Hn).
  split; auto.
Qed.

Section KeyValue.

Variable num : Type.
Variable Number : str -> num.
Variable isNaN : num -> bool.

Local Abbreviation coerce := (coerce Number isNaN).
Local Abbreviation kv_step := (kv_step Number isNaN).
Local Abbreviation parseKvContent := (parseKvContent Number isNaN).

Lemma obj_lookup_store (o : kv_object num) k v k' :
  obj_lookup (obj_store o k v) k' = if str_eqb k k' then Some v else obj_lookup o k'.
Proof.
  induction o as [|[k0 v0] t IH]; simpl.
  - reflexivity.
  - destruct (str_eqb k0 k) eqn:E; simpl.
    + apply str_eqb_eq in E. subst k0. destruct (str_eqb k k'); reflexivity.
    + rewrite IH. destruct (str_eqb k0 k') eqn:E'; auto.
      apply str_eqb_eq in E'. subst k0. apply str_eqb_false in E.
      rewrite str_eqb_neq by congruence. reflexivity.
Qed.

Lemma obj_store_nonempty (o : kv_object num) k v : obj_store o k v <> [].
Proof. destruct o as [|[k0 v0] t]; simpl; [|destruct (str_eqb k0 k)]; discriminate. Qed.

Lemma obj_lookup_assign (o : kv_object num) k v k' :
  obj_lookup (obj_assign o k v) k' =
  if str_eqb k k' && negb (str_eqb k (lit "__proto__")) then Some v
  else obj_lookup o k'.
Proof.
  unfold obj_assign. destruct (str_eqb k (lit "__proto__")) eqn:E.
  - now rewrite andb_false_r.
  - rewrite obj_lookup_store, andb_true_r. reflexivity.
Qed.

Lemma kv_line_usable line key value :
  kv_line line = Some (key, value) <-> usable_line line key value.
Proof.
  unfold kv_line, usable_line. split.
  - destruct (trim line) as [|c t] eqn:Et; [discriminate|].
    destruct (startsWith (c :: t) (lit "//")) eqn:E1; [discriminate|].
    destruct (startsWith (c :: t) (lit "#")) eqn:E2; [discriminate|].
    cbn [orb]. destruct (index_of COLON (c :: t)) as [ci|] eqn:Ei; [|discriminate].
    intros H. inversion H; subst. clear H.
    destruct (index_of_split _ _ _ Ei) as (k0 & v0 & Hs & <- & Hn).
    exists k0, v0. rewrite Hs. repeat split; auto; try (now rewrite <- Hs).
    + rewrite substring_prefix by (rewrite length_app; lia).
      rewrite firstn_app, Nat.sub_diag, firstn_all. simpl. now rewrite app_nil_r.
    + change (S (length t)) with (length (c :: t)). rewrite Hs.
      rewrite substring_suffix by (rewrite length_app; simpl; lia).
      replace (k0 ++ COLON :: v0) with ((k0 ++ [COLON]) ++ v0)
        by now rewrite <- app_assoc.
      replace (length k0 + 1) with (length (k0 ++ [COLON]))
        by (rewrite length_app; simpl; lia).
      now rewrite skipn_app, Nat.sub_diag, skipn_all.
  - intros (k0 & v0 & Ht & Hn & E1 & E2 & -> & ->).
    rewrite E1, E2. cbn [orb]. rewrite Ht.
    destruct (k0 ++ COLON :: v0) as [|c t] eqn:E; [destruct k0; discriminate|].
    rewrite <- E. rewrite index_of_app_notin by auto.
    f_equal. f_equal.
    + rewrite substring_prefix by (rewrite length_app; lia).
      rewrite firstn_app, Nat.sub_diag, firstn_all. simpl. now rewrite app_nil_r.
    + rewrite substring_suffix by (rewrite length_app; simpl; lia).
      replace (k0 ++ COLON :: v0) with ((k0 ++ [COLON]) ++ v0)
        by now rewrite <- app_assoc.
      replace (length k0 + 1) with (length (k0 ++ [COLON]))
        by (rewrite length_app; simpl; lia).
      now rewrite skipn_app, Nat.sub_diag, skipn_all.
Qed.

(** What the loop has stored under [k] after [lines]: the value of the
    last line that assigns [k], else what was stored before. *)
Lemma fold_kv_lookup lines : forall (acc : kv_object num) k v,
  obj_lookup (fold_left kv_step lines acc) k = Some v <->
  (exists l1 line l2 value,
      lines = l1 ++ line :: l2 /\ usable_line line k value /\
      k <> lit "__proto__" /\ v = coerce value /\
      forall line' value', In line' l2 -> ~ usable_line line' k value') \/
  (obj_lookup acc k = Some v /\
   (k = lit "__proto__" \/
    forall line value, In line lines -> ~ usable_line line k value)).
Proof.
  induction lines as [|line lines IH] using rev_ind; intros acc k v.
  - simpl. split.
    + intros H. right. split; [exact H|]. right. intros ? ? [].
    + intros [(l1 & line & l2 & value & H & _)|[H _]]; auto.
      destruct l1; discriminate.
  - rewrite fold_left_app. cbn [fold_left]. unfold kv_step at 1.
    destruct (kv_line line) as [[key value]|] eqn:El.
    + rewrite obj_lookup_assign.
      destruct (str_eqb key k) eqn:Ek.
      * apply str_eqb_eq in Ek. subst key.
        destruct (str_eqb k (lit "__proto__")) eqn:Ep; cbn [andb negb].
        -- apply str_eqb_eq in Ep. rewrite IH. split.
           ++ intros [(l1 & ln & l2 & vl & _ & _ & Hp & _)|[H _]]; [tauto|].
              right. auto.
           ++ intros [(l1 & ln & l2 & vl & _ & _ & Hp & _)|[H _]]; [tauto|].
              right. auto.
        -- apply str_eqb_false in Ep. apply kv_line_usable in El. split.
           ++ intros H. inversion H; subst. left.
              exists lines, line, [], value. repeat split; auto.
           ++ intros [(l1 & ln & l2 & vl & Hl & Hu & _ & -> & Hlast)|[_ [Hp|Hno]]].
              ** destruct l2 as [|x l2 _] using rev_ind.
                 --- apply app_inj_tail in Hl. destruct Hl as [_ <-].
                     apply kv_line_usable in El, Hu. congruence.
                 --- exfalso. rewrite app_comm_cons, app_assoc in Hl.
                     apply app_inj_tail in Hl. destruct Hl as [_ <-].
                     apply (Hlast line value); auto.
                     rewrite in_app_iff. right. now left.
              ** tauto.
              ** exfalso. apply (Hno line value); auto.
                 rewrite in_app_iff. right. now left.
      * cbn [andb]. rewrite IH. apply str_eqb_false in Ek.
        assert (Hnot : forall value', ~ usable_line line k value').
        { intros value' Hu. apply kv_line_usable in Hu. congruence. }
        split.
        -- intros [(l1 & ln & l2 & vl & -> & Hu & Hp & -> & Hlast)|[H [Hp|Hno]]].
           ++ left. exists l1, ln, (l2 ++ [line]), vl.
              rewrite <- app_assoc. repeat split; auto.
              intros line' value'. rewrite in_app_iff.
              intros [Hin|[<-|[]]]; auto.
           ++ right. auto.
           ++ right. split; auto. right. intros ln vl. rewrite in_app_iff.
              intros [Hin|[<-|[]]]; auto.
        -- intros [(l1 & ln & l2 & vl & Hl & Hu & Hp & -> & Hlast)|[H [Hp|Hno]]].
           ++ destruct l2 as [|x l2 _] using rev_ind.
              ** apply app_inj_tail in Hl. destruct Hl as [_ <-].
                 exfalso. now apply (Hnot vl).
              ** rewrite app_comm_cons, app_assoc in Hl.
                 apply app_inj_tail in Hl. destruct Hl as [-> <-].
                 left. exists l1, ln, l2, vl. repeat split; auto.
                 intros line' value' Hin. apply Hlast.
                 rewrite in_app_iff. now left.
           ++ right. auto.
           ++ right. split; auto. right. intros ln vl Hin.
              apply Hno. rewrite in_app_iff. now left.
    + rewrite IH.
      assert (Hnot : forall value', ~ usable_line line k value').
      { intros value' Hu. apply kv_line_usable in Hu. congruence. }
      split.
      * intros [(l1 & ln & l2 & vl & -> & Hu & Hp & -> & Hlast)|[H [Hp|Hno]]].
        -- left. exists l1, ln, (l2 ++ [line]), vl.
           rewrite <- app_assoc. repeat split; auto.
           intros line' value'. rewrite in_app_iff.
           intros [Hin|[<-|[]]]; auto.
        -- right. auto.
        -- right. split; auto. right. intros ln vl. rewrite in_app_iff.
           intros [Hin|[<-|[]]]; auto.
      * intros [(l1 & ln & l2 & vl & Hl & Hu & Hp & -> & Hlast)|[H [Hp|Hno]]].
        -- destruct l2 as [|x l2 _] using rev_ind.
           ++ apply app_inj_tail in Hl. destruct Hl as [_ <-].
              exfalso. now apply (Hnot vl).
           ++ rewrite app_comm_cons, app_assoc in Hl.
              apply app_inj_tail in Hl. destruct Hl as [-> <-].
              left. exists l1, ln, l2, vl. repeat split; auto.
              intros line' value' Hin. apply Hlast.
              rewrite in_app_iff. now left.
        -- right. auto.
        -- right. split; auto. right. intros ln vl Hin.
           apply Hno. rewrite in_app_iff. now left.
Qed.

Lemma fold_kv_empty lines : forall acc : kv_object num,
  fold_left kv_step lines acc = [] ->
  acc = [] /\
  forall line key value,
    In line lines -> usable_line line key value -> key = lit "__proto__".
Proof.
  induction lines as [|line lines IH] using rev_ind; intros acc H.
  - simpl in H. split; auto. intros ? ? ? [].
  - rewrite fold_left_app in H. cbn [fold_left] in H.
    unfold kv_step at 1 in H.
    destruct (kv_line line) as [[key value]|] eqn:El.
    + unfold obj_assign in H.
      destruct (str_eqb key (lit "__proto__")) eqn:Ep.
      * apply str_eqb_eq in Ep. destruct (IH _ H) as [-> Hno]. split; auto.
        intros ln k v. rewrite in_app_iff. intros [Hin|[<-|[]]] Hu; eauto.
        apply kv_line_usable in Hu. congruence.
      * exfalso. now apply (obj_store_nonempty _ _ _ H).
    + destruct (IH _ H) as [-> Hno]. split; auto.
      intros ln k v. rewrite in_app_iff. intros [Hin|[<-|[]]] Hu; eauto.
      apply kv_line_usable in Hu. congruence.
Qed.

(** C6.  [parseKvContent] coerces the value of a used line in the order
    of the source: the literals [true] and [false] become booleans, else
    a value that [Number] parses (and that is not empty) becomes that
    number, else the trimmed text is kept.  A line is used when, trimmed,
    it is not blank, is not a comment and holds a colon; the key is what
    stands before the first colon and the value what stands after it,
    both trimmed.  Under a key the result holds the coerced value of the
    last used line with that key.  The result is absent, never an empty
    mapping, when no line stored anything: when there is no used line
    (or none but assignments to [__proto__], which store nothing). *)
Theorem parseKvContent_spec (blockContent : str) :
  (coerce (lit "true") = KBool true /\
   coerce (lit "false") = KBool false /\
   (forall value, value <> lit "true" -> value <> lit "false" ->
      isNaN (Number value) = false -> value <> [] ->
      coerce value = KNum (Number value)) /\
   (forall value, value <> lit "true" -> value <> lit "false" ->
      isNaN (Number value) = true \/ value = [] ->
      coerce value = KStr value)) /\
  ((forall line key value,
      In line (split_lines blockContent) -> ~ usable_line line key value) ->
   parseKvContent blockContent = None) /\
  parseKvContent blockContent <> Some [] /\
  (parseKvContent blockContent = None <->
   forall line key value,
     In line (split_lines blockContent) -> usable_line line key value ->
     key = lit "__proto__") /\
  (forall result, parseKvContent blockContent = Some result ->
   forall key v,
     obj_lookup result key = Some v <->
     exists l1 line l2 value,
       split_lines blockContent = l1 ++ line :: l2 /\
       usable_line line key value /\ key <> lit "__proto__" /\
       v = coerce value /\
       forall line' value', In line' l2 -> ~ usable_line line' key value').
Proof.
  assert (Hlook : forall key v,
    obj_lookup (fold_left kv_step (split_lines blockContent) []) key = Some v <->
    exists l1 line l2 value,
       split_lines blockContent = l1 ++ line :: l2 /\
       usable_line line key value /\ key <> lit "__proto__" /\
       v = coerce value /\
       forall line' value', In line' l2 -> ~ usable_line line' key value').
  { intros key v. rewrite fold_kv_lookup. simpl. split.
    - intros [H|[H _]]; [exact H|discriminate].
    - intros H. now left. }
  assert (Hnone : parseKvContent blockContent = None <->
                  fold_left kv_step (split_lines blockContent) [] = []).
  { unfold parseKvContent.
    destruct (fold_left kv_step (split_lines blockContent) []);
      split; congruence. }
  assert (Hiff : parseKvContent blockContent = None <->
   forall line key value,
     In line (split_lines blockContent) -> usable_line line key value ->
     key = lit "__proto__").
  { rewrite Hnone. split.
    - intros H. now apply fold_kv_empty in H.
    - intros Hall.
      destruct (fold_left kv_step (split_lines blockContent) [])
        as [|[k v] t] eqn:E; auto. exfalso.
      destruct (proj1 (Hlook k v)) as (l1 & line & l2 & value & Hs & Hu & Hp & _).
      { simpl. now rewrite str_eqb_refl. }
      apply Hp. apply (Hall line k value); auto.
      rewrite Hs, in_app_iff. right. now left. }
  split; [|split; [|split; [|split]]].
  - split; [reflexivity|]. split; [reflexivity|]. split.
    + intros value Ht Hf Hn He. unfold coerce.
      rewrite !str_eqb_neq by auto. now rewrite Hn.
    + intros value Ht Hf Hn. unfold coerce.
      rewrite !str_eqb_neq by auto.
      destruct Hn as [-> | ->]; [reflexivity|].
      rewrite str_eqb_refl. now rewrite andb_false_r.
  - intros Hno. apply Hiff. intros line key value Hin Hu.
    exfalso. now apply (Hno line key value).
  - unfold parseKvContent.
    destruct (fold_left kv_step (split_lines blockContent) []); discriminate.
  - exact Hiff.
  - intros result Hr key v. rewrite <- Hlook.
    unfold parseKvContent in Hr.
    destruct (fold_left kv_step (split_lines blockContent) []);
      [discriminate|]. inversion Hr; subst. reflexivity.
Qed.

End KeyValue.

(** ** The document parser *)

Section Document.

Variable num : Type.
Variable Number : str -> num.
Variable isNaN : num -> bool.
Variable parseInt10 : str -> num.
Variable num_truthy : num -> bool.
Variable same_num : num -> num -> bool.
Variable J : Type.
Variable JSON5_parse : str -> outcome J.
Variable basename_bru : str -> str.

Local Abbreviation parseBruFile :=
  (parseBruFile Number isNaN parseInt10 num_truthy same_num JSON5_parse
     basename_bru).
Local Abbreviation parse_example :=
  (parse_example Number isNaN parseInt10 num_truthy same_num JSON5_parse).
Local Abbreviation example_loop :=
  (example_loop Number isNaN parseInt10 num_truthy same_num JSON5_parse).
Local Abbreviation example_candidate :=
  (example_candidate Number isNaN parseInt10 num_truthy JSON5_parse).
Local Abbreviation candidates :=
  (candidates Number isNaN parseInt10 num_truthy JSON5_parse).
Local Abbreviation response_body := (response_body JSON5_parse).
Local Abbreviation document_body := (document_body JSON5_parse).
Local Abbreviation first_wins := (first_wins same_num (J:=J)).
Local Abbreviation distinct_codes := (distinct_codes same_num (J:=J)).
Local Abbreviation parse_kv_block := (parse_kv_block Number isNaN).

(** Both uses of [JSON5.parse] stand in a [try] whose [catch] falls
    through. *)
Lemma response_body_returns responseContent :
  response_body responseContent
  = Returned (returned_value (response_body responseContent)).
Proof.
  unfold response_body.
  destruct (truthy (extractBlockContent responseContent (lit "body")));
    [|reflexivity].
  destruct (match_content s); [|reflexivity].
  destruct (JSON5_parse (trim s0)); reflexivity.
Qed.

Lemma document_body_returns cleanContent :
  document_body cleanContent
  = Returned (returned_value (document_body cleanContent)).
Proof.
  unfold document_body.
  destruct (truthy (extractBlockContent cleanContent (lit "body:json")));
    [|reflexivity].
  destruct (JSON5_parse s); reflexivity.
Qed.

Lemma parse_example_candidate content rs seen m :
  parse_example content (rs, seen) m =
  Returned
    match example_candidate content m with
    | Some r =>
        if existsb (same_num (Response.statusCode r)) seen then (rs, seen)
        else (rs ++ [r], Response.statusCode r :: seen)
    | None => (rs, seen)
    end.
Proof.
  unfold parse_example, example_candidate.
  destruct (truthy (extractBlockContent (skipn m content) (lit "example")))
    as [ex|]; [|reflexivity].
  destruct (truthy (extractBlockContent ex (lit "response"))) as [rc|];
    [|reflexivity].
  destruct (status_code parseInt10 rc) as [code|]; [|reflexivity].
  destruct (num_truthy code); [|reflexivity]. cbn [andb Response.statusCode].
  destruct (existsb (same_num code) seen); [reflexivity|]. cbn [negb].
  rewrite response_body_returns. reflexivity.
Qed.

Lemma example_loop_first_wins content ms : forall rs seen,
  example_loop content ms (rs, seen) =
  Returned
    (rs ++ first_wins (flat_map (fun m => match example_candidate content m with
                                          | Some r => [r]
                                          | None => []
                                          end) ms) seen,
     rev (map Response.statusCode
            (first_wins (flat_map (fun m => match example_candidate content m with
                                            | Some r => [r]
                                            | None => []
                                            end) ms) seen)) ++ seen).
Proof.
  induction ms as [|m ms IH]; intros rs seen.
  - simpl. now rewrite app_nil_r.
  - cbn [example_loop flat_map]. rewrite parse_example_candidate.
    cbn [bind]. destruct (example_candidate content m) as [r|].
    + cbn [app first_wins].
      destruct (existsb (same_num (Response.statusCode r)) seen).
      * apply IH.
      * rewrite IH. cbn [map rev]. rewrite <- !app_assoc. reflexivity.
    + apply IH.
Qed.

Lemma first_wins_seen rs : forall seen r,
  In r (first_wins rs seen) ->
  existsb (same_num (Response.statusCode r)) seen = false.
Proof.
  induction rs as [|r0 rs IH]; intros seen r; simpl; [tauto|].
  destruct (existsb (same_num (Response.statusCode r0)) seen) eqn:E.
  - apply IH.
  - intros [<-|Hin]; auto. apply IH in Hin. simpl in Hin.
    apply orb_false_elim in Hin. tauto.
Qed.

Lemma first_wins_distinct rs : forall seen,
  distinct_codes (first_wins rs seen).
Proof.
  induction rs as [|r rs IH]; intros seen; simpl; auto.
  destruct (existsb (same_num (Response.statusCode r)) seen) eqn:E; auto.
  cbn [distinct_codes]. split; auto.
  apply Forall_forall. intros r' Hin. apply first_wins_seen in Hin.
  simpl in Hin. apply orb_false_elim in Hin. tauto.
Qed.

(** A response whose status code has been seen is passed over. *)
Lemma first_wins_drop l1 : forall seen r l2,
  existsb (same_num (Response.statusCode r))
    (rev (map Response.statusCode (first_wins l1 seen)) ++ seen) = true ->
  first_wins (l1 ++ r :: l2) seen = first_wins (l1 ++ l2) seen.
Proof.
  induction l1 as [|r0 l1 IH]; intros seen r l2 H; simpl in *.
  - now rewrite H.
  - destruct (existsb (same_num (Response.statusCode r0)) seen).
    + now apply IH.
    + f_equal. apply IH. simpl in H. now rewrite <- app_assoc in H.
Qed.

Lemma first_wins_keeps l1 : forall seen r l2,
  existsb (same_num (Response.statusCode r))
    (rev (map Response.statusCode (first_wins l1 seen)) ++ seen) = false ->
  exists k1 k2,
    first_wins (l1 ++ r :: l2) seen = k1 ++ r :: k2 /\
    k1 = first_wins l1 seen.
Proof.
  induction l1 as [|r0 l1 IH]; intros seen r l2 H; simpl in *.
  - rewrite H. exists [], (first_wins l2 (Response.statusCode r :: seen)). auto.
  - destruct (existsb (same_num (Response.statusCode r0)) seen).
    + now apply IH.
    + simpl in H. rewrite <- app_assoc in H.
      destruct (IH _ _ l2 H) as (k1 & k2 & -> & ->).
      exists (r0 :: first_wins l1 (Response.statusCode r0 :: seen)), k2. auto.
Qed.

Lemma parseBruFile_returns filePath content :
  exists doc,
    parseBruFile filePath content = Returned (Some doc) /\
    BruFile.path doc = filePath /\
    BruFile.body doc =
      returned_value (document_body (stripBlocks content (lit "example"))) /\
    BruFile.headers doc =
      parse_kv_block
        (extractBlockContent (stripBlocks content (lit "example")) (lit "headers")) /\
    BruFile.query doc =
      parse_kv_block
        (extractBlockContent (stripBlocks content (lit "example"))
           (lit "params:query")) /\
    BruFile.params doc =
      parse_kv_block
        (extractBlockContent (stripBlocks content (lit "example"))
           (lit "params:path")) /\
    BruFile.responses doc =
      match first_wins (candidates content) [] with
      | [] => None
      | rs => Some rs
      end.
Proof.
  unfold parseBruFile. rewrite example_loop_first_wins. cbn [bind fst app].
  rewrite document_body_returns. cbn [bind].
  eexists. split; [reflexivity|].
  cbn [BruFile.path BruFile.body BruFile.headers BruFile.query BruFile.params
       BruFile.responses].
  repeat (split; [reflexivity|]). unfold candidates.
  destruct (first_wins _ []); reflexivity.
Qed.

Lemma first_wins_incl rs : forall seen r, In r (first_wins rs seen) -> In r rs.
Proof.
  induction rs as [|r0 rs IH]; intros seen r; simpl; [tauto|].
  destruct (existsb (same_num (Response.statusCode r0)) seen).
  - intros H. right. eapply IH, H.
  - intros [<-|H]; [now left|]. right. eapply IH, H.
Qed.

(** C7.  The responses of a document are the responses of its example
    blocks with duplicates of a status code removed, the first seen
    winning; no two of them have the same status code.  When two example
    blocks yield the same status code and the first of them is the first
    with that code, the first one's response (its body and headers) is in
    the list, and the list is what it would be without the second. *)
Theorem responses_first_seen_wins (filePath content : str) :
  exists doc rs,
    parseBruFile filePath content = Returned (Some doc) /\
    BruFile.responses doc = match rs with [] => None | _ => Some rs end /\
    rs = first_wins (candidates content) [] /\
    distinct_codes rs /\
    forall l1 r1 l2 r2 l3,
      candidates content = l1 ++ r1 :: l2 ++ r2 :: l3 ->
      same_num (Response.statusCode r2) (Response.statusCode r1) = true ->
      (forall r, In r l1 ->
         same_num (Response.statusCode r1) (Response.statusCode r) = false) ->
      (exists k1 k2, rs = k1 ++ r1 :: k2) /\
      rs = first_wins (l1 ++ r1 :: l2 ++ l3) [].
Proof.
  destruct (parseBruFile_returns filePath content)
    as (doc & Hdoc & _ & _ & _ & _ & _ & Hr).
  exists doc, (first_wins (candidates content) []).
  split; [exact Hdoc|].
  split; [rewrite Hr; now destruct (first_wins (candidates content) [])|].
  split; [reflexivity|].
  split; [apply first_wins_distinct|].
  intros l1 r1 l2 r2 l3 Hc Hsame Hfirst. rewrite Hc.
  assert (Hkeep : existsb (same_num (Response.statusCode r1))
            (rev (map Response.statusCode (first_wins l1 [])) ++ []) = false).
  { rewrite app_nil_r. destruct (existsb _ _) eqn:E; auto.
    apply existsb_exists in E. destruct E as (c & Hin & Hc').
    apply in_rev, in_map_iff in Hin. destruct Hin as (r & <- & Hin).
    apply first_wins_incl in Hin. rewrite (Hfirst r Hin) in Hc'. discriminate. }
  split.
  - destruct (first_wins_keeps l1 [] r1 (l2 ++ r2 :: l3) Hkeep)
      as (k1 & k2 & -> & _). eauto.
  - replace (l1 ++ r1 :: l2 ++ r2 :: l3) with ((l1 ++ r1 :: l2) ++ r2 :: l3)
      by (rewrite <- app_assoc; reflexivity).
    replace (l1 ++ r1 :: l2 ++ l3) with ((l1 ++ r1 :: l2) ++ l3)
      by (rewrite <- app_assoc; reflexivity).
    apply first_wins_drop. rewrite app_nil_r.
    destruct (first_wins_keeps l1 [] r1 l2 Hkeep) as (k1 & k2 & -> & _).
    apply existsb_exists. exists (Response.statusCode r1). split; auto.
    apply -> in_rev. apply in_map. rewrite in_app_iff. right. now left.
Qed.

(** C8.  A payload literal that [JSON5.parse] rejects leaves the body of
    the document absent, and a response-body literal that it rejects
    leaves the body of that example's response absent; in both cases the
    parser returns. *)
Theorem malformed_literal_leaves_body_absent (filePath content : str) :
  (forall bodyContent,
     truthy (extractBlockContent (stripBlocks content (lit "example"))
               (lit "body:json")) = Some bodyContent ->
     JSON5_parse bodyContent = Thrown ->
     exists doc,
       parseBruFile filePath content = Returned (Some doc) /\
       BruFile.body doc = None) /\
  (forall m exampleContent responseContent statusCode bodyBlock literal,
     truthy (extractBlockContent (skipn m content) (lit "example"))
       = Some exampleContent ->
     truthy (extractBlockContent exampleContent (lit "response"))
       = Some responseContent ->
     status_code parseInt10 responseContent = Some statusCode ->
     num_truthy statusCode = true ->
     truthy (extractBlockContent responseContent (lit "body")) = Some bodyBlock ->
     match_content bodyBlock = Some literal ->
     JSON5_parse (trim literal) = Thrown ->
     (exists r, example_candidate content m = Some r /\
                Response.statusCode r = statusCode /\
                Response.body r = None) /\
     forall st, exists st', parse_example content st m = Returned st').
Proof.
  split.
  - intros bodyContent Hb Hthrow.
    destruct (parseBruFile_returns filePath content)
      as (doc & Hdoc & _ & Hbody & _).
    exists doc. split; [exact Hdoc|]. rewrite Hbody.
    unfold document_body. rewrite Hb, Hthrow. reflexivity.
  - intros m ex rc code bb literal Hex Hrc Hcode Htr Hbb Hlit Hthrow. split.
    + unfold example_candidate. rewrite Hex, Hrc, Hcode, Htr.
      eexists. split; [reflexivity|]. split; [reflexivity|].
      cbn [Response.body]. unfold response_body.
      rewrite Hbb, Hlit, Hthrow. reflexivity.
    + intros [rs seen]. rewrite parse_example_candidate. eauto.
Qed.

(** C9.  [parseBruFile] returns a document for every text and never
    throws and never answers [null].  A field whose block is absent or
    never closes is absent; a payload that does not parse is absent; an
    example without a numeric status code adds no response; an example
    whose body literal does not parse still adds its response, without a
    body. *)
Theorem parseBruFile_total (filePath content : str) :
  exists doc,
    parseBruFile filePath content = Returned (Some doc) /\
    let cleanContent := stripBlocks content (lit "example") in
    (extractBlockContent cleanContent (lit "body:json") = None ->
     BruFile.body doc = None) /\
    (forall bodyContent,
       extractBlockContent cleanContent (lit "body:json") = Some bodyContent ->
       JSON5_parse bodyContent = Thrown -> BruFile.body doc = None) /\
    (extractBlockContent cleanContent (lit "headers") = None ->
     BruFile.headers doc = None) /\
    (extractBlockContent cleanContent (lit "params:query") = None ->
     BruFile.query doc = None) /\
    (extractBlockContent cleanContent (lit "params:path") = None ->
     BruFile.params doc = None) /\
    (forall st m, exists st', parse_example content st m = Returned st') /\
    (forall st m exampleContent responseContent,
       truthy (extractBlockContent (skipn m content) (lit "example"))
         = Some exampleContent ->
       truthy (extractBlockContent exampleContent (lit "response"))
         = Some responseContent ->
       status_code parseInt10 responseContent = None ->
       parse_example content st m = Returned st) /\
    (candidates content = [] -> BruFile.responses doc = None).
Proof.
  destruct (parseBruFile_returns filePath content)
    as (doc & Hdoc & _ & Hbody & Hh & Hq & Hp & Hr).
  exists doc. split; [exact Hdoc|]. cbv zeta.
  split; [|split; [|split; [|split; [|split; [|split; [|split]]]]]].
  - intros E. rewrite Hbody. unfold document_body. now rewrite E.
  - intros bc E Hthrow. rewrite Hbody. unfold document_body. rewrite E.
    destruct bc as [|c t]; [reflexivity|]. cbn [truthy]. now rewrite Hthrow.
  - intros E. rewrite Hh, E. reflexivity.
  - intros E. rewrite Hq, E. reflexivity.
  - intros E. rewrite Hp, E. reflexivity.
  - intros [rs seen] m. rewrite parse_example_candidate. eauto.
  - intros [rs seen] m ex rc Hex Hrc Hcode. rewrite parse_example_candidate.
    unfold example_candidate. now rewrite Hex, Hrc, Hcode.
  - intros E. rewrite Hr, E. reflexivity.
Qed.

End Document.

(** ** Example blocks do not leak into the document's own fields *)

Lemma app_same_length (a b x y : str) :
  a ++ x = b ++ y -> length a = length b -> a = b /\ x = y.
Proof.
  intros He Hl.
  assert (Ha : a = b).
  { transitivity (firstn (length a) (a ++ x)).
    - rewrite firstn_app, Nat.sub_diag, firstn_all. simpl. now rewrite app_nil_r.
    - rewrite He, Hl, firstn_app, Nat.sub_diag, firstn_all. simpl.
      now rewrite app_nil_r. }
  subst b. split; auto. now apply app_inv_head in He.
Qed.

Lemma balanced_unique (body body' rest rest' : str) :
  body ++ RBRACE :: rest = body' ++ RBRACE :: rest' ->
  balanced body -> balanced body' -> body = body' /\ rest = rest'.
Proof.
  assert (Hshort : forall (b b' r r' : str),
             b ++ RBRACE :: r = b' ++ RBRACE :: r' ->
             balanced b -> balanced b' -> length b < length b' -> False).
  { intros b b' r r' He [Hb _] [_ Hp'] Hlt.
    assert (Hpre : firstn (length b + 1) b' = b ++ [RBRACE]).
    { transitivity (firstn (length b + 1) (b' ++ RBRACE :: r')).
      - rewrite firstn_app. replace (length b + 1 - length b') with 0 by lia.
        simpl. now rewrite app_nil_r.
      - rewrite <- He.
        replace (b ++ RBRACE :: r) with ((b ++ [RBRACE]) ++ r)
          by now rewrite <- app_assoc.
        replace (length b + 1) with (length (b ++ [RBRACE]))
          by (rewrite length_app; simpl; lia).
        rewrite firstn_app, Nat.sub_diag, firstn_all. simpl.
        now rewrite app_nil_r. }
    specialize (Hp' (length b + 1)). rewrite Hpre in Hp'.
    unfold opens, closes in *. rewrite !count_app in Hp'. simpl in Hp'. lia. }
  intros He Hb Hb'.
  destruct (Nat.lt_trichotomy (length body) (length body')) as [H|[H|H]].
  - exfalso. eapply Hshort; eauto.
  - destruct (app_same_length _ _ _ _ He H) as [-> He']. inversion He'. auto.
  - exfalso. symmetry in He. eapply Hshort; eauto.
Qed.

Lemma strip_step_cut name content m pre body rest :
  first_header name content m ->
  content = pre ++ LBRACE :: body ++ RBRACE :: rest ->
  m <= length pre -> ~ In LBRACE (skipn m pre) -> balanced body ->
  strip_step content name = Some (firstn m pre ++ rest).
Proof.
  intros Hf Hc Hm Hn Hb.
  destruct (scan_block content name)
    as [Hf'|m' pre' body' rest' Hf' Hi Hc' Hm' Hn' Hb' Hs
       |m' pre' tail bc i Hf' Hi Hc' Hm' Hn' Hb' Hs Hbc].
  - exfalso. apply find_header_first_header in Hf. congruence.
  - apply find_header_first_header in Hf.
    assert (m' = m) by congruence. subst m'.
    destruct (opening_unique _ _ _ _ _ _ Hc Hc' Hm Hm' Hn Hn') as [<- Ht].
    destruct (balanced_unique _ _ _ _ Ht Hb Hb') as [<- <-].
    eapply strip_step_Cut; eauto.
  - exfalso. apply find_header_first_header in Hf.
    assert (m' = m) by congruence. subst m'.
    destruct (opening_unique _ _ _ _ _ _ Hc Hc' Hm Hm' Hn Hn') as [<- Ht].
    now apply (Hb' body rest).
Qed.

Lemma stripBlocks_unfold content name c' :
  strip_step content name = Some c' ->
  stripBlocks content name = stripBlocks c' name.
Proof.
  intros H. pose proof (strip_step_shorter _ _ _ H) as Hl.
  unfold stripBlocks. destruct (length content) as [|n] eqn:E; [lia|].
  cbn [strip_loop]. rewrite H. apply strip_loop_enough; lia.
Qed.

Lemma stripBlocks_fixed content name :
  strip_step content name = None -> stripBlocks content name = content.
Proof. intros H. unfold stripBlocks. now apply strip_loop_fixed. Qed.

(** [stripBlocks] computes the text outside all blocks, and that text is
    unique. *)
Lemma stripBlocks_without_blocks name content outside :
  without_blocks name content outside <-> outside = stripBlocks content name.
Proof.
  split.
  - induction 1 as [content Hno|content m pre tail Hf Hc Hm Hn Hopen
                   |content m pre body rest outside Hf Hc Hm Hn Hb _ IH].
    + symmetry. apply stripBlocks_fixed.
      apply strip_step_None_cases. now left.
    + symmetry. apply stripBlocks_fixed.
      apply strip_step_None_cases. right.
      exists m, pre, tail. auto.
    + rewrite IH. symmetry. apply stripBlocks_unfold.
      eapply strip_step_cut; eauto.
  - intros ->. remember (length content) as n eqn:Hlen.
    revert content Hlen. induction n as [n IH] using lt_wf_ind.
    intros content Hlen.
    destruct (strip_step content name) as [c'|] eqn:E.
    + rewrite (stripBlocks_unfold _ _ _ E).
      destruct (strip_step_Some _ _ _ E)
        as (m & pre & body & rest & Hf & Hc & Hm & Hn & Hb & -> & _).
      eapply wb_cut; eauto.
      apply (IH (length (firstn m pre ++ rest))); auto.
      apply strip_step_shorter in E. lia.
    + rewrite (stripBlocks_fixed _ _ E).
      apply strip_step_None_cases in E.
      destruct E as [Hno|(m & pre & tail & Hf & Hc & Hm & Hn & Hopen)].
      * now apply wb_no_header.
      * eapply wb_open; eauto.
Qed.

Section TopLevelHeaders.

Variable num : Type.
Variable Number : str -> num.
Variable isNaN : num -> bool.
Variable parseInt10 : str -> num.
Variable num_truthy : num -> bool.
Variable same_num : num -> num -> bool.
Variable J : Type.
Variable JSON5_parse : str -> outcome J.
Variable basename_bru : str -> str.

Local Abbreviation parseBruFile :=
  (parseBruFile Number isNaN parseInt10 num_truthy same_num JSON5_parse
     basename_bru).
Local Abbreviation parse_kv_block := (parse_kv_block Number isNaN).

(** C4.  The headers of a document are read from the text outside all
    example blocks: they are absent when that text holds no [headers]
    block.  So for a text [pre ++ example sep { body } ++ post] whose
    example block is balanced, they are absent whatever [body] holds (a
    response with headers of its own, say), unless [pre ++ post], the
    text outside the example block, holds a [headers] block itself. *)
Theorem example_headers_are_not_document_headers (filePath content : str) :
  exists doc,
    parseBruFile filePath content = Returned (Some doc) /\
    (forall outside,
       without_blocks (lit "example") content outside ->
       BruFile.headers doc =
         parse_kv_block (extractBlockContent outside (lit "headers")) /\
       ((forall m, ~ header_matches (lit "headers") outside m) ->
        BruFile.headers doc = None)) /\
    (forall pre sep body post,
       content = pre ++ lit "example" ++ sep ++ LBRACE :: body ++ RBRACE :: post ->
       is_separator sep -> balanced body ->
       first_header (lit "example") content (length pre) ->
       (forall m, ~ header_matches (lit "example") (pre ++ post) m) ->
       (forall m, ~ header_matches (lit "headers") (pre ++ post) m) ->
       BruFile.headers doc = None).
Proof.
  destruct (parseBruFile_returns _ Number isNaN parseInt10 num_truthy same_num
              _ JSON5_parse basename_bru filePath content)
    as (doc & Hdoc & _ & _ & Hh & _).
  exists doc. split; [exact Hdoc|].
  assert (Hout : forall outside,
       without_blocks (lit "example") content outside ->
       BruFile.headers doc =
         parse_kv_block (extractBlockContent outside (lit "headers")) /\
       ((forall m, ~ header_matches (lit "headers") outside m) ->
        BruFile.headers doc = None)).
  { intros outside Hw. apply stripBlocks_without_blocks in Hw. subst outside.
    split; [exact Hh|]. intros Hno. rewrite Hh.
    apply find_header_no_match in Hno.
    unfold extractBlockContent. now rewrite Hno. }
  split; [exact Hout|].
  intros pre sep body post Hc Hsep Hb Hf Hnoex Hnoh.
  apply (Hout (pre ++ post)); auto.
  apply (wb_cut (lit "example") content (length pre)
           (pre ++ lit "example" ++ sep) body post (pre ++ post)); auto.
  - rewrite Hc. now rewrite <- !app_assoc.
  - rewrite length_app. lia.
  - replace (skipn (length pre) (pre ++ lit "example" ++ sep))
      with (lit "example" ++ sep)
      by (rewrite skipn_app, Nat.sub_diag, skipn_all; reflexivity).
    rewrite in_app_iff. intros [H|H].
    + vm_compute in H. intuition discriminate.
    + now apply (separator_no_brace sep).
  - replace (firstn (length pre) (pre ++ lit "example" ++ sep)) with pre
      by (rewrite firstn_app, Nat.sub_diag, firstn_all; simpl;
          now rewrite app_nil_r).
    now apply wb_no_header.
Qed.

End TopLevelHeaders.

(** * Properties of the restructuring pass *)

(** ** More fuel gives the same result *)

Lemma for_keys_mono (body1 body2 : str -> store -> walk store) keys :
  (forall key s r, body1 key s = Finished r -> body2 key s = Finished r) ->
  forall s r, for_keys body1 keys s = Finished r ->
              for_keys body2 keys s = Finished r.
Proof.
  intros Hb. induction keys as [|key keys IH]; intros s r; simpl; auto.
  destruct (body1 key s) as [s1| | |] eqn:E; try discriminate.
  rewrite (Hb _ _ _ E). simpl. apply IH.
Qed.

(** Case analysis on the next test of a walk, in the goal
    [walk1 = Finished r -> walk2 = Finished r] where the two walks differ
    in the function they call for the nested objects. *)
Ltac walk_head t :=
  lazymatch t with
  | wbind ?c _ => walk_head c
  | (if ?b then _ else _) => b
  | (match ?x with _ => _ end) => x
  | _ => t
  end.

Ltac walk_step2 mono mono' :=
  lazymatch goal with
  | |- Finished _ = Finished _ -> _ => let H := fresh in intros H; exact H
  | |- TypeError = Finished _ -> _ => discriminate
  | |- OutsideModel = Finished _ -> _ => discriminate
  | |- OutOfFuel = Finished _ -> _ => discriminate
  | |- ?lhs = Finished _ -> _ =>
      let h := walk_head lhs in
      let E := fresh "E" in
      destruct h eqn:E; cbn [wbind];
      try discriminate;
      try first [erewrite mono by exact E; cbn [wbind]
                |erewrite mono' by exact E; cbn [wbind]]
  end.

Ltac walk_step mono :=
  lazymatch goal with
  | |- Finished _ = Finished _ -> _ => let H := fresh in intros H; exact H
  | |- TypeError = Finished _ -> _ => discriminate
  | |- OutsideModel = Finished _ -> _ => discriminate
  | |- OutOfFuel = Finished _ -> _ => discriminate
  | |- ?lhs = Finished _ -> _ =>
      let h := walk_head lhs in
      let E := fresh "E" in
      destruct h eqn:E; cbn [wbind];
      try discriminate;
      try (erewrite mono by exact E; cbn [wbind])
  end.

Lemma lift_item_mono (walk1 walk2 : nat -> str -> store -> walk store) :
  (forall c name s r, walk1 c name s = Finished r -> walk2 c name s = Finished r) ->
  forall itemSchema item_ref itemName s r,
    lift_item walk1 itemSchema item_ref itemName s = Finished r ->
    lift_item walk2 itemSchema item_ref itemName s = Finished r.
Proof.
  intros Hmono itemSchema item_ref itemName s r. unfold lift_item.
  repeat walk_step Hmono.
Qed.

Lemma PathNamed_process_key_mono (self1 self2 : nat -> str -> store -> walk store) :
  (forall c name s r, self1 c name s = Finished r -> self2 c name s = Finished r) ->
  forall c name key s r,
    PathNamed.process_key self1 c name key s = Finished r ->
    PathNamed.process_key self2 c name key s = Finished r.
Proof.
  intros Hmono c name key s r. unfold PathNamed.process_key.
  pose proof (lift_item_mono self1 self2 Hmono) as Hlift.
  repeat walk_step2 Hlift Hmono.
Qed.

Lemma PathNamed_processObject_mono fuel :
  forall fuel' c name s r,
    fuel <= fuel' ->
    PathNamed.processObject fuel c name s = Finished r ->
    PathNamed.processObject fuel' c name s = Finished r.
Proof.
  induction fuel as [|n IH]; intros fuel' c name s r Hle; [discriminate|].
  destruct fuel' as [|m]; [lia|]. cbn [PathNamed.processObject].
  destruct (cell_at s c) as [obj|]; auto.
  destruct (negb (js_truthy (Some obj)) || negb (is_object obj)); auto.
  destruct (prop_of (Some obj) (lit "properties")) as [p| | |]; auto.
  cbn [wbind]. destruct (js_truthy p); auto.
  apply for_keys_mono. intros key s0 r0.
  apply PathNamed_process_key_mono. intros c0 name0 s1 r1. apply IH. lia.
Qed.

Lemma ArrayLayer_process_key_mono
    (self1 self2 : nat -> list str -> str -> store -> walk store) :
  (forall c path name s r,
     self1 c path name s = Finished r -> self2 c path name s = Finished r) ->
  forall c path name key s r,
    ArrayLayer.process_key self1 c path name key s = Finished r ->
    ArrayLayer.process_key self2 c path name key s = Finished r.
Proof.
  intros Hmono c path name key s r. unfold ArrayLayer.process_key.
  pose proof (lift_item_mono (fun ci => self1 ci []) (fun ci => self2 ci [])
                (fun c0 name0 s0 r0 => Hmono c0 [] name0 s0 r0)) as Hlift.
  repeat walk_step2 Hlift Hmono.
Qed.

Lemma ArrayLayer_processObject_mono fuel :
  forall fuel' c path name s r,
    fuel <= fuel' ->
    ArrayLayer.processObject fuel c path name s = Finished r ->
    ArrayLayer.processObject fuel' c path name s = Finished r.
Proof.
  induction fuel as [|n IH]; intros fuel' c path name s r Hle; [discriminate|].
  destruct fuel' as [|m]; [lia|]. cbn [ArrayLayer.processObject].
  destruct (object_at s c path) as [obj|]; auto.
  destruct (negb (js_truthy (Some obj)) || negb (is_object obj)); auto.
  destruct (prop_of (Some obj) (lit "properties")) as [p| | |]; auto.
  cbn [wbind]. destruct (js_truthy p); auto.
  apply for_keys_mono. intros key s0 r0.
  apply ArrayLayer_process_key_mono. intros c0 path0 name0 s1 r1. apply IH. lia.
Qed.

Lemma PathNamed_restructure_mono fuel fuel' schema rootName r :
  fuel <= fuel' ->
  PathNamed.restructureArrays fuel schema rootName = Finished r ->
  PathNamed.restructureArrays fuel' schema rootName = Finished r.
Proof.
  intros Hle. unfold PathNamed.restructureArrays.
  destruct (open_schema schema) as [s| | |]; auto. cbn [wbind].
  destruct (PathNamed.processObject fuel schema_cell rootName s) as [s'| | |] eqn:E;
    try discriminate.
  now rewrite (PathNamed_processObject_mono _ _ _ _ _ _ Hle E).
Qed.

Lemma ArrayLayer_restructure_mono fuel fuel' schema rootName r :
  fuel <= fuel' ->
  ArrayLayer.restructureArrays fuel schema rootName = Finished r ->
  ArrayLayer.restructureArrays fuel' schema rootName = Finished r.
Proof.
  intros Hle. unfold ArrayLayer.restructureArrays.
  destruct (open_schema schema) as [s| | |]; auto. cbn [wbind].
  destruct (ArrayLayer.processObject fuel schema_cell [] rootName s) as [s'| | |] eqn:E;
    try discriminate.
  now rewrite (ArrayLayer_processObject_mono _ _ _ _ _ _ _ Hle E).
Qed.

(** ** Mappings, references and item schemas *)

Lemma str_eqb_sym a b : str_eqb a b = str_eqb b a.
Proof.
  destruct (str_eqb a b) eqn:E.
  - apply str_eqb_eq in E. subst. symmetry. apply str_eqb_refl.
  - symmetry. apply str_eqb_neq. intros ->. rewrite str_eqb_refl in E.
    discriminate.
Qed.

Lemma assoc_set_same {A} (l : list (str * A)) k v :
  assoc (assoc_set l k v) k = Some v.
Proof.
  induction l as [|[k0 v0] t IH]; simpl.
  - now rewrite str_eqb_refl.
  - destruct (str_eqb k0 k) eqn:E; simpl; rewrite E; auto.
Qed.

Lemma assoc_set_other {A} (l : list (str * A)) k k' v :
  k <> k' -> assoc (assoc_set l k v) k' = assoc l k'.
Proof.
  intros Hne. induction l as [|[k0 v0] t IH]; simpl.
  - now rewrite str_eqb_neq.
  - destruct (str_eqb k0 k) eqn:E; simpl.
    + apply str_eqb_eq in E. subst k0. now rewrite !str_eqb_neq.
    + now rewrite IH.
Qed.

Lemma assoc_In {A} (l : list (str * A)) k v : assoc l k = Some v -> In (k, v) l.
Proof.
  induction l as [|[k0 v0] t IH]; simpl; [discriminate|].
  destruct (str_eqb k0 k) eqn:E.
  - apply str_eqb_eq in E. subst. intros H. inversion H. now left.
  - intros H. right. auto.
Qed.

Lemma assoc_None_set {A} (l : list (str * A)) k k' v :
  assoc l k' <> None -> assoc (assoc_set l k v) k' <> None.
Proof.
  intros H. destruct (list_eq_dec N.eq_dec k k') as [->|Hne].
  - rewrite assoc_set_same. discriminate.
  - now rewrite assoc_set_other.
Qed.

Lemma in_assoc_set {A} (l : list (str * A)) k v x :
  In x (assoc_set l k v) -> In x l \/ x = (k, v).
Proof.
  induction l as [|[k0 v0] t IH]; simpl.
  - intros [<-|[]]. now right.
  - destruct (str_eqb k0 k) eqn:E; simpl.
    + apply str_eqb_eq in E. subst k0. intros [<-|H]; auto.
    + intros [<-|H]; auto. destruct (IH H); auto.
Qed.

Lemma in_refs_obj fields name :
  In name (refs (JObj fields)) <->
  (exists c r, assoc fields (lit "$ref") = Some (JStr (c :: r)) /\
               name = ref_name (c :: r)) \/
  (exists kv, In kv fields /\ In name (refs (snd kv))).
Proof.
  cbn [refs]. rewrite in_app_iff, in_flat_map. split.
  - intros [H|H]; [left|right; exact H].
    destruct (assoc fields (lit "$ref")) as [[| | |[|c r]| |]|]; simpl in H;
      try tauto.
    destruct H as [<-|[]]. eauto.
  - intros [(c & r & -> & ->)|H]; [left; now left|right; exact H].
Qed.

Lemma refs_field fields k v :
  assoc fields k = Some v -> incl (refs v) (refs (JObj fields)).
Proof.
  intros H name Hin. apply in_refs_obj. right. exists (k, v).
  split; [now apply assoc_In|exact Hin].
Qed.

Lemma items_ok_field fields k v :
  items_ok (JObj fields) = true -> assoc fields k = Some v -> items_ok v = true.
Proof.
  cbn [items_ok]. intros H Ha. apply andb_prop in H. destruct H as [_ H].
  rewrite forallb_forall in H. apply (H (k, v)). now apply assoc_In.
Qed.

Lemma assoc_indexed l : forall i k v, assoc (indexed l i) k = Some v -> In v l.
Proof.
  induction l as [|x t IH]; intros i k v; simpl; [discriminate|].
  destruct (str_eqb (index_key i) k).
  - intros H. inversion H. now left.
  - intros H. right. eapply IH, H.
Qed.

Lemma indexed_In l : forall i kv, In kv (indexed l i) -> In (snd kv) l.
Proof.
  induction l as [|x t IH]; intros i kv; simpl; [tauto|].
  intros [<-|H]; [now left|]. right. eapply IH, H.
Qed.

(** A property of a container is a part of it. *)
Lemma entry_part container key v :
  assoc (own_entries container) key = Some v ->
  incl (refs v) (refs container) /\
  (items_ok container = true -> items_ok v = true).
Proof.
  destruct container as [| | | |items|fields]; simpl; try discriminate.
  - intros H. apply assoc_indexed in H. split.
    + intros name Hin. apply in_flat_map. eauto.
    + intros Hok. rewrite forallb_forall in Hok. auto.
  - intros H. split; [now apply (refs_field fields key)|].
    intros Hok. now apply (items_ok_field fields key).
Qed.

Lemma property_part obj k v :
  property obj k = Some v ->
  incl (refs v) (refs obj) /\ (items_ok obj = true -> items_ok v = true).
Proof.
  destruct obj; simpl; try discriminate. intros H. split.
  - now apply (refs_field fields k).
  - intros Hok. now apply (items_ok_field fields k).
Qed.

(** The name that a reference holds is among the references. *)
Lemma ref_in_refs obj c r :
  property obj (lit "$ref") = Some (JStr (c :: r)) ->
  In (ref_name (c :: r)) (refs obj).
Proof.
  destruct obj; simpl; try discriminate. intros H.
  apply in_refs_obj. left. eauto.
Qed.

Ltac lit_neq := let H := fresh in intros H; vm_compute in H; discriminate.

(** Setting a property to an object, or any property other than [$ref],
    [type] and [items], adds no reference but those of the new value and
    keeps the item schemas truthy. *)
Lemma refs_assoc_set fields k v name :
  is_obj v \/ k <> lit "$ref" ->
  In name (refs (JObj (assoc_set fields k v))) ->
  In name (refs (JObj fields)) \/ In name (refs v).
Proof.
  intros Hv H. apply in_refs_obj in H.
  destruct H as [(c & r & Ha & ->)|(kv & Hin & Hn)].
  - left. apply in_refs_obj. left. exists c, r. split; auto.
    destruct (list_eq_dec N.eq_dec k (lit "$ref")) as [->|Hne].
    + rewrite assoc_set_same in Ha. destruct Hv as [[f ->]|Hv];
        [discriminate|tauto].
    + now rewrite assoc_set_other in Ha.
  - apply in_assoc_set in Hin. destruct Hin as [Hin| ->]; [left|right; exact Hn].
    apply in_refs_obj. right. eauto.
Qed.

Lemma items_ok_assoc_set fields k v :
  is_obj v \/ (k <> lit "type" /\ k <> lit "items") ->
  items_ok (JObj fields) = true -> items_ok v = true ->
  items_ok (JObj (assoc_set fields k v)) = true.
Proof.
  intros Hv Hok Hvok. cbn [items_ok] in *.
  apply andb_prop in Hok. destruct Hok as [Harr Hall].
  apply andb_true_intro. split.
  - destruct (list_eq_dec N.eq_dec k (lit "type")) as [->|Hnt].
    + rewrite assoc_set_same. destruct Hv as [[f ->]|[Hv _]]; [reflexivity|tauto].
    + rewrite (assoc_set_other fields k (lit "type")) by auto.
      destruct (is_text (assoc fields (lit "type")) (lit "array")); auto.
      destruct (list_eq_dec N.eq_dec k (lit "items")) as [->|Hni].
      * rewrite assoc_set_same. destruct Hv as [[f ->]|[_ Hv]]; [reflexivity|tauto].
      * now rewrite (assoc_set_other fields k (lit "items")) by auto.
  - rewrite forallb_forall in *. intros kv Hin. apply in_assoc_set in Hin.
    destruct Hin as [Hin| ->]; auto.
Qed.

Lemma entry_set_part container key v name :
  is_obj v ->
  In name (refs (entry_set container key v)) ->
  In name (refs container) \/ In name (refs v).
Proof.
  intros Hv. destruct container as [| | | |items|fields]; simpl; auto.
  - rewrite in_flat_map. intros (x & Hin & Hn). apply in_map_iff in Hin.
    destruct Hin as ([k0 v0] & <- & Hin). simpl in Hn.
    destruct (str_eqb k0 key); auto. left. apply in_flat_map.
    exists v0. split; auto. now apply (indexed_In items 0 (k0, v0)).
  - intros H. apply (refs_assoc_set fields key v); auto.
Qed.

Lemma entry_set_items_ok container key v :
  is_obj v -> items_ok container = true -> items_ok v = true ->
  items_ok (entry_set container key v) = true.
Proof.
  intros Hv Hok Hvok. destruct container as [| | | |items|fields]; simpl; auto.
  - simpl in Hok. rewrite forallb_forall in *. intros x Hin.
    apply in_map_iff in Hin. destruct Hin as ([k0 v0] & <- & Hin). simpl.
    destruct (str_eqb k0 key); auto. apply Hok.
    now apply (indexed_In items 0 (k0, v0)).
  - apply items_ok_assoc_set; auto.
Qed.

Lemma set_property_part obj key v name :
  is_obj v ->
  In name (refs (set_property obj key v)) ->
  In name (refs obj) \/ In name (refs v).
Proof.
  intros Hv. unfold set_property. destruct obj as [| | | | |fields]; auto.
  destruct (assoc fields (lit "properties")) as [container|] eqn:E; auto.
  intros H. apply refs_assoc_set in H; [|right; lit_neq].
  destruct H as [H|H]; auto.
  apply entry_set_part in H; auto. destruct H as [H|H]; auto.
  left. now apply (refs_field fields (lit "properties") container).
Qed.

Lemma set_property_items_ok obj key v :
  is_obj v -> items_ok obj = true -> items_ok v = true ->
  items_ok (set_property obj key v) = true.
Proof.
  intros Hv Hok Hvok. unfold set_property.
  destruct obj as [| | | | |fields]; auto.
  destruct (assoc fields (lit "properties")) as [container|] eqn:E; auto.
  apply items_ok_assoc_set; auto.
  - right. split; lit_neq.
  - apply entry_set_items_ok; auto. now apply (items_ok_field fields _ _ Hok E).
Qed.

Lemma set_property_truthy obj key v :
  js_truthy (Some (set_property obj key v)) = js_truthy (Some obj).
Proof.
  unfold set_property. destruct obj as [| | | | |fields]; auto.
  destruct (assoc fields (lit "properties")); auto.
Qed.

Lemma set_property_is_obj obj key v : is_obj obj -> is_obj (set_property obj key v).
Proof.
  intros [fields ->]. unfold set_property.
  destruct (assoc fields (lit "properties")); eexists; reflexivity.
Qed.

Lemma descend_one obj k child :
  descend obj [k] = Some child ->
  exists container, property obj (lit "properties") = Some container /\
                    assoc (own_entries container) k = Some child.
Proof.
  simpl. destruct obj as [| | | | |fields]; try discriminate.
  destruct (assoc fields (lit "properties")) as [container|] eqn:E;
    [|discriminate].
  destruct (assoc (own_entries container) k) as [c|] eqn:E'; [|discriminate].
  intros H. inversion H; subst. exists container. auto.
Qed.

Lemma descend_cons obj k path :
  descend obj (k :: path) =
  match descend obj [k] with
  | Some child => descend child path
  | None => None
  end.
Proof.
  simpl. destruct obj as [| | | | |fields]; auto.
  destruct (assoc fields (lit "properties")); auto.
  destruct (assoc (own_entries j) k); auto.
Qed.

Lemma descend_app obj p q :
  descend obj (p ++ q) =
  match descend obj p with
  | Some o => descend o q
  | None => None
  end.
Proof.
  revert obj. induction p as [|k p IH]; intros obj; [reflexivity|].
  rewrite <- app_comm_cons.
  rewrite (descend_cons obj k (p ++ q)), (descend_cons obj k p).
  destruct (descend obj [k]); auto.
Qed.

(** What stands at a path is a part of the object. *)
Lemma descend_part path : forall obj o,
  descend obj path = Some o ->
  incl (refs o) (refs obj) /\ (items_ok obj = true -> items_ok o = true).
Proof.
  induction path as [|k path IH]; intros obj o H.
  - inversion H. split; [apply incl_refl|auto].
  - rewrite descend_cons in H.
    destruct (descend obj [k]) as [child|] eqn:E; [|discriminate].
    apply descend_one in E. destruct E as (container & Hp & He).
    destruct (IH _ _ H) as [Hr Hi].
    destruct (property_part _ _ _ Hp) as [Hr1 Hi1].
    destruct (entry_part _ _ _ He) as [Hr2 Hi2].
    split; [|auto]. intros name Hn. auto.
Qed.

Lemma assoc_set_id {A} (l : list (str * A)) k v :
  assoc l k = Some v -> assoc_set l k v = l.
Proof.
  induction l as [|[k0 v0] t IH]; simpl; [discriminate|].
  destruct (str_eqb k0 k) eqn:E.
  - intros H. inversion H. reflexivity.
  - intros H. now rewrite IH.
Qed.

(** Putting back the value that a key has changes neither the references
    nor the item schemas. *)
Lemma entry_set_back container key v :
  assoc (own_entries container) key = Some v ->
  incl (refs (entry_set container key v)) (refs container) /\
  (items_ok container = true -> items_ok (entry_set container key v) = true).
Proof.
  intros H. destruct (entry_part _ _ _ H) as [Hr Hi].
  destruct container as [| | | |items|fields]; simpl in *; try discriminate.
  - split.
    + intros name Hin. apply in_flat_map in Hin. destruct Hin as (x & Hin & Hn).
      apply in_map_iff in Hin. destruct Hin as ([k0 v0] & <- & Hin).
      simpl in Hn. destruct (str_eqb k0 key); auto.
      apply in_flat_map. exists v0. split; auto.
      now apply (indexed_In items 0 (k0, v0)).
    + intros Hok. pose proof (Hi Hok) as Hv.
      rewrite forallb_forall in *. intros x Hin.
      apply in_map_iff in Hin. destruct Hin as ([k0 v0] & <- & Hin). simpl.
      destruct (str_eqb k0 key); auto. apply Hok.
      now apply (indexed_In items 0 (k0, v0)).
  - rewrite (assoc_set_id fields key v H). split; [apply incl_refl|auto].
Qed.

Lemma set_property_back obj key v :
  (exists container, property obj (lit "properties") = Some container /\
                     assoc (own_entries container) key = Some v) ->
  incl (refs (set_property obj key v)) (refs obj) /\
  (items_ok obj = true -> items_ok (set_property obj key v) = true).
Proof.
  intros (container & Hp & He). unfold set_property.
  destruct obj as [| | | | |fields]; try discriminate. simpl in Hp. rewrite Hp.
  destruct (entry_set_back _ _ _ He) as [Hr Hi]. split.
  - intros name H. apply refs_assoc_set in H; [|right; lit_neq].
    destruct H as [H|H]; auto.
    apply (refs_field fields (lit "properties") container Hp). auto.
  - intros Hok. apply items_ok_assoc_set; auto.
    + right. split; lit_neq.
    + apply Hi. now apply (items_ok_field fields _ _ Hok Hp).
Qed.

Lemma set_property_at_not_obj path : forall obj key v,
  ~ is_obj obj -> set_property_at obj path key v = obj.
Proof.
  destruct path as [|k path]; intros obj key v Hn; cbn [set_property_at].
  - destruct obj; auto. exfalso. apply Hn. eexists; reflexivity.
  - destruct obj; auto. exfalso. apply Hn. eexists; reflexivity.
Qed.

Lemma set_property_at_is_obj path : forall obj key v,
  is_obj obj -> is_obj (set_property_at obj path key v).
Proof.
  destruct path as [|k path]; intros obj key v Ho; cbn [set_property_at].
  - now apply set_property_is_obj.
  - destruct (descend obj [k]); auto. now apply set_property_is_obj.
Qed.

Lemma is_obj_dec v : is_obj v \/ ~ is_obj v.
Proof.
  destruct v; try (right; intros [f Hf]; discriminate).
  left. eexists; reflexivity.
Qed.

Lemma set_property_at_part path : forall obj key v,
  is_obj v ->
  (forall name, In name (refs (set_property_at obj path key v)) ->
                In name (refs obj) \/ In name (refs v)) /\
  (items_ok obj = true -> items_ok v = true ->
   items_ok (set_property_at obj path key v) = true).
Proof.
  induction path as [|k path IH]; intros obj key v Hv; cbn [set_property_at].
  - split.
    + intros name. now apply set_property_part.
    + now apply set_property_items_ok.
  - destruct (descend obj [k]) as [child|] eqn:E; [|split; auto].
    destruct (descend_part [k] _ _ E) as [Hr Hi].
    destruct (IH child key v Hv) as [IHr IHi].
    destruct (is_obj_dec child) as [Hc|Hc].
    + split.
      * intros name H. apply set_property_part in H;
          [|now apply set_property_at_is_obj].
        destruct H as [H|H]; auto. apply IHr in H. destruct H; auto.
      * intros Hok Hvok. apply set_property_items_ok; auto.
        now apply set_property_at_is_obj.
    + rewrite set_property_at_not_obj by auto.
      apply descend_one in E.
      destruct (set_property_back obj k child E) as [Hb1 Hb2]. split; auto.
Qed.

Lemma set_property_at_truthy path obj key v :
  js_truthy (Some (set_property_at obj path key v)) = js_truthy (Some obj).
Proof.
  destruct path as [|k path]; cbn [set_property_at].
  - apply set_property_truthy.
  - destruct (descend obj [k]); auto. apply set_property_truthy.
Qed.

(** ** Stores *)

Lemma nth_error_replace_nth {A} (l : list A) i v j :
  nth_error (replace_nth l i v) j =
  if Nat.eqb i j then (if Nat.ltb i (length l) then Some v else None)
  else nth_error l j.
Proof.
  revert i j. induction l as [|x t IH]; intros i j; simpl.
  - destruct (Nat.eqb i j); destruct j; reflexivity.
  - destruct i as [|i]; destruct j as [|j]; simpl; auto.
Qed.

Lemma length_replace_nth {A} (l : list A) i v :
  length (replace_nth l i v) = length l.
Proof.
  revert i. induction l as [|x t IH]; intros [|i]; simpl; auto.
Qed.

Lemma extends_refl s : extends s s.
Proof. unfold extends. auto. Qed.

Lemma extends_trans s1 s2 s3 : extends s1 s2 -> extends s2 s3 -> extends s1 s3.
Proof.
  intros (H1 & H2 & H3) (H4 & H5 & H6). repeat split; auto; lia.
Qed.

Lemma cell_at_lt s c v : cell_at s c = Some v -> c < length (cells s).
Proof. unfold cell_at. intros H. apply nth_error_Some. congruence. Qed.

(** An assignment to a name. *)
Lemma def_assign_spec s name v ci s' :
  def_assign s name v = Finished (ci, s') ->
  ci = length (cells s) /\
  length (cells s') = S (length (cells s)) /\
  cell_at s' ci = Some v /\
  (forall i, i < length (cells s) -> cell_at s' i = cell_at s i) /\
  (sound s -> def_value s' name = Some v) /\
  (sound s -> forall n, n <> name -> def_value s' n = def_value s n).
Proof.
  unfold def_assign. destruct (str_eqb name (lit "__proto__")); [discriminate|].
  intros H. inversion H; subst; clear H. unfold cell_at, def_value, cell_at.
  cbn [cells definitions].
  assert (Hold : forall i, i < length (cells s) ->
                 nth_error (cells s ++ [v]) i = nth_error (cells s) i)
    by (intros i Hi; now apply nth_error_app1).
  repeat split; auto.
  - rewrite length_app. simpl. lia.
  - rewrite nth_error_app2, Nat.sub_diag by lia. reflexivity.
  - intros _. rewrite assoc_set_same.
    rewrite nth_error_app2, Nat.sub_diag by lia. reflexivity.
  - intros [Hcells _] n Hn. rewrite assoc_set_other by auto.
    destruct (assoc (definitions s) n) as [c|] eqn:E; auto.
    apply Hold. eauto.
Qed.

Lemma def_assign_sound s name v ci s' :
  sound s -> items_ok v = true -> js_truthy (Some v) = true ->
  (forall n, In n (refs v) -> resolves s n = true) ->
  def_assign s name v = Finished (ci, s') ->
  sound s' /\ extends s s' /\ resolves s' name = true.
Proof.
  intros Hs Hok Ht Hr Ha.
  destruct (def_assign_spec _ _ _ _ _ Ha) as (Hci & Hlen & Hcell & Hold & Hnew & Hother).
  specialize (Hnew Hs). specialize (Hother Hs).
  assert (Hres : forall n, resolves s n = true -> resolves s' n = true).
  { intros n Hn. unfold resolves in *.
    destruct (list_eq_dec N.eq_dec n name) as [->|Hne].
    - now rewrite Hnew.
    - now rewrite Hother. }
  assert (Hdef : forall n, def_value s n <> None -> def_value s' n <> None).
  { intros n Hn. destruct (list_eq_dec N.eq_dec n name) as [->|Hne].
    - rewrite Hnew. discriminate.
    - now rewrite Hother. }
  split; [|split].
  - destruct Hs as [Hcells Hall]. split.
    + intros n c Hn. rewrite Hlen.
      unfold def_assign in Ha.
      destruct (str_eqb name (lit "__proto__")); [discriminate|].
      inversion Ha; subst; clear Ha. cbn [definitions] in Hn.
      destruct (list_eq_dec N.eq_dec name n) as [->|Hne].
      * rewrite assoc_set_same in Hn. inversion Hn. lia.
      * rewrite assoc_set_other in Hn by auto. apply Hcells in Hn. lia.
    + intros c w Hc.
      destruct (Nat.lt_ge_cases c (length (cells s))) as [Hlt|Hge].
      * rewrite Hold in Hc by auto. destruct (Hall _ _ Hc) as [Hi Hrf].
        split; auto.
      * assert (c = ci).
        { apply cell_at_lt in Hc. lia. }
        subst c. rewrite Hcell in Hc. inversion Hc; subst w. split; auto.
  - repeat split; auto. lia.
  - unfold resolves. now rewrite Hnew.
Qed.

Lemma cell_at_set_cell s c v i :
  cell_at (set_cell s c v) i =
  if Nat.eqb c i then (if Nat.ltb c (length (cells s)) then Some v else None)
  else cell_at s i.
Proof. unfold cell_at, set_cell. cbn [cells]. apply nth_error_replace_nth. Qed.

(** A property set to an object whose references resolve. *)
Lemma write_property_sound s c path key v :
  sound s -> is_obj v -> items_ok v = true ->
  (forall n, In n (refs v) -> resolves s n = true) ->
  sound (write_property s c path key v) /\
  extends s (write_property s c path key v) /\
  untouched_but c s (write_property s c path key v) /\
  length (cells (write_property s c path key v)) = length (cells s).
Proof.
  intros Hs Hv Hok Hr. unfold write_property.
  destruct (cell_at s c) as [obj|] eqn:Ec.
  2:{ split; [exact Hs|]. split; [apply extends_refl|].
      split; [intros i _ _; reflexivity|reflexivity]. }
  set (obj' := set_property_at obj path key v).
  assert (Hlt : c < length (cells s)) by now apply (cell_at_lt s c obj).
  assert (Hcell : forall i, cell_at (set_cell s c obj') i =
                            if Nat.eqb c i then Some obj' else cell_at s i).
  { intros i. rewrite cell_at_set_cell.
    destruct (Nat.eqb c i); auto.
    apply Nat.ltb_lt in Hlt. now rewrite Hlt. }
  assert (Hdv : forall n, js_truthy (def_value (set_cell s c obj') n)
                          = js_truthy (def_value s n) /\
                          (def_value s n <> None ->
                           def_value (set_cell s c obj') n <> None)).
  { intros n. unfold def_value. cbn [definitions set_cell].
    destruct (assoc (definitions s) n) as [c0|]; [|split; auto].
    change (nth_error (replace_nth (cells s) c obj') c0)
      with (cell_at (set_cell s c obj') c0).
    rewrite Hcell. destruct (Nat.eqb_spec c c0) as [<-|Hne].
    - fold (cell_at s c). rewrite Ec. split; [|discriminate].
      apply set_property_at_truthy.
    - split; auto. }
  assert (Hres : forall n, resolves s n = true ->
                           resolves (set_cell s c obj') n = true).
  { intros n Hn. unfold resolves in *. now rewrite (proj1 (Hdv n)). }
  destruct Hs as [Hcells Hall].
  destruct (Hall _ _ Ec) as [Hobj_ok Hobj_refs].
  destruct (set_property_at_part path obj key v Hv) as [Hpr Hpi].
  split; [|split; [|split]].
  - split.
    + intros n c0 Hn. cbn [set_cell cells definitions] in *.
      rewrite length_replace_nth. eauto.
    + intros i w Hi. rewrite Hcell in Hi.
      destruct (Nat.eqb_spec c i) as [<-|Hne].
      * inversion Hi; subst w. split; [now apply Hpi|].
        intros n Hn. apply Hres. apply Hpr in Hn. destruct Hn; auto.
      * destruct (Hall _ _ Hi) as [Hi1 Hi2]. split; auto.
  - repeat split.
    + cbn [set_cell cells]. rewrite length_replace_nth. lia.
    + intros n. apply Hdv.
    + exact Hres.
  - intros i Hi Hne. rewrite Hcell.
    destruct (Nat.eqb_spec c i); [congruence|reflexivity].
  - cbn [set_cell cells]. apply length_replace_nth.
Qed.

Lemma def_read_resolves s name old :
  def_read s name = Finished old -> js_truthy old = resolves s name.
Proof.
  unfold def_read, resolves. destruct (def_value s name) as [v|].
  - intros H. now inversion H.
  - destruct (is_inherited name); [discriminate|]. intros H. now inversion H.
Qed.

Lemma def_read_value s name old :
  def_read s name = Finished old -> old = def_value s name.
Proof.
  unfold def_read. destruct (def_value s name) as [v|].
  - intros H. now inversion H.
  - destruct (is_inherited name); [discriminate|]. intros H. now inversion H.
Qed.

Lemma prop_of_property x k v :
  prop_of x k = Finished v ->
  exists obj, x = Some obj /\ obj <> JNull /\ v = property obj k.
Proof.
  destruct x as [[| | | | |fields]|]; simpl; try discriminate;
    intros H; inversion H; subst; eexists; (split; [reflexivity|]);
    (split; [discriminate|reflexivity]).
Qed.

Lemma truthy_ref_name obj r :
  property obj (lit "$ref") = r -> js_truthy r = true ->
  forall name, replace_prefix r = Finished name -> In name (refs obj).
Proof.
  intros Hp Ht name Hn. destruct r as [[| | |t| |]|]; try discriminate.
  destruct t as [|c t]; [discriminate|]. simpl in Hn. inversion Hn; subst.
  now apply ref_in_refs.
Qed.

Lemma is_text_property obj k t :
  is_text (property obj k) t = true -> is_obj obj.
Proof.
  destruct obj; simpl; try discriminate. intros _. eexists; reflexivity.
Qed.

(** ** The walk keeps every reference resolved *)

Lemma evolves_refl c s : sound s -> evolves c s s.
Proof.
  intros H. split; [exact H|]. split; [apply extends_refl|].
  intros i _ _. reflexivity.
Qed.

Lemma evolves_trans c s1 s2 s3 :
  evolves c s1 s2 -> evolves c s2 s3 -> evolves c s1 s3.
Proof.
  intros (_ & He1 & Hu1) (Hs & He2 & Hu2).
  split; [exact Hs|]. split; [eapply extends_trans; eauto|].
  intros i Hi Hne. rewrite Hu2, Hu1; auto. destruct He1. lia.
Qed.

(** A walk over a cell that [s] does not have leaves the cells of [s]. *)
Lemma evolves_fresh c' s0 s1 s2 :
  length (cells s0) <= c' -> length (cells s0) <= length (cells s1) ->
  (forall i, i < length (cells s0) -> cell_at s1 i = cell_at s0 i) ->
  evolves c' s1 s2 ->
  forall i, i < length (cells s0) -> cell_at s2 i = cell_at s0 i.
Proof.
  intros Hc Hlen Hold (_ & _ & Hu) i Hi. rewrite Hu; auto; lia.
Qed.

Lemma find_sub_aux_prefix p r before :
  find_sub_aux p (p ++ r) before = Some (rev before, r).
Proof.
  assert (E : strip_prefix p (p ++ r) = Some r) by now apply strip_prefix_Some.
  destruct (p ++ r); simpl; now rewrite E.
Qed.

Lemma ref_name_ref_to name : ref_name (ref_to name) = name.
Proof.
  unfold ref_name, ref_to, find_sub. now rewrite find_sub_aux_prefix.
Qed.

Lemma ref_to_cons name : exists r, ref_to name = 35%N :: r.
Proof. eexists. reflexivity. Qed.

Lemma refs_ref_schema name : refs (ref_schema name) = [name].
Proof.
  pose proof (ref_name_ref_to name) as Hn.
  destruct (ref_to_cons name) as [r Hr]. unfold ref_schema. cbn [refs].
  cbn [assoc]. rewrite str_eqb_refl. rewrite Hr in *. cbn [flat_map snd refs app].
  now rewrite Hn.
Qed.

Lemma refs_array_of_ref name : refs (array_of_ref name) = [name].
Proof.
  pose proof (refs_ref_schema name) as Hn. unfold array_of_ref.
  cbn [refs]. cbn [flat_map snd app]. rewrite Hn.
  assert (E : assoc [(lit "type", JStr (lit "array"));
                     (lit "items", ref_schema name)] (lit "$ref") = None)
    by reflexivity.
  rewrite E. reflexivity.
Qed.

Lemma items_ok_ref_schema name : items_ok (ref_schema name) = true.
Proof. reflexivity. Qed.

Lemma items_ok_array_of_ref name : items_ok (array_of_ref name) = true.
Proof. reflexivity. Qed.

Lemma array_items_truthy obj item :
  items_ok obj = true ->
  is_text (property obj (lit "type")) (lit "array") = true ->
  property obj (lit "items") = Some item ->
  js_truthy (Some item) = true.
Proof.
  destruct obj as [| | | | |fields]; simpl; try discriminate.
  intros Hok Ht Hi. apply andb_prop in Hok. destruct Hok as [Hok _].
  rewrite Ht, Hi in Hok. exact Hok.
Qed.

(** The value of a name is the value of a cell. *)
Lemma def_value_cell s name v :
  def_value s name = Some v -> exists c, cell_at s c = Some v.
Proof.
  unfold def_value. destruct (assoc (definitions s) name) as [c|]; [|discriminate].
  eauto.
Qed.

Lemma lift_item_sound walker item item_ref itemName s s1 :
  keeps_sound walker -> sound s ->
  items_ok item = true -> js_truthy (Some item) = true ->
  (forall n, In n (refs item) -> resolves s n = true) ->
  item_ref = property item (lit "$ref") ->
  lift_item walker (Some item) item_ref itemName s = Finished s1 ->
  sound s1 /\ extends s s1 /\
  (forall i, i < length (cells s) -> cell_at s1 i = cell_at s i) /\
  resolves s1 itemName = true.
Proof.
  intros Hw Hs Hok Ht Hr Href H. unfold lift_item in H.
  assert (Hassign : forall v ci s',
            items_ok v = true -> js_truthy (Some v) = true ->
            (forall n, In n (refs v) -> resolves s n = true) ->
            def_assign s itemName v = Finished (ci, s') ->
            walker ci itemName s' = Finished s1 ->
            sound s1 /\ extends s s1 /\
            (forall i, i < length (cells s) -> cell_at s1 i = cell_at s i) /\
            resolves s1 itemName = true).
  { intros v ci s' Hvok Hvt Hvr Ha Hwalk.
    destruct (def_assign_sound _ _ _ _ _ Hs Hvok Hvt Hvr Ha) as (Hs' & He & Hres).
    destruct (def_assign_spec _ _ _ _ _ Ha) as (Hci & Hlen & _ & Hold & _).
    pose proof (Hw _ _ _ _ Hs' Hwalk) as Hev.
    split; [apply Hev|]. split; [eapply extends_trans; [exact He|apply Hev]|].
    split.
    - apply (evolves_fresh ci s s' s1); auto; lia.
    - destruct Hev as (_ & (_ & _ & Hmono) & _). auto. }
  destruct (js_truthy item_ref) eqn:Etr.
  - destruct (replace_prefix item_ref) as [oldRef| | |] eqn:Ep; try discriminate.
    cbn [wbind] in H.
    destruct (def_read s oldRef) as [old| | |] eqn:Ed; try discriminate.
    cbn [wbind] in H.
    assert (Hin : In oldRef (refs item)).
    { apply (truthy_ref_name item item_ref); auto. }
    pose proof (Hr _ Hin) as Hres.
    rewrite <- (def_read_resolves _ _ _ Ed) in Hres.
    pose proof (def_read_value _ _ _ Ed) as Hval.
    destruct old as [target|]; [|discriminate]. rewrite Hres in H.
    destruct (def_assign s itemName (clone target)) as [[ci s']| | |] eqn:Ea;
      try discriminate.
    cbn [wbind] in H.
    symmetry in Hval. destruct (def_value_cell _ _ _ Hval) as (c0 & Hc0).
    destruct Hs as [Hcells Hall]. destruct (Hall _ _ Hc0) as [Htok Htr].
    apply (Hassign target ci s'); auto.
  - destruct (def_assign s itemName item) as [[ci s']| | |] eqn:Ea;
      try discriminate.
    cbn [wbind] in H. apply (Hassign item ci s'); auto.
Qed.

(** What stands under a key of the properties of an object of a cell is
    a part of the value of the cell. *)
Lemma key_part s c path obj container key p :
  sound s -> object_at s c path = Some obj ->
  property obj (lit "properties") = Some container ->
  assoc (own_entries container) key = Some p ->
  items_ok p = true /\ forall n, In n (refs p) -> resolves s n = true.
Proof.
  intros [_ Hall] Ho Hc Hp. unfold object_at in Ho.
  destruct (cell_at s c) as [top|] eqn:Ec; [|discriminate].
  destruct (Hall _ _ Ec) as [Hok Hr].
  destruct (descend_part _ _ _ Ho) as [I1 O1].
  destruct (property_part _ _ _ Hc) as [I2 O2].
  destruct (entry_part _ _ _ Hp) as [I3 O3].
  split; [auto|]. intros n Hn. apply Hr, I1, I2, I3, Hn.
Qed.

(** A value gets a name, the property is rewritten to a reference to the
    name, and the value is walked under the name. *)
Lemma assign_write_walk_sound walker c path key name v s co s' s'' :
  keeps_sound walker -> sound s ->
  items_ok v = true -> js_truthy (Some v) = true ->
  (forall n, In n (refs v) -> resolves s n = true) ->
  def_assign s name v = Finished (co, s') ->
  walker co name (write_property s' c path key (ref_schema name)) = Finished s'' ->
  evolves c s s''.
Proof.
  intros Hw Hs Hok Ht Hr Ha Hwalk.
  destruct (def_assign_sound _ _ _ _ _ Hs Hok Ht Hr Ha) as (Hs' & He & Hres).
  destruct (def_assign_spec _ _ _ _ _ Ha) as (Hco & Hlen & _ & Hold & _).
  destruct (write_property_sound s' c path key (ref_schema name) Hs')
    as (Hsw & Hew & Huw & Hlw).
  { eexists. reflexivity. }
  { apply items_ok_ref_schema. }
  { intros n. rewrite refs_ref_schema. intros [<-|[]]. exact Hres. }
  destruct (Hw _ _ _ _ Hsw Hwalk) as (Hs'' & He'' & Hu'').
  split; [exact Hs''|]. split.
  - eapply extends_trans; [exact He|]. eapply extends_trans; [exact Hew|exact He''].
  - intros i Hi Hne. rewrite Hu'', Huw, Hold; auto; lia.
Qed.

Lemma PathNamed_process_key_sound self c currentName key s s' :
  keeps_sound self -> sound s ->
  PathNamed.process_key self c currentName key s = Finished s' ->
  evolves c s s'.
Proof.
  intros Hw Hs H. unfold PathNamed.process_key in H.
  destruct (prop_of (object_at s c []) (lit "properties")) as [props| | |] eqn:E1;
    try discriminate.
  cbn [wbind] in H.
  destruct (prop_of_property _ _ _ E1) as (obj & Ho & _ & ->).
  destruct (property obj (lit "properties")) as [container|] eqn:Ec;
    [|discriminate].
  destruct (assoc (own_entries container) key) as [p|] eqn:Ep; [|discriminate].
  destruct (key_part _ _ _ _ _ _ _ Hs Ho Ec Ep) as [Hpok Hpr].
  destruct (prop_of (Some p) (lit "type")) as [prop_type| | |] eqn:E2;
    try discriminate.
  cbn [wbind] in H.
  destruct (prop_of_property _ _ _ E2) as (p0 & Hp0 & _ & ->).
  injection Hp0 as <-.
  destruct (is_text (property p (lit "type")) (lit "array")) eqn:Earr.
  - destruct (prop_of (Some p) (lit "items")) as [itemSchema| | |] eqn:E3;
      try discriminate.
    cbn [wbind] in H.
    destruct (prop_of_property _ _ _ E3) as (p0 & Hp0 & _ & ->).
    injection Hp0 as <-.
    destruct (prop_of (property p (lit "items")) (lit "$ref"))
      as [item_ref| | |] eqn:E4; try discriminate.
    cbn [wbind] in H.
    destruct (prop_of_property _ _ _ E4) as (item & Hitem & _ & ->).
    rewrite Hitem in H.
    destruct (property_part _ _ _ Hitem) as [Ii Oi].
    destruct (lift_item self (Some item) (property item (lit "$ref"))
                ((currentName ++ toPascalCase key) ++ lit "Item") s)
      as [s1| | |] eqn:El; try discriminate.
    cbn [wbind] in H. injection H as <-.
    destruct (lift_item_sound _ _ _ _ _ _ Hw Hs (Oi Hpok)
                (array_items_truthy _ _ Hpok Earr Hitem)
                (fun n Hn => Hpr n (Ii n Hn)) eq_refl El)
      as (Hs1 & He1 & Hold & Hres).
    destruct (write_property_sound s1 c [] key
                (array_of_ref ((currentName ++ toPascalCase key) ++ lit "Item")) Hs1)
      as (Hsw & Hew & Huw & _).
    { eexists. reflexivity. }
    { apply items_ok_array_of_ref. }
    { intros n. rewrite refs_array_of_ref. intros [<-|[]]. exact Hres. }
    split; [exact Hsw|]. split; [eapply extends_trans; eauto|].
    intros i Hi Hne. rewrite Huw, Hold; auto. destruct He1. lia.
  - destruct (prop_of (Some p) (lit "properties")) as [pp| | |] eqn:E3;
      try discriminate.
    cbn [wbind] in H.
    destruct (is_text (property p (lit "type")) (lit "object") && js_truthy pp)
      eqn:Eobj.
    + apply andb_prop in Eobj. destruct Eobj as [Eobj _].
      destruct (def_assign s (currentName ++ toPascalCase key) (clone p))
        as [[co s0]| | |] eqn:Ea; try discriminate.
      cbn [wbind] in H.
      destruct (is_text_property _ _ _ Eobj) as [fields ->].
      eapply assign_write_walk_sound; eauto.
    + destruct (prop_of (Some p) (lit "$ref")) as [prop_ref| | |] eqn:E5;
        try discriminate.
      cbn [wbind] in H.
      destruct (js_truthy prop_ref) eqn:Etr; [|injection H as <-; now apply evolves_refl].
      destruct (replace_prefix prop_ref) as [oldRef| | |] eqn:Er; try discriminate.
      cbn [wbind] in H.
      destruct (def_read s oldRef) as [old| | |] eqn:Ed; try discriminate.
      cbn [wbind] in H.
      destruct old as [target|]; [|injection H as <-; now apply evolves_refl].
      destruct (js_truthy (Some target) && negb (str_eqb oldRef (currentName ++ toPascalCase key)))
        eqn:Eb; [|injection H as <-; now apply evolves_refl].
      apply andb_prop in Eb. destruct Eb as [Eb _].
      destruct (def_assign s (currentName ++ toPascalCase key) (clone target))
        as [[co s0]| | |] eqn:Ea; try discriminate.
      cbn [wbind] in H.
      pose proof (def_read_value _ _ _ Ed) as Hval. symmetry in Hval.
      destruct (def_value_cell _ _ _ Hval) as (c0 & Hc0).
      destruct Hs as [Hcells Hall]. destruct (Hall _ _ Hc0) as [Htok Htr].
      eapply assign_write_walk_sound; eauto. split; auto.
Qed.

Lemma for_keys_sound body c keys :
  (forall key s s', sound s -> body key s = Finished s' -> evolves c s s') ->
  forall s s', sound s -> for_keys body keys s = Finished s' -> evolves c s s'.
Proof.
  intros Hb. induction keys as [|key rest IH]; intros s s' Hs H; simpl in H.
  - injection H as <-. now apply evolves_refl.
  - destruct (body key s) as [s1| | |] eqn:E; try discriminate.
    cbn [wbind] in H. pose proof (Hb _ _ _ Hs E) as Hev.
    eapply evolves_trans; [exact Hev|]. apply IH; [apply Hev|exact H].
Qed.

Lemma PathNamed_processObject_sound fuel :
  keeps_sound (PathNamed.processObject fuel).
Proof.
  induction fuel as [|fuel IH]; intros c name s s' Hs H;
    cbn [PathNamed.processObject] in H; [discriminate|].
  destruct (cell_at s c) as [obj|]; [|discriminate].
  destruct (negb (js_truthy (Some obj)) || negb (is_object obj));
    [injection H as <-; now apply evolves_refl|].
  destruct (prop_of (Some obj) (lit "properties")) as [props| | |];
    try discriminate.
  cbn [wbind] in H.
  destruct (js_truthy props); [|injection H as <-; now apply evolves_refl].
  revert H. apply for_keys_sound; [|exact Hs].
  intros key s0 s1 Hs0. now apply PathNamed_process_key_sound.
Qed.

Lemma ArrayLayer_process_key_sound self c path currentName key s s' :
  (forall p, keeps_sound (fun ci => self ci p)) -> sound s ->
  ArrayLayer.process_key self c path currentName key s = Finished s' ->
  evolves c s s'.
Proof.
  intros Hw Hs H. unfold ArrayLayer.process_key in H.
  destruct (prop_of (object_at s c path) (lit "properties")) as [props| | |] eqn:E1;
    try discriminate.
  cbn [wbind] in H.
  destruct (prop_of_property _ _ _ E1) as (obj & Ho & _ & ->).
  destruct (property obj (lit "properties")) as [container|] eqn:Ec;
    [|discriminate].
  destruct (assoc (own_entries container) key) as [p|] eqn:Ep; [|discriminate].
  destruct (key_part _ _ _ _ _ _ _ Hs Ho Ec Ep) as [Hpok Hpr].
  destruct (prop_of (Some p) (lit "type")) as [prop_type| | |] eqn:E2;
    try discriminate.
  cbn [wbind] in H.
  destruct (prop_of_property _ _ _ E2) as (p0 & Hp0 & _ & ->).
  injection Hp0 as <-.
  destruct (is_text (property p (lit "type")) (lit "array")) eqn:Earr.
  - destruct (prop_of (Some p) (lit "items")) as [itemSchema| | |] eqn:E3;
      try discriminate.
    cbn [wbind] in H.
    destruct (prop_of_property _ _ _ E3) as (p0 & Hp0 & _ & ->).
    injection Hp0 as <-.
    destruct (prop_of (property p (lit "items")) (lit "$ref"))
      as [item_ref| | |] eqn:E4; try discriminate.
    cbn [wbind] in H.
    destruct (prop_of_property _ _ _ E4) as (item & Hitem & _ & ->).
    rewrite Hitem in H.
    destruct (property_part _ _ _ Hitem) as [Ii Oi].
    destruct (lift_item (fun ci => self ci []) (Some item)
                (property item (lit "$ref"))
                ((currentName ++ toPascalCase key) ++ lit "Item") s)
      as [s1| | |] eqn:El; try discriminate.
    cbn [wbind] in H.
    destruct (lift_item_sound _ _ _ _ _ _ (Hw []) Hs (Oi Hpok)
                (array_items_truthy _ _ Hpok Earr Hitem)
                (fun n Hn => Hpr n (Ii n Hn)) eq_refl El)
      as (Hs1 & He1 & Hold & Hres).
    destruct (def_assign s1 (currentName ++ toPascalCase key)
                (array_of_ref ((currentName ++ toPascalCase key) ++ lit "Item")))
      as [[ca s2]| | |] eqn:Ea; try discriminate.
    cbn [wbind] in H. injection H as <-.
    assert (Hr1 : forall n,
              In n (refs (array_of_ref
                            ((currentName ++ toPascalCase key) ++ lit "Item"))) ->
              resolves s1 n = true).
    { intros n. rewrite refs_array_of_ref. intros [<-|[]]. exact Hres. }
    destruct (def_assign_sound _ _ _ _ _ Hs1 (items_ok_array_of_ref _) eq_refl
                Hr1 Ea)
      as (Hs2 & He2 & Hres2).
    destruct (def_assign_spec _ _ _ _ _ Ea) as (_ & _ & _ & Hold2 & _).
    destruct (write_property_sound s2 c path key
                (ref_schema (currentName ++ toPascalCase key)) Hs2)
      as (Hsw & Hew & Huw & _).
    { eexists. reflexivity. }
    { apply items_ok_ref_schema. }
    { intros n. rewrite refs_ref_schema. intros [<-|[]]. exact Hres2. }
    split; [exact Hsw|]. split.
    + eapply extends_trans; [exact He1|]. eapply extends_trans; eauto.
    + destruct He1 as [Hl1 _]. destruct He2 as [Hl2 _].
      intros i Hi Hne. rewrite Huw, Hold2, Hold; auto; lia.
  - destruct (is_text (property p (lit "type")) (lit "object")).
    + exact (Hw _ _ _ _ _ Hs H).
    + destruct (prop_of (Some p) (lit "$ref")) as [prop_ref| | |];
        try discriminate.
      cbn [wbind] in H.
      destruct (js_truthy prop_ref); [|injection H as <-; now apply evolves_refl].
      destruct (replace_prefix prop_ref); try discriminate.
      cbn [wbind] in H. injection H as <-. now apply evolves_refl.
Qed.

Lemma ArrayLayer_processObject_sound fuel path :
  keeps_sound (fun c => ArrayLayer.processObject fuel c path).
Proof.
  revert path.
  induction fuel as [|fuel IH]; intros path c name s s' Hs H;
    cbn [ArrayLayer.processObject] in H; [discriminate|].
  destruct (object_at s c path) as [obj|]; [|discriminate].
  destruct (negb (js_truthy (Some obj)) || negb (is_object obj));
    [injection H as <-; now apply evolves_refl|].
  destruct (prop_of (Some obj) (lit "properties")) as [props| | |];
    try discriminate.
  cbn [wbind] in H.
  destruct (js_truthy props); [|injection H as <-; now apply evolves_refl].
  revert H. apply for_keys_sound; [|exact Hs].
  intros key s0 s1 Hs0. now apply ArrayLayer_process_key_sound.
Qed.

(** ** From the draft to the store and back *)

Lemma assoc_combine_seq (defs : list (str * json)) name : forall pre,
  match assoc (combine (map fst defs) (seq (length pre) (length defs))) name with
  | Some c => nth_error (pre ++ map snd defs) c
  | None => None
  end = assoc defs name.
Proof.
  induction defs as [|[k v] rest IH]; intros pre; [reflexivity|].
  cbn [map fst snd length seq combine assoc].
  destruct (str_eqb k name).
  - rewrite nth_error_app2 by lia. now rewrite Nat.sub_diag.
  - specialize (IH (pre ++ [v])). rewrite length_app, Nat.add_1_r in IH.
    now rewrite <- app_assoc in IH.
Qed.

(** The store of a draft has the definitions of the draft. *)
Lemma def_value_initial fields defs name :
  def_value (initial_store fields defs) name = assoc defs name.
Proof.
  unfold def_value, cell_at, initial_store. cbn [definitions cells].
  exact (assoc_combine_seq defs name
           [JObj (assoc_set fields (lit "definitions") (JObj []))]).
Qed.

Lemma assoc_set_twice {A} (l : list (str * A)) k v v' :
  assoc_set (assoc_set l k v) k v' = assoc_set l k v'.
Proof.
  induction l as [|[k0 v0] rest IH]; simpl.
  - now rewrite str_eqb_refl.
  - destruct (str_eqb k0 k) eqn:E; simpl; rewrite E; [reflexivity|].
    now rewrite IH.
Qed.

Lemma initial_store_sound fields defs :
  items_ok (JObj fields) = true ->
  (forall v, In v (map snd defs) -> items_ok v = true) ->
  (forall n, In n (refs (JObj (assoc_set fields (lit "definitions") (JObj []))))
             -> js_truthy (assoc defs n) = true) ->
  (forall n, In n (flat_map (fun kv => refs (snd kv)) defs) ->
             js_truthy (assoc defs n) = true) ->
  sound (initial_store fields defs).
Proof.
  intros Hok Hdok Hroot Hdefs. split.
  - intros name c Ha. apply assoc_In, in_combine_r, in_seq in Ha.
    cbn [initial_store cells length]. rewrite length_map. lia.
  - intros c v Hc. unfold resolves.
    assert (Hres : forall n, def_value (initial_store fields defs) n
                             = assoc defs n) by apply def_value_initial.
    unfold cell_at in Hc. cbn [initial_store cells] in Hc.
    destruct c as [|c]; cbn [nth_error] in Hc.
    + injection Hc as <-. split.
      * apply items_ok_assoc_set; auto. left. now exists [].
      * intros n Hn. rewrite Hres. auto.
    + apply nth_error_In in Hc. split; [auto|].
      intros n Hn. rewrite Hres. apply Hdefs.
      apply in_map_iff in Hc. destruct Hc as (kv & <- & Hkv).
      apply in_flat_map. eauto.
Qed.

Lemma initial_store_bare fields :
  items_ok (JObj fields) = true ->
  (forall n, In n (refs (JObj (assoc_set fields (lit "definitions") (JObj []))))
             -> False) ->
  sound (initial_store fields []).
Proof.
  intros Hok Hnone.
  apply initial_store_sound;
    [exact Hok | intros v [] | intros n Hn; destruct (Hnone n Hn) | intros n []].
Qed.

Lemma open_schema_sound schema s :
  draft_ok schema -> open_schema schema = Finished s -> sound s.
Proof.
  intros [Hok Hrefs] H. unfold open_schema in H.
  destruct schema as [| | | | |fields]; try discriminate.
  unfold schema_refs, definition_of in Hrefs. cbn [property] in Hrefs.
  destruct (assoc fields (lit "definitions")) as [d|] eqn:Ed.
  - destruct d as [| | | | |defs];
      try (match type of H with (if ?b then _ else _) = _ => destruct b end;
           [discriminate|]; injection H as <-;
           apply initial_store_bare; [exact Hok|];
           intros m Hm; specialize (Hrefs m); rewrite app_nil_r in Hrefs;
           specialize (Hrefs Hm); discriminate).
    destruct (existsb _ defs); [discriminate|]. injection H as <-.
    assert (Hdok : items_ok (JObj defs) = true)
      by (eapply items_ok_field; eauto).
    cbn [items_ok] in Hdok. apply andb_prop in Hdok. destruct Hdok as [_ Hdok].
    rewrite forallb_forall in Hdok.
    apply initial_store_sound; [exact Hok| | |].
    + intros v Hv. apply in_map_iff in Hv. destruct Hv as (kv & <- & Hkv). auto.
    + intros n Hn. apply (Hrefs n). apply in_or_app. now left.
    + intros n Hn. apply (Hrefs n). apply in_or_app. now right.
  - cbn [js_truthy] in H. injection H as <-.
    apply initial_store_bare; [exact Hok|].
    intros n Hn. specialize (Hrefs n). rewrite app_nil_r in Hrefs.
    specialize (Hrefs Hn). discriminate.
Qed.

(** The [definitions] object of a store has the value of every name
    whose cell the store has. *)
Lemma definitions_object_value s name :
  sound s -> property (definitions_object s) name = def_value s name.
Proof.
  intros [Hcells _]. unfold definitions_object, def_value. cbn [property].
  specialize (Hcells name).
  induction (definitions s) as [|[k c] rest IH]; [reflexivity|].
  cbn [flat_map fst snd assoc] in *.
  destruct (str_eqb k name) eqn:E.
  - specialize (Hcells c eq_refl).
    destruct (cell_at s c) as [v|] eqn:Ec.
    + cbn [app assoc]. now rewrite E.
    + apply nth_error_None in Ec. lia.
  - destruct (cell_at s c) as [v|]; cbn [app assoc]; [rewrite E|]; now apply IH.
Qed.

Lemma filter_nil {A} (f : A -> bool) l :
  (forall x, In x l -> f x = false) -> filter f l = [].
Proof.
  induction l as [|a l IH]; intros H; [reflexivity|]. simpl.
  rewrite (H a) by now left. apply IH. intros x Hx. apply H. now right.
Qed.

(** The schema that is read back from a sound store has no reference
    without a definition. *)
Lemma schema_of_no_dangling s result :
  sound s -> schema_of s = Finished result -> dangling result = [].
Proof.
  intros Hs H. unfold schema_of in H.
  destruct (cell_at s schema_cell) as [[| | | | |fields]|] eqn:Ec;
    try discriminate.
  injection H as <-.
  pose proof (definitions_object_value s) as Hval.
  destruct Hs as [Hcells Hall].
  destruct (Hall _ _ Ec) as [_ Hroot].
  unfold dangling. apply filter_nil. intros name Hname.
  unfold definition_of. cbn [property]. rewrite assoc_set_same.
  rewrite Hval by (split; assumption).
  enough (Hres : resolves s name = true).
  { unfold resolves in Hres. now destruct (def_value s name). }
  unfold schema_refs in Hname. rewrite assoc_set_twice, assoc_set_same in Hname.
  apply in_app_or in Hname. destruct Hname as [Hname|Hname].
  - apply refs_assoc_set in Hname; [|left; now exists []].
    destruct Hname as [Hname|[]]. auto.
  - unfold definitions_object in Hname.
    apply in_flat_map in Hname. destruct Hname as ([k v] & Hkv & Hn).
    apply in_flat_map in Hkv. destruct Hkv as ([k' c] & _ & Hkv).
    cbn [fst snd] in *.
    destruct (cell_at s c) as [v'|] eqn:Ec'; [|destruct Hkv].
    destruct Hkv as [Hkv|[]]. injection Hkv as <- <-.
    destruct (Hall _ _ Ec') as [_ Hr]. auto.
Qed.

Lemma PathNamed_restructure_sound fuel schema rootName result :
  draft_ok schema ->
  PathNamed.restructureArrays fuel schema rootName = Finished result ->
  dangling result = [].
Proof.
  intros Hd H. unfold PathNamed.restructureArrays in H.
  destruct (open_schema schema) as [s| | |] eqn:Eo; try discriminate.
  cbn [wbind] in H.
  destruct (PathNamed.processObject fuel schema_cell rootName s)
    as [s'| | |] eqn:Ew; try discriminate.
  cbn [wbind] in H.
  pose proof (open_schema_sound _ _ Hd Eo) as Hs.
  destruct (PathNamed_processObject_sound fuel _ _ _ _ Hs Ew) as [Hs' _].
  eapply schema_of_no_dangling; eauto.
Qed.

Lemma ArrayLayer_restructure_sound fuel schema rootName result :
  draft_ok schema ->
  ArrayLayer.restructureArrays fuel schema rootName = Finished result ->
  dangling result = [].
Proof.
  intros Hd H. unfold ArrayLayer.restructureArrays in H.
  destruct (open_schema schema) as [s| | |] eqn:Eo; try discriminate.
  cbn [wbind] in H.
  destruct (ArrayLayer.processObject fuel schema_cell [] rootName s)
    as [s'| | |] eqn:Ew; try discriminate.
  cbn [wbind] in H.
  pose proof (open_schema_sound _ _ Hd Eo) as Hs.
  destruct (ArrayLayer_processObject_sound fuel [] _ _ _ _ Hs Ew) as [Hs' _].
  eapply schema_of_no_dangling; eauto.
Qed.

(** ** What a write to a property changes *)

Lemma indexed_map_entries (g : str * json -> json) items : forall i,
  indexed (map g (indexed items i)) i
  = map (fun kv => (fst kv, g kv)) (indexed items i).
Proof.
  induction items as [|x rest IH]; intros i; [reflexivity|].
  cbn [indexed map fst]. now rewrite IH.
Qed.

Lemma assoc_map_entries (g : str * json -> json) l k :
  assoc (map (fun kv => (fst kv, g kv)) l) k
  = match assoc l k with
    | Some v => Some (g (k, v))
    | None => None
    end.
Proof.
  induction l as [|[k0 v0] rest IH]; [reflexivity|].
  cbn [map assoc fst]. destruct (str_eqb k0 k) eqn:E; [|exact IH].
  apply str_eqb_eq in E. now subst.
Qed.

Lemma entry_set_other container k k' v :
  k <> k' ->
  assoc (own_entries (entry_set container k' v)) k
  = assoc (own_entries container) k.
Proof.
  intros Hne. destruct container as [| | | |items|fields]; try reflexivity.
  - cbn [entry_set own_entries]. rewrite indexed_map_entries, assoc_map_entries.
    destruct (assoc (indexed items 0) k); [|reflexivity].
    cbn [fst snd]. now rewrite (str_eqb_neq k k').
  - cbn [entry_set own_entries]. apply assoc_set_other. congruence.
Qed.

Lemma entry_set_same container k v old :
  assoc (own_entries container) k = Some old ->
  assoc (own_entries (entry_set container k v)) k = Some v.
Proof.
  destruct container as [| | | |items|fields]; try discriminate.
  - intros H. cbn [entry_set own_entries] in *.
    rewrite indexed_map_entries, assoc_map_entries, H.
    cbn [fst]. now rewrite str_eqb_refl.
  - intros _. cbn [entry_set own_entries]. apply assoc_set_same.
Qed.

Lemma property_schema_set_other obj k k' v :
  k <> k' ->
  property_schema (set_property obj k' v) k = property_schema obj k.
Proof.
  intros Hne. unfold set_property.
  destruct obj as [| | | | |fields]; try reflexivity.
  destruct (assoc fields (lit "properties")) as [container|] eqn:E;
    [|reflexivity].
  unfold property_schema. cbn [property]. rewrite assoc_set_same, E.
  now apply entry_set_other.
Qed.

Lemma property_schema_set_same obj k v old :
  property_schema obj k = Some old ->
  property_schema (set_property obj k v) k = Some v.
Proof.
  unfold set_property, property_schema.
  destruct obj as [| | | | |fields]; try discriminate. cbn [property].
  destruct (assoc fields (lit "properties")) as [container|] eqn:E;
    [|discriminate].
  intros H. cbn [property]. rewrite assoc_set_same.
  now apply (entry_set_same container k v old).
Qed.

Lemma descend_step obj k rest :
  descend obj (k :: rest)
  = match property_schema obj k with
    | Some child => descend child rest
    | None => None
    end.
Proof.
  unfold property_schema. cbn [descend].
  destruct obj as [| | | | |fields]; try reflexivity. cbn [property].
  now destruct (assoc fields (lit "properties")).
Qed.

Lemma descend_set_at_same p : forall obj o key v,
  descend obj p = Some o ->
  descend (set_property_at obj p key v) p = Some (set_property o key v).
Proof.
  induction p as [|k rest IH]; intros obj o key v H.
  - cbn [descend] in H. injection H as <-. reflexivity.
  - cbn [set_property_at]. rewrite descend_step in H.
    rewrite (descend_step obj k []).
    destruct (property_schema obj k) as [child|] eqn:E; [|discriminate].
    change (descend child []) with (Some child). cbv beta iota.
    rewrite descend_step.
    rewrite (property_schema_set_same obj k _ child E). now apply IH.
Qed.

Lemma descend_set_at_leaves p : forall obj key v q,
  leaves (p ++ [key]) q = true ->
  descend (set_property_at obj p key v) q = descend obj q.
Proof.
  induction p as [|b rest IH]; intros obj key v q H.
  - destruct q as [|a q']; [discriminate|]. cbn [app leaves] in H.
    destruct (str_eqb a key) eqn:E; [now destruct q'|].
    cbn [set_property_at]. rewrite !descend_step.
    rewrite property_schema_set_other; [reflexivity|].
    now apply str_eqb_false.
  - destruct q as [|a q']; [discriminate|]. cbn [app leaves] in H.
    cbn [set_property_at]. rewrite (descend_step obj b []).
    destruct (property_schema obj b) as [child|] eqn:Eb; [|reflexivity].
    change (descend child []) with (Some child). cbv beta iota.
    rewrite !descend_step.
    destruct (str_eqb a b) eqn:E.
    + apply str_eqb_eq in E. subst a.
      rewrite (property_schema_set_same obj b _ child Eb), Eb. now apply IH.
    + rewrite property_schema_set_other; [reflexivity|].
      now apply str_eqb_false.
Qed.

Lemma leaves_sibling p k k' : k <> k' -> leaves (p ++ [k']) (p ++ [k]) = true.
Proof.
  intros Hne. induction p as [|a p IH]; cbn [app leaves].
  - now rewrite (str_eqb_neq k k').
  - now rewrite str_eqb_refl.
Qed.

Lemma leaves_longer p r : forall q, leaves p q = true -> leaves (p ++ r) q = true.
Proof.
  induction p as [|b p IH]; intros q H; [destruct q; discriminate|].
  destruct q as [|a q]; [discriminate|]. cbn [app leaves] in *.
  destruct (str_eqb a b); auto.
Qed.

Lemma object_at_cell s s' c q :
  cell_at s' c = cell_at s c -> object_at s' c q = object_at s c q.
Proof. unfold object_at. now intros ->. Qed.

Lemma object_at_lt s c q o : object_at s c q = Some o -> c < length (cells s).
Proof.
  unfold object_at. destruct (cell_at s c) as [top|] eqn:E; [|discriminate].
  intros _. now apply (cell_at_lt s c top).
Qed.

Lemma object_at_snoc s c p key :
  object_at s c (p ++ [key])
  = match object_at s c p with
    | Some o => property_schema o key
    | None => None
    end.
Proof.
  unfold object_at. destruct (cell_at s c) as [top|]; [|reflexivity].
  rewrite descend_app. destruct (descend top p) as [o|]; [|reflexivity].
  rewrite descend_step. now destruct (property_schema o key).
Qed.

Lemma cell_at_write s c p key v o :
  cell_at s c = Some o ->
  cell_at (write_property s c p key v) c = Some (set_property_at o p key v).
Proof.
  intros H. unfold write_property. rewrite H.
  rewrite cell_at_set_cell, Nat.eqb_refl.
  apply cell_at_lt, Nat.ltb_lt in H. now rewrite H.
Qed.

Lemma cell_at_write_congr s0 s c p key v :
  cell_at s0 c = cell_at s c ->
  cell_at (write_property s0 c p key v) c
  = cell_at (write_property s c p key v) c.
Proof.
  intros H. destruct (cell_at s c) as [o|] eqn:E.
  - rewrite (cell_at_write s0 c p key v o H).
    now rewrite (cell_at_write s c p key v o E).
  - unfold write_property. now rewrite H, E, H.
Qed.

Lemma object_at_write_same s c p key v o :
  object_at s c p = Some o ->
  object_at (write_property s c p key v) c p = Some (set_property o key v).
Proof.
  unfold object_at at 1. destruct (cell_at s c) as [top|] eqn:E; [|discriminate].
  intros H. unfold object_at. rewrite (cell_at_write s c p key v top E).
  now apply descend_set_at_same.
Qed.

Lemma object_at_write_leaves s c p key v q :
  leaves (p ++ [key]) q = true ->
  object_at (write_property s c p key v) c q = object_at s c q.
Proof.
  intros H. destruct (cell_at s c) as [top|] eqn:E.
  - unfold object_at. rewrite (cell_at_write s c p key v top E), E.
    now apply descend_set_at_leaves.
  - unfold write_property. now rewrite E.
Qed.

(** The property that a write sets has the value written. *)
Lemma object_at_write_key s c p key v old :
  object_at s c (p ++ [key]) = Some old ->
  object_at (write_property s c p key v) c (p ++ [key]) = Some v.
Proof.
  rewrite !object_at_snoc.
  destruct (object_at s c p) as [o|] eqn:E; [|discriminate].
  rewrite (object_at_write_same s c p key v o E).
  apply property_schema_set_same.
Qed.

Lemma resolves_def_assign_other s name v ci s' n :
  sound s -> def_assign s name v = Finished (ci, s') ->
  resolves s n = true -> n <> name -> resolves s' n = true.
Proof.
  intros Hs Ha Hn Hne. unfold resolves in *.
  destruct (def_assign_spec _ _ _ _ _ Ha) as (_ & _ & _ & _ & _ & Hother).
  now rewrite (Hother Hs n Hne).
Qed.

(** ** What the visit of a key does to the object it belongs to *)

Lemma assign_write_walk_cell walker c path key name v s co s0 s' :
  keeps_sound walker -> sound s ->
  items_ok v = true -> js_truthy (Some v) = true ->
  (forall n, In n (refs v) -> resolves s n = true) ->
  c < length (cells s) ->
  def_assign s name v = Finished (co, s0) ->
  walker co name (write_property s0 c path key (ref_schema name)) = Finished s' ->
  cell_at s' c = cell_at (write_property s c path key (ref_schema name)) c.
Proof.
  intros Hw Hs Hok Ht Hr Hc Ha Hwalk.
  destruct (def_assign_sound _ _ _ _ _ Hs Hok Ht Hr Ha) as (Hs0 & He & Hres).
  destruct (def_assign_spec _ _ _ _ _ Ha) as (Hco & Hlen & _ & Hold & _).
  destruct (write_property_sound s0 c path key (ref_schema name) Hs0)
    as (Hsw & Hew & Huw & Hlw).
  { eexists. reflexivity. }
  { apply items_ok_ref_schema. }
  { intros n. rewrite refs_ref_schema. intros [<-|[]]. exact Hres. }
  destruct (Hw _ _ _ _ Hsw Hwalk) as (_ & _ & Hu).
  rewrite Hu by lia. apply cell_at_write_congr. now apply Hold.
Qed.

Lemma PathNamed_process_key_effect self c name key s s' :
  keeps_sound self -> sound s ->
  PathNamed.process_key self c name key s = Finished s' ->
  (forall q, leaves [key] q = true -> object_at s' c q = object_at s c q) /\
  (forall prop,
     object_at s c [key] = Some prop ->
     is_text (property prop (lit "type")) (lit "array") = true ->
     object_at s' c [key]
     = Some (array_of_ref ((name ++ toPascalCase key) ++ lit "Item")) /\
     resolves s' ((name ++ toPascalCase key) ++ lit "Item") = true).
Proof.
  intros Hw Hs H. unfold PathNamed.process_key in H.
  destruct (prop_of (object_at s c []) (lit "properties")) as [props| | |] eqn:E1;
    try discriminate.
  cbn [wbind] in H.
  destruct (prop_of_property _ _ _ E1) as (obj & Ho & _ & ->).
  pose proof (object_at_lt _ _ _ _ Ho) as Hc.
  destruct (property obj (lit "properties")) as [container|] eqn:Ec;
    [|discriminate].
  destruct (assoc (own_entries container) key) as [p|] eqn:Ep; [|discriminate].
  destruct (key_part _ _ _ _ _ _ _ Hs Ho Ec Ep) as [Hpok Hpr].
  assert (Hkey : object_at s c [key] = Some p).
  { change [key] with ([] ++ [key]). rewrite object_at_snoc, Ho.
    unfold property_schema. now rewrite Ec. }
  assert (Hframe : forall v,
            cell_at s' c = cell_at (write_property s c [] key v) c ->
            forall q, leaves [key] q = true ->
                      object_at s' c q = object_at s c q).
  { intros v Hcell q Hq. rewrite (object_at_cell _ _ _ q Hcell).
    now apply object_at_write_leaves. }
  destruct (prop_of (Some p) (lit "type")) as [prop_type| | |] eqn:E2;
    try discriminate.
  cbn [wbind] in H.
  destruct (prop_of_property _ _ _ E2) as (p0 & Hp0 & _ & ->).
  injection Hp0 as <-.
  destruct (is_text (property p (lit "type")) (lit "array")) eqn:Earr.
  - destruct (prop_of (Some p) (lit "items")) as [itemSchema| | |] eqn:E3;
      try discriminate.
    cbn [wbind] in H.
    destruct (prop_of_property _ _ _ E3) as (p0 & Hp0 & _ & ->).
    injection Hp0 as <-.
    destruct (prop_of (property p (lit "items")) (lit "$ref"))
      as [item_ref| | |] eqn:E4; try discriminate.
    cbn [wbind] in H.
    destruct (prop_of_property _ _ _ E4) as (item & Hitem & _ & ->).
    rewrite Hitem in H.
    destruct (property_part _ _ _ Hitem) as [Ii Oi].
    set (itemName := (name ++ toPascalCase key) ++ lit "Item") in *.
    destruct (lift_item self (Some item) (property item (lit "$ref")) itemName s)
      as [s1| | |] eqn:El; try discriminate.
    cbn [wbind] in H. injection H as <-.
    destruct (lift_item_sound _ _ _ _ _ _ Hw Hs (Oi Hpok)
                (array_items_truthy _ _ Hpok Earr Hitem)
                (fun n Hn => Hpr n (Ii n Hn)) eq_refl El)
      as (Hs1 & He1 & Hold & Hres).
    destruct (write_property_sound s1 c [] key (array_of_ref itemName) Hs1)
      as (_ & (_ & _ & Hew) & _ & _).
    { eexists. reflexivity. }
    { apply items_ok_array_of_ref. }
    { intros n. rewrite refs_array_of_ref. intros [<-|[]]. exact Hres. }
    split.
    + apply (Hframe (array_of_ref itemName)).
      apply cell_at_write_congr. now apply Hold.
    + intros prop _ _. split; [|now apply Hew].
      apply (object_at_write_key s1 c [] key _ p).
      cbn [app]. rewrite <- Hkey. apply object_at_cell. now apply Hold.
  - split; [|intros prop Hprop Harr; rewrite Hkey in Hprop;
             injection Hprop as <-; congruence].
    destruct (prop_of (Some p) (lit "properties")) as [pp| | |] eqn:E3;
      try discriminate.
    cbn [wbind] in H.
    destruct (is_text (property p (lit "type")) (lit "object") && js_truthy pp)
      eqn:Eobj.
    + apply andb_prop in Eobj. destruct Eobj as [Eobj _].
      destruct (def_assign s (name ++ toPascalCase key) (clone p))
        as [[co s0]| | |] eqn:Ea; try discriminate.
      cbn [wbind] in H.
      destruct (is_text_property _ _ _ Eobj) as [fields ->].
      apply (Hframe (ref_schema (name ++ toPascalCase key))).
      eapply assign_write_walk_cell; eauto.
    + destruct (prop_of (Some p) (lit "$ref")) as [prop_ref| | |] eqn:E5;
        try discriminate.
      cbn [wbind] in H.
      destruct (js_truthy prop_ref) eqn:Etr; [|injection H as <-; reflexivity].
      destruct (replace_prefix prop_ref) as [oldRef| | |] eqn:Er; try discriminate.
      cbn [wbind] in H.
      destruct (def_read s oldRef) as [old| | |] eqn:Ed; try discriminate.
      cbn [wbind] in H.
      destruct old as [target|]; [|injection H as <-; reflexivity].
      destruct (js_truthy (Some target)
                && negb (str_eqb oldRef (name ++ toPascalCase key)))
        eqn:Eb; [|injection H as <-; reflexivity].
      apply andb_prop in Eb. destruct Eb as [Eb _].
      destruct (def_assign s (name ++ toPascalCase key) (clone target))
        as [[co s0]| | |] eqn:Ea; try discriminate.
      cbn [wbind] in H.
      pose proof (def_read_value _ _ _ Ed) as Hval. symmetry in Hval.
      destruct (def_value_cell _ _ _ Hval) as (c0 & Hc0).
      destruct (proj2 Hs _ _ Hc0) as [Htok Htr].
      apply (Hframe (ref_schema (name ++ toPascalCase key))).
      eapply assign_write_walk_cell; eauto.
Qed.

(** Over the keys of an object: what the visit of [key] brings about
    ([R]) from what stood before ([L]) holds at the end, when the visits
    of the other keys keep both. *)
Lemma for_keys_visit body (L R : store -> Prop) key keys :
  (forall k s s', sound s -> body k s = Finished s' -> sound s') ->
  (forall k s s', sound s -> k <> key -> body k s = Finished s' ->
                  (L s -> L s') /\ (R s -> R s')) ->
  (forall s s', sound s -> body key s = Finished s' -> L s \/ R s -> R s') ->
  forall s s', sound s -> L s \/ R s -> for_keys body keys s = Finished s' ->
               (L s' \/ R s') /\ (R s \/ In key keys -> R s').
Proof.
  intros Hsound Hkeep Hvisit.
  induction keys as [|k rest IH]; intros s s' Hs HLR H; cbn [for_keys] in H.
  - injection H as <-. split; [exact HLR|]. now intros [HR|[]].
  - destruct (body k s) as [s1| | |] eqn:E; try discriminate.
    cbn [wbind] in H. pose proof (Hsound _ _ _ Hs E) as Hs1.
    destruct (list_eq_dec N.eq_dec k key) as [->|Hne].
    + pose proof (Hvisit _ _ Hs E HLR) as HR1.
      destruct (IH _ _ Hs1 (or_intror HR1) H) as [HLR' HR'].
      split; [exact HLR'|]. intros _. apply HR'. now left.
    + destruct (Hkeep _ _ _ Hs Hne E) as [HL1 HR1].
      assert (HLR1 : L s1 \/ R s1) by (destruct HLR; auto).
      destruct (IH _ _ Hs1 HLR1 H) as [HLR' HR'].
      split; [exact HLR'|]. intros [HR|[Hk|Hin]]; auto. congruence.
Qed.

Lemma for_keys_keeps {A} body (f : store -> A) keys :
  (forall k s s', sound s -> body k s = Finished s' -> sound s' /\ f s' = f s) ->
  forall s s', sound s -> for_keys body keys s = Finished s' -> f s' = f s.
Proof.
  intros Hstep. induction keys as [|k rest IH]; intros s s' Hs H;
    cbn [for_keys] in H.
  - now injection H as <-.
  - destruct (body k s) as [s1| | |] eqn:E; try discriminate.
    cbn [wbind] in H. destruct (Hstep _ _ _ Hs E) as [Hs1 Hf].
    rewrite <- Hf. now apply IH.
Qed.

(** An object that has a property has its properties in an object or an
    array. *)
Lemma property_schema_container obj key prop :
  property_schema obj key = Some prop ->
  exists fields container,
    obj = JObj fields /\ assoc fields (lit "properties") = Some container /\
    js_truthy (Some container) = true /\
    In key (map fst (own_entries container)).
Proof.
  unfold property_schema. destruct obj as [| | | | |fields]; try discriminate.
  cbn [property].
  destruct (assoc fields (lit "properties")) as [container|] eqn:E;
    [|discriminate].
  intros H. exists fields, container. split; [reflexivity|]. split; [exact E|].
  split.
  - destruct container; try discriminate; reflexivity.
  - apply assoc_In in H. now apply (in_map fst) in H.
Qed.

Lemma array_of_ref_typed name :
  is_text (property (array_of_ref name) (lit "type")) (lit "array") = true.
Proof. reflexivity. Qed.

Lemma PathNamed_processObject_lifts fuel c name key s s' prop :
  sound s ->
  object_at s c [key] = Some prop ->
  is_text (property prop (lit "type")) (lit "array") = true ->
  PathNamed.processObject fuel c name s = Finished s' ->
  object_at s' c [key]
  = Some (array_of_ref ((name ++ toPascalCase key) ++ lit "Item")) /\
  resolves s' ((name ++ toPascalCase key) ++ lit "Item") = true.
Proof.
  intros Hs Hkey Harr H. destruct fuel as [|fuel]; [discriminate|].
  cbn [PathNamed.processObject] in H.
  pose proof Hkey as Hk. change [key] with ([] ++ [key]) in Hk.
  rewrite object_at_snoc in Hk. unfold object_at in Hk.
  destruct (cell_at s c) as [obj|] eqn:Ec; [|discriminate].
  cbn [descend] in Hk.
  destruct (property_schema_container _ _ _ Hk)
    as (fields & container & -> & Hcont & Htr & Hin).
  cbn [js_truthy is_object negb orb prop_of wbind] in H.
  rewrite Hcont, Htr in H.
  set (itemName := (name ++ toPascalCase key) ++ lit "Item") in *.
  pose (L := fun s0 : store =>
               exists prop0, object_at s0 c [key] = Some prop0 /\
                 is_text (property prop0 (lit "type")) (lit "array") = true).
  pose (R := fun s0 : store =>
               object_at s0 c [key] = Some (array_of_ref itemName) /\
               resolves s0 itemName = true).
  pose proof (PathNamed_processObject_sound fuel) as Hw.
  refine (proj2 (for_keys_visit _ L R key _ _ _ _ s s' Hs _ H) _).
  - intros k s0 s1 Hs0 E.
    apply (PathNamed_process_key_sound _ _ _ _ _ _ Hw Hs0 E).
  - intros k s0 s1 Hs0 Hne E.
    destruct (PathNamed_process_key_effect _ _ _ _ _ _ Hw Hs0 E) as [Hframe _].
    destruct (PathNamed_process_key_sound _ _ _ _ _ _ Hw Hs0 E)
      as (_ & (_ & _ & Hres) & _).
    assert (Hq : object_at s1 c [key] = object_at s0 c [key]).
    { apply Hframe. cbn [leaves]. rewrite (str_eqb_neq key k); congruence. }
    split.
    + intros (prop0 & H0 & H1). exists prop0. now rewrite Hq.
    + intros [H0 H1]. split; [now rewrite Hq|auto].
  - intros s0 s1 Hs0 E HLR.
    destruct (PathNamed_process_key_effect _ _ _ _ _ _ Hw Hs0 E) as [_ Hlift].
    destruct HLR as [(prop0 & H0 & H1)|[H0 _]].
    + exact (Hlift _ H0 H1).
    + exact (Hlift _ H0 (array_of_ref_typed _)).
  - left. now exists prop.
  - now right.
Qed.

Lemma def_assign_cell s name v ci s' :
  def_assign s name v = Finished (ci, s') ->
  ci = length (cells s) /\ assoc (definitions s') name = Some ci.
Proof.
  unfold def_assign. destruct (str_eqb name (lit "__proto__")); [discriminate|].
  intros H. injection H as <- <-. split; [reflexivity|]. apply assoc_set_same.
Qed.

Lemma def_value_write s c p key v n c0 :
  assoc (definitions s) n = Some c0 -> c0 <> c ->
  def_value (write_property s c p key v) n = def_value s n.
Proof.
  intros Hn Hne. unfold write_property.
  destruct (cell_at s c) as [o|]; [|reflexivity].
  unfold def_value. cbn [set_cell definitions]. rewrite Hn.
  rewrite cell_at_set_cell.
  destruct (Nat.eqb_spec c c0); [congruence|reflexivity].
Qed.

Lemma ArrayLayer_process_key_effect self c p name key s s' :
  (forall p0, keeps_sound (fun ci => self ci p0)) ->
  (forall c0 p0 name0 s0 s1,
     sound s0 -> self c0 p0 name0 s0 = Finished s1 ->
     forall q, leaves p0 q = true -> object_at s1 c0 q = object_at s0 c0 q) ->
  sound s ->
  ArrayLayer.process_key self c p name key s = Finished s' ->
  (forall q, leaves (p ++ [key]) q = true ->
             object_at s' c q = object_at s c q) /\
  (forall prop,
     object_at s c (p ++ [key]) = Some prop ->
     is_text (property prop (lit "type")) (lit "array") = true ->
     object_at s' c (p ++ [key]) = Some (ref_schema (name ++ toPascalCase key)) /\
     def_value s' (name ++ toPascalCase key)
     = Some (array_of_ref ((name ++ toPascalCase key) ++ lit "Item")) /\
     resolves s' ((name ++ toPascalCase key) ++ lit "Item") = true) /\
  (forall r, object_at s c (p ++ [key]) = Some (ref_schema r) -> s' = s).
Proof.
  intros Hw Hfr Hs H. unfold ArrayLayer.process_key in H.
  destruct (prop_of (object_at s c p) (lit "properties")) as [props| | |] eqn:E1;
    try discriminate.
  cbn [wbind] in H.
  destruct (prop_of_property _ _ _ E1) as (obj & Ho & _ & ->).
  pose proof (object_at_lt _ _ _ _ Ho) as Hc.
  destruct (property obj (lit "properties")) as [container|] eqn:Ec;
    [|discriminate].
  destruct (assoc (own_entries container) key) as [p0|] eqn:Ep; [|discriminate].
  destruct (key_part _ _ _ _ _ _ _ Hs Ho Ec Ep) as [Hpok Hpr].
  assert (Hkey : object_at s c (p ++ [key]) = Some p0).
  { rewrite object_at_snoc, Ho. unfold property_schema. now rewrite Ec. }
  destruct (prop_of (Some p0) (lit "type")) as [prop_type| | |] eqn:E2;
    try discriminate.
  cbn [wbind] in H.
  destruct (prop_of_property _ _ _ E2) as (p1 & Hp1 & _ & ->).
  injection Hp1 as <-.
  destruct (is_text (property p0 (lit "type")) (lit "array")) eqn:Earr.
  - destruct (prop_of (Some p0) (lit "items")) as [itemSchema| | |] eqn:E3;
      try discriminate.
    cbn [wbind] in H.
    destruct (prop_of_property _ _ _ E3) as (p1 & Hp1 & _ & ->).
    injection Hp1 as <-.
    destruct (prop_of (property p0 (lit "items")) (lit "$ref"))
      as [item_ref| | |] eqn:E4; try discriminate.
    cbn [wbind] in H.
    destruct (prop_of_property _ _ _ E4) as (item & Hitem & _ & ->).
    rewrite Hitem in H.
    destruct (property_part _ _ _ Hitem) as [Ii Oi].
    set (arrayName := name ++ toPascalCase key) in *.
    set (itemName := arrayName ++ lit "Item") in *.
    destruct (lift_item (fun ci => self ci []) (Some item)
                (property item (lit "$ref")) itemName s)
      as [s1| | |] eqn:El; try discriminate.
    cbn [wbind] in H.
    destruct (lift_item_sound _ _ _ _ _ _ (Hw []) Hs (Oi Hpok)
                (array_items_truthy _ _ Hpok Earr Hitem)
                (fun n Hn => Hpr n (Ii n Hn)) eq_refl El)
      as (Hs1 & He1 & Hold & Hres).
    destruct (def_assign s1 arrayName (array_of_ref itemName))
      as [[ca s2]| | |] eqn:Ea; try discriminate.
    cbn [wbind] in H. injection H as <-.
    assert (Hr1 : forall n, In n (refs (array_of_ref itemName)) ->
                            resolves s1 n = true).
    { intros n. rewrite refs_array_of_ref. intros [<-|[]]. exact Hres. }
    destruct (def_assign_sound _ _ _ _ _ Hs1 (items_ok_array_of_ref _) eq_refl
                Hr1 Ea)
      as (Hs2 & (_ & _ & He2) & Hres2).
    destruct (def_assign_spec _ _ _ _ _ Ea) as (_ & _ & _ & Hold2 & Hval2 & _).
    destruct (def_assign_cell _ _ _ _ _ Ea) as (Hca & Hcell).
    destruct (write_property_sound s2 c p key (ref_schema arrayName) Hs2)
      as (_ & (_ & _ & Hew) & _ & _).
    { eexists. reflexivity. }
    { apply items_ok_ref_schema. }
    { intros n. rewrite refs_ref_schema. intros [<-|[]]. exact Hres2. }
    assert (Hl1 : length (cells s) <= length (cells s1)) by apply He1.
    assert (Hsame : cell_at s2 c = cell_at s c).
    { rewrite Hold2 by lia. now apply Hold. }
    split; [|split].
    + intros q Hq. rewrite object_at_write_leaves by exact Hq.
      now apply object_at_cell.
    + intros prop _ _. split; [|split].
      * apply (object_at_write_key s2 c p key _ p0).
        rewrite <- Hkey. now apply object_at_cell.
      * rewrite (def_value_write s2 c p key _ arrayName ca Hcell) by lia.
        now apply Hval2.
      * auto.
    + intros r Hr. rewrite Hkey in Hr. injection Hr as ->. discriminate.
  - destruct (is_text (property p0 (lit "type")) (lit "object")) eqn:Eobj.
    + split; [|split].
      * exact (Hfr _ _ _ _ _ Hs H).
      * intros prop Hprop Harr. rewrite Hkey in Hprop. injection Hprop as <-.
        congruence.
      * intros r Hr. rewrite Hkey in Hr. injection Hr as ->. discriminate.
    + assert (Hsame : s' = s).
      { destruct (prop_of (Some p0) (lit "$ref")) as [prop_ref| | |];
          try discriminate.
        cbn [wbind] in H.
        destruct (js_truthy prop_ref); [|now injection H as <-].
        destruct (replace_prefix prop_ref); try discriminate.
        cbn [wbind] in H. now injection H as <-. }
      subst s'. split; [|split]; auto.
      intros prop Hprop Harr. rewrite Hkey in Hprop. injection Hprop as <-.
      congruence.
Qed.

Lemma ArrayLayer_processObject_frame fuel : forall c p name s s',
  sound s -> ArrayLayer.processObject fuel c p name s = Finished s' ->
  forall q, leaves p q = true -> object_at s' c q = object_at s c q.
Proof.
  induction fuel as [|fuel IH]; intros c p name s s' Hs H q Hq;
    cbn [ArrayLayer.processObject] in H; [discriminate|].
  destruct (object_at s c p) as [obj|]; [|discriminate].
  destruct (negb (js_truthy (Some obj)) || negb (is_object obj));
    [now injection H as <-|].
  destruct (prop_of (Some obj) (lit "properties")) as [props| | |];
    try discriminate.
  cbn [wbind] in H.
  destruct (js_truthy props); [|now injection H as <-].
  revert H. apply (for_keys_keeps _ (fun s0 => object_at s0 c q)); [|exact Hs].
  intros k s0 s1 Hs0 E. split.
  - apply (ArrayLayer_process_key_sound _ _ _ _ _ _ _
             (ArrayLayer_processObject_sound fuel) Hs0 E).
  - destruct (ArrayLayer_process_key_effect _ _ _ _ _ _ _
                (ArrayLayer_processObject_sound fuel) IH Hs0 E) as [Hframe _].
    apply Hframe. now apply leaves_longer.
Qed.

Lemma ArrayLayer_processObject_lifts fuel c p name key s s' prop :
  sound s ->
  object_at s c (p ++ [key]) = Some prop ->
  is_text (property prop (lit "type")) (lit "array") = true ->
  ArrayLayer.processObject fuel c p name s = Finished s' ->
  object_at s' c (p ++ [key]) = Some (ref_schema (name ++ toPascalCase key)) /\
  resolves s' (name ++ toPascalCase key) = true /\
  resolves s' ((name ++ toPascalCase key) ++ lit "Item") = true.
Proof.
  intros Hs Hkey Harr H. destruct fuel as [|fuel]; [discriminate|].
  cbn [ArrayLayer.processObject] in H.
  pose proof Hkey as Hk. rewrite object_at_snoc in Hk.
  destruct (object_at s c p) as [obj|] eqn:Eo; [|discriminate].
  destruct (property_schema_container _ _ _ Hk)
    as (fields & container & -> & Hcont & Htr & Hin).
  cbn [js_truthy is_object negb orb prop_of wbind] in H.
  rewrite Hcont, Htr in H.
  set (arrayName := name ++ toPascalCase key) in *.
  set (itemName := arrayName ++ lit "Item") in *.
  pose (L := fun s0 : store =>
               exists prop0, object_at s0 c (p ++ [key]) = Some prop0 /\
                 is_text (property prop0 (lit "type")) (lit "array") = true).
  pose (R := fun s0 : store =>
               object_at s0 c (p ++ [key]) = Some (ref_schema arrayName) /\
               resolves s0 arrayName = true /\ resolves s0 itemName = true).
  pose proof (ArrayLayer_processObject_sound fuel) as Hw.
  pose proof (ArrayLayer_processObject_frame fuel) as Hfr.
  refine (proj2 (for_keys_visit _ L R key _ _ _ _ s s' Hs _ H) _).
  - intros k s0 s1 Hs0 E.
    apply (ArrayLayer_process_key_sound _ _ _ _ _ _ _ Hw Hs0 E).
  - intros k s0 s1 Hs0 Hne E.
    destruct (ArrayLayer_process_key_effect _ _ _ _ _ _ _ Hw Hfr Hs0 E)
      as [Hframe _].
    destruct (ArrayLayer_process_key_sound _ _ _ _ _ _ _ Hw Hs0 E)
      as (_ & (_ & _ & Hres) & _).
    assert (Hq : object_at s1 c (p ++ [key]) = object_at s0 c (p ++ [key])).
    { apply Hframe. apply leaves_sibling. congruence. }
    split.
    + intros (prop0 & H0 & H1). exists prop0. now rewrite Hq.
    + intros (H0 & H1 & H2). split; [now rewrite Hq|auto].
  - intros s0 s1 Hs0 E HLR.
    destruct (ArrayLayer_process_key_effect _ _ _ _ _ _ _ Hw Hfr Hs0 E)
      as (_ & Hlift & Hstay).
    destruct HLR as [(prop0 & H0 & H1)|HR].
    + destruct (Hlift _ H0 H1) as (G1 & G2 & G3).
      split; [exact G1|]. split; [|exact G3].
      unfold resolves. fold arrayName in G2. now rewrite G2.
    + destruct HR as (H0 & H1 & H2). rewrite (Hstay _ H0). now split.
  - left. now exists prop.
  - now right.
Qed.

(** ** The properties of the generator *)

(** The draft of the sample payload, unwrapped, is a draft in which
    every reference names a definition. *)
Lemma posts_draft_ok : draft_ok (unwrap_root Drafts.posts_draft).
Proof.
  split; [vm_compute; reflexivity|].
  intros name Hn. vm_compute in Hn. destruct Hn as [<-|[]].
  vm_compute. reflexivity.
Defined.

(** C3, for the drafts in which every reference names a truthy
    definition and every array has a truthy item schema: when
    [restructureArrays] returns, in either snapshot, every reference of
    the schema, in the root or inside a definition, names a key of
    [definitions]; and it returns the same with any larger bound on the
    depth of the walk. *)
Theorem restructured_draft_has_no_dangling_reference fuel schema rootName :
  draft_ok schema ->
  (forall result,
     PathNamed.restructureArrays fuel schema rootName = Finished result ->
     dangling result = [] /\
     forall fuel', fuel <= fuel' ->
       PathNamed.restructureArrays fuel' schema rootName = Finished result) /\
  (forall result,
     ArrayLayer.restructureArrays fuel schema rootName = Finished result ->
     dangling result = [] /\
     forall fuel', fuel <= fuel' ->
       ArrayLayer.restructureArrays fuel' schema rootName = Finished result).
Proof.
  intros Hd. split; intros result H; split.
  - exact (PathNamed_restructure_sound _ _ _ _ Hd H).
  - intros fuel' Hle. exact (PathNamed_restructure_mono _ _ _ _ _ Hle H).
  - exact (ArrayLayer_restructure_sound _ _ _ _ Hd H).
  - intros fuel' Hle. exact (ArrayLayer_restructure_mono _ _ _ _ _ Hle H).
Qed.

Lemma restructured_draft_has_no_dangling_reference_witness :
  draft_ok (unwrap_root Drafts.posts_draft) /\
  (exists result,
     PathNamed.restructureArrays 2 (unwrap_root Drafts.posts_draft)
       (lit "GetPostsBody") = Finished result /\
     dangling result = []) /\
  (exists result,
     ArrayLayer.restructureArrays 2 (unwrap_root Drafts.posts_draft)
       (lit "GetPostsBody") = Finished result /\
     dangling result = []).
Proof.
  destruct (restructured_draft_has_no_dangling_reference
              2 (unwrap_root Drafts.posts_draft) (lit "GetPostsBody")
              posts_draft_ok) as [HP HA].
  split; [exact posts_draft_ok|]. split.
  - eexists. split; [vm_compute; reflexivity|].
    refine (proj1 (HP _ _)). vm_compute. reflexivity.
  - eexists. split; [vm_compute; reflexivity|].
    refine (proj1 (HA _ _)). vm_compute. reflexivity.
Defined.

(** C3 as stated fails: for the draft whose array item refers to a
    definition that is absent, both snapshots return a schema in which
    the array refers to the item name, which no definition has. *)
Lemma broken_item_reference_leaves_dangling_reference :
  (exists result,
     PathNamed.restructureArrays 1 Drafts.broken_draft (lit "R")
     = Finished result /\
     dangling result = [lit "RAItem"]) /\
  (exists result,
     ArrayLayer.restructureArrays 1 Drafts.broken_draft (lit "R")
     = Finished result /\
     dangling result = [lit "RAItem"]).
Proof.
  split; eexists; (split; [vm_compute; reflexivity|]); vm_compute; reflexivity.
Qed.

(** ** Names and shapes along the walk *)





Lemma prop_of_value prop k :
  prop <> JNull -> prop_of (Some prop) k = Finished (property prop k).
Proof. destruct prop; try reflexivity. congruence. Qed.

(** *** Shapes *)


Lemma assoc_first {A} (l : list (str * A)) k :
  In k (map fst l) -> exists v, assoc l k = Some v /\ In (k, v) l.
Proof.
  intros H. destruct (assoc l k) as [v|] eqn:E.
  - exists v. split; [reflexivity|now apply assoc_In].
  - exfalso. induction l as [|[k0 v0] t IH]; [destruct H|].
    cbn [assoc] in E. destruct (str_eqb k0 k) eqn:Ek; [discriminate|].
    destruct H as [H|H]; [|now apply IH].
    cbn [fst] in H. subst k0. now rewrite str_eqb_refl in Ek.
Qed.










(** *** The two invariants *)






Lemma cell_at_write_other s c p key v i :
  i <> c -> cell_at (write_property s c p key v) i = cell_at s i.
Proof.
  intros Hne. unfold write_property. destruct (cell_at s c); [|reflexivity].
  rewrite cell_at_set_cell.
  destruct (Nat.eqb_spec c i); [congruence|reflexivity].
Qed.

Lemma definitions_write s c p key v :
  definitions (write_property s c p key v) = definitions s.
Proof. unfold write_property. now destruct (cell_at s c). Qed.








Lemma flat_property_inv prop :
  flat_property prop = true ->
  prop <> JNull /\
  is_text (property prop (lit "type")) (lit "array") = false /\
  is_text (property prop (lit "type")) (lit "object") = false /\
  js_truthy (property prop (lit "$ref")) = false.
Proof.
  unfold flat_property. destruct prop; try discriminate; intros H;
    apply andb_prop in H; destruct H as [H H3];
    apply andb_prop in H; destruct H as [H1 H2];
    apply negb_true_iff in H1, H2, H3;
    (split; [discriminate|auto]).
Qed.

Lemma for_keys_all body keys s :
  (forall k, In k keys -> body k s = Finished s) ->
  for_keys body keys s = Finished s.
Proof.
  induction keys as [|k rest IH]; intros H; [reflexivity|].
  cbn [for_keys]. rewrite H by now left. cbn [wbind].
  apply IH. intros k' Hk. apply H. now right.
Qed.

Lemma PathNamed_process_key_flat self c currentName key s fields container prop :
  cell_at s c = Some (JObj fields) ->
  assoc fields (lit "properties") = Some container ->
  assoc (own_entries container) key = Some prop ->
  flat_property prop = true ->
  PathNamed.process_key self c currentName key s = Finished s.
Proof.
  intros Hc Hp Hk Hflat.
  destruct (flat_property_inv _ Hflat) as (Hn & Ha & Ho & Hr).
  unfold PathNamed.process_key, object_at. rewrite Hc.
  cbn [descend prop_of wbind]. rewrite Hp, Hk.
  rewrite !(prop_of_value prop) by exact Hn. cbn [wbind].
  now rewrite Ha, Ho, Hr.
Qed.

Lemma ArrayLayer_process_key_flat self c currentName key s fields container
    prop :
  cell_at s c = Some (JObj fields) ->
  assoc fields (lit "properties") = Some container ->
  assoc (own_entries container) key = Some prop ->
  flat_property prop = true ->
  ArrayLayer.process_key self c [] currentName key s = Finished s.
Proof.
  intros Hc Hp Hk Hflat.
  destruct (flat_property_inv _ Hflat) as (Hn & Ha & Ho & Hr).
  unfold ArrayLayer.process_key, object_at. rewrite Hc.
  cbn [descend prop_of wbind]. rewrite Hp, Hk.
  rewrite !(prop_of_value prop) by exact Hn. cbn [wbind].
  now rewrite Ha, Ho, Hr.
Qed.






(** ** The element of an array, in the snapshot that names by path *)
















(** ** The element of an array, in the snapshot that registers arrays *)


















(** Names that meet: the keys [a-b] and [aB] have one name in Pascal
    case, so the items of both arrays are registered under one name, and
    the name holds the element of the array that is visited last. *)
Lemma colliding_keys_share_the_item_name :
  (exists result,
     PathNamed.restructureArrays 3 Drafts.colliding_draft (lit "R")
     = Finished result /\
     property_schema result (lit "a-b")
     = Some (Drafts.array_schema (Drafts.reference "RABItem")) /\
     property_schema result (lit "aB")
     = Some (Drafts.array_schema (Drafts.reference "RABItem")) /\
     definition_of result (lit "RABItem")
     = Some (Drafts.object_schema "AB"
               [Drafts.field "name" (Drafts.typed "string")])) /\
  (exists result,
     ArrayLayer.restructureArrays 3 Drafts.colliding_draft (lit "R")
     = Finished result /\
     definition_of result (lit "RABItem")
     = Some (Drafts.object_schema "AB"
               [Drafts.field "name" (Drafts.typed "string")])).
Proof.
  split.
  - eexists. split; [vm_compute; reflexivity|].
    split; [vm_compute; reflexivity|]. split; vm_compute; reflexivity.
  - eexists. split; [vm_compute; reflexivity|]. vm_compute; reflexivity.
Qed.

Ltac run_sample mono extra :=
  match goal with
  | |- context [?R (2 + extra) ?d ?n] =>
      let E := fresh "E" in
      eassert (E : R 2 d n = Finished _) by (vm_compute; reflexivity);
      rewrite (mono 2 (2 + extra) d n _ (Nat.le_add_r 2 extra) E)
  end.

(** C2, as the two snapshots have it, for the draft of the sample
    [{ posts: [ { id: 1, title: 'Hi' } ] }] under the base name
    [GetPostsBody], with any bound of two or more on the depth of the
    walk.  Beside what is declared for the definitions that the draft
    holds itself, the snapshot with a definition for every array
    declares three schemas, in this order: the object schema of the
    item, the array schema whose items refer to it, and the object
    schema of the root, whose property [posts] refers to the array
    schema; and the three types of these.  The snapshot that names by
    path declares two, the object schema of the item and the object
    schema of the root, whose property [posts] is an array of references
    to the item schema, and their two types; none of its declarations is
    an array schema. *)
Theorem sample_payload_declarations (extra : nat) :
  (exists declarations types,
     assembled (ArrayLayer.restructureArrays (2 + extra)
                  (unwrap_root Drafts.posts_draft) (lit "GetPostsBody"))
       (lit "GetPostsBody")
     = Some (declarations, types) /\
     filter (made_by_walk (unwrap_root Drafts.posts_draft)) declarations
     = [{| identifier := lit "getPostsBodyPostsItemSchema";
           rendered_from := Drafts.post_schema |};
        {| identifier := lit "getPostsBodyPostsSchema";
           rendered_from :=
             Drafts.array_schema
               (Drafts.marker "getPostsBodyPostsItemSchema") |};
        {| identifier := lit "getPostsBodySchema";
           rendered_from :=
             Drafts.posts_root (Drafts.marker "getPostsBodyPostsSchema") |}] /\
     filter (type_made_by_walk (unwrap_root Drafts.posts_draft)) types
     = [type_export (lit "GetPostsBodyPostsItem")
          (lit "getPostsBodyPostsItemSchema");
        type_export (lit "GetPostsBodyPosts") (lit "getPostsBodyPostsSchema");
        type_export (lit "GetPostsBody") (lit "getPostsBodySchema")]) /\
  (exists declarations types,
     assembled (PathNamed.restructureArrays (2 + extra)
                  (unwrap_root Drafts.posts_draft) (lit "GetPostsBody"))
       (lit "GetPostsBody")
     = Some (declarations, types) /\
     filter (made_by_walk (unwrap_root Drafts.posts_draft)) declarations
     = [{| identifier := lit "getPostsBodyPostsItemSchema";
           rendered_from := Drafts.post_schema |};
        {| identifier := lit "getPostsBodySchema";
           rendered_from :=
             Drafts.posts_root
               (Drafts.array_schema
                  (Drafts.marker "getPostsBodyPostsItemSchema")) |}] /\
     existsb declares_array declarations = false /\
     filter (type_made_by_walk (unwrap_root Drafts.posts_draft)) types
     = [type_export (lit "GetPostsBodyPostsItem")
          (lit "getPostsBodyPostsItemSchema");
        type_export (lit "GetPostsBody") (lit "getPostsBodySchema")]).
Proof.
  split.
  - run_sample ArrayLayer_restructure_mono extra.
    eexists. eexists. split; [vm_compute; reflexivity|].
    split; vm_compute; reflexivity.
  - run_sample PathNamed_restructure_mono extra.
    eexists. eexists. split; [vm_compute; reflexivity|].
    split; [vm_compute; reflexivity|]. split; vm_compute; reflexivity.
Qed.

(** C2 as stated fails in the snapshot that names by path: from the
    draft of the sample none of its declarations is an array schema. *)
Lemma sample_payload_without_array_declaration :
  exists declarations types,
    assembled (PathNamed.restructureArrays 2
                 (unwrap_root Drafts.posts_draft) (lit "GetPostsBody"))
      (lit "GetPostsBody")
    = Some (declarations, types) /\
    existsb declares_array declarations = false.
Proof.
  eexists. eexists. split; [vm_compute; reflexivity|]. reflexivity.
Qed.

(** ** The arrays of the root, from the draft to the result *)

Lemma object_at_root s fields key :
  cell_at s schema_cell = Some (JObj fields) ->
  object_at s schema_cell [key] = property_schema (JObj fields) key.
Proof.
  intros H. change [key] with ([] ++ [key]). rewrite object_at_snoc.
  unfold object_at. now rewrite H.
Qed.

Lemma property_schema_definitions fields defs key :
  property_schema (JObj (assoc_set fields (lit "definitions") defs)) key
  = property_schema (JObj fields) key.
Proof.
  unfold property_schema. cbn [property].
  rewrite assoc_set_other; [reflexivity|lit_neq].
Qed.

Lemma open_schema_root schema s key :
  open_schema schema = Finished s ->
  object_at s schema_cell [key] = property_schema schema key.
Proof.
  unfold open_schema. destruct schema as [| | | | |fields]; try discriminate.
  intros H.
  assert (Hcell : cell_at s schema_cell
                  = Some (JObj (assoc_set fields (lit "definitions") (JObj [])))).
  { destruct (assoc fields (lit "definitions")) as [[| | | | |defs]|];
      try (match type of H with (if ?b then _ else _) = _ => destruct b end;
           try discriminate; now injection H as <-). }
  rewrite (object_at_root _ _ _ Hcell). apply property_schema_definitions.
Qed.

Lemma schema_of_root s result :
  sound s -> schema_of s = Finished result ->
  (forall key, property_schema result key = object_at s schema_cell [key]) /\
  (forall name, definition_of result name = def_value s name).
Proof.
  intros Hs H. unfold schema_of in H.
  destruct (cell_at s schema_cell) as [[| | | | |fields]|] eqn:Ec;
    try discriminate.
  injection H as <-. split.
  - intros key. rewrite (object_at_root _ _ _ Ec).
    apply property_schema_definitions.
  - intros name. unfold definition_of. cbn [property]. rewrite assoc_set_same.
    now apply definitions_object_value.
Qed.

(** An array among the properties of the root, in the snapshot that
    names by path: the result has the array with a reference to the item
    name, and the item name has a truthy definition. *)
Lemma PathNamed_root_array_is_lifted fuel schema rootName key prop result :
  draft_ok schema ->
  property_schema schema key = Some prop ->
  is_text (property prop (lit "type")) (lit "array") = true ->
  PathNamed.restructureArrays fuel schema rootName = Finished result ->
  property_schema result key
  = Some (array_of_ref ((rootName ++ toPascalCase key) ++ lit "Item")) /\
  js_truthy (definition_of result ((rootName ++ toPascalCase key) ++ lit "Item"))
  = true.
Proof.
  intros Hd Hkey Harr H. unfold PathNamed.restructureArrays in H.
  destruct (open_schema schema) as [s| | |] eqn:Eo; try discriminate.
  cbn [wbind] in H.
  destruct (PathNamed.processObject fuel schema_cell rootName s)
    as [s'| | |] eqn:Ew; try discriminate.
  cbn [wbind] in H.
  pose proof (open_schema_sound _ _ Hd Eo) as Hs.
  destruct (PathNamed_processObject_sound fuel _ _ _ _ Hs Ew) as [Hs' _].
  rewrite <- (open_schema_root _ _ key Eo) in Hkey.
  destruct (PathNamed_processObject_lifts _ _ _ _ _ _ _ Hs Hkey Harr Ew)
    as [Hprop Hres].
  destruct (schema_of_root _ _ Hs' H) as [Hroot Hdef].
  now rewrite Hroot, Hdef.
Qed.

(** The same in the snapshot with a definition for every array: the
    result has a reference to the array name in the place of the array,
    and the array name and the item name have truthy definitions. *)
Lemma ArrayLayer_root_array_is_lifted fuel schema rootName key prop result :
  draft_ok schema ->
  property_schema schema key = Some prop ->
  is_text (property prop (lit "type")) (lit "array") = true ->
  ArrayLayer.restructureArrays fuel schema rootName = Finished result ->
  property_schema result key = Some (ref_schema (rootName ++ toPascalCase key)) /\
  js_truthy (definition_of result (rootName ++ toPascalCase key)) = true /\
  js_truthy (definition_of result ((rootName ++ toPascalCase key) ++ lit "Item"))
  = true.
Proof.
  intros Hd Hkey Harr H. unfold ArrayLayer.restructureArrays in H.
  destruct (open_schema schema) as [s| | |] eqn:Eo; try discriminate.
  cbn [wbind] in H.
  destruct (ArrayLayer.processObject fuel schema_cell [] rootName s)
    as [s'| | |] eqn:Ew; try discriminate.
  cbn [wbind] in H.
  pose proof (open_schema_sound _ _ Hd Eo) as Hs.
  destruct (ArrayLayer_processObject_sound fuel [] _ _ _ _ Hs Ew) as [Hs' _].
  rewrite <- (open_schema_root _ _ key Eo) in Hkey.
  destruct (ArrayLayer_processObject_lifts _ _ [] _ _ _ _ _ Hs Hkey Harr Ew)
    as (Hprop & Hres1 & Hres2).
  destruct (schema_of_root _ _ Hs' H) as [Hroot Hdef].
  now rewrite Hroot, !Hdef.
Qed.

Lemma PathNamed_root_array_is_lifted_witness :
  exists result,
    PathNamed.restructureArrays 2 (unwrap_root Drafts.posts_draft)
      (lit "GetPostsBody") = Finished result /\
    property_schema result (lit "posts")
    = Some (array_of_ref (lit "GetPostsBodyPostsItem")) /\
    js_truthy (definition_of result (lit "GetPostsBodyPostsItem")) = true.
Proof.
  eexists. split; [vm_compute; reflexivity|].
  refine (PathNamed_root_array_is_lifted 2 (unwrap_root Drafts.posts_draft)
            (lit "GetPostsBody") (lit "posts")
            (Drafts.array_schema (Drafts.reference "Post")) _
            posts_draft_ok _ _ _);
    vm_compute; reflexivity.
Defined.

Lemma ArrayLayer_root_array_is_lifted_witness :
  exists result,
    ArrayLayer.restructureArrays 2 (unwrap_root Drafts.posts_draft)
      (lit "GetPostsBody") = Finished result /\
    property_schema result (lit "posts")
    = Some (ref_schema (lit "GetPostsBodyPosts")) /\
    js_truthy (definition_of result (lit "GetPostsBodyPosts")) = true /\
    js_truthy (definition_of result (lit "GetPostsBodyPostsItem")) = true.
Proof.
  eexists. split; [vm_compute; reflexivity|].
  refine (ArrayLayer_root_array_is_lifted 2 (unwrap_root Drafts.posts_draft)
            (lit "GetPostsBody") (lit "posts")
            (Drafts.array_schema (Drafts.reference "Post")) _
            posts_draft_ok _ _ _);
    vm_compute; reflexivity.
Defined.

(** ** The parser on sample documents *)

Example extract_nested_block :
  extractBlockContent (lit "a { b { c } d } e { f }") (lit "a")
  = Some (lit " b { c } d ").
Proof. vm_compute. reflexivity. Qed.

Example extract_unclosed_block :
  extractBlockContent (lit "a { b { c } d") (lit "a") = None.
Proof. vm_compute. reflexivity. Qed.

Example strip_example_blocks :
  stripBlocks (lit "x example { headers { a: 1 } } y example: {} z")
    (lit "example")
  = lit "x  y  z".
Proof. vm_compute. reflexivity. Qed.

Example key_value_lines :
  Sample.parseKvContent (lit "a: 1
b: true
~c: off
d: x:y
a: 2")
  = Some [(lit "a", KNum (Some 2%N)); (lit "b", KBool true);
          (lit "~c", KStr (lit "off")); (lit "d", KStr (lit "x:y"))].
Proof. vm_compute. reflexivity. Qed.

(** The request of the regression test: the headers of the example are
    not the headers of the request. *)
Example login_document :
  exists doc,
    Sample.parseBruFile (lit "login.bru") Sample.login_bru
    = Returned (Some doc) /\
    BruFile.name doc = lit "Login" /\
    BruFile.method doc = lit "post" /\
    BruFile.url doc = lit "{{systemurl}}/login" /\
    BruFile.headers doc = None /\
    BruFile.body doc = Some (lit "{ email: 1 }") /\
    BruFile.responses doc
    = Some [Response.mk (Some 200%N) (Some (lit "{ success: true }"))
              (Some [(lit "content-type", KStr (lit "application/json"))])].
Proof. eexists. split; [vm_compute; reflexivity|]. vm_compute. tauto. Qed.

(** Two examples with the code 200 and one with a literal that is not
    JSON5: the first body stays, the third response has no body. *)
Example repeated_status_code :
  exists doc,
    Sample.parseBruFile (lit "posts.bru") Sample.twice_bru
    = Returned (Some doc) /\
    BruFile.responses doc
    = Some [Response.mk (Some 200%N) (Some (lit "{ first: 1 }")) None;
            Response.mk (Some 404%N) None None].
Proof. eexists. split; vm_compute; reflexivity. Qed.

(** ** More on blocks: writing a block and reading it back *)

Lemma extract_cut name content m pre body rest :
  first_header name content m ->
  content = pre ++ LBRACE :: body ++ RBRACE :: rest ->
  m <= length pre -> ~ In LBRACE (skipn m pre) -> balanced body ->
  extractBlockContent content name = Some body.
Proof.
  intros Hf Hc Hm Hn Hb.
  destruct (scan_block content name)
    as [Hf'|m' pre' body' rest' Hf' Hi Hc' Hm' Hn' Hb' Hs
       |m' pre' tail bc i Hf' Hi Hc' Hm' Hn' Hb' Hs Hbc].
  - exfalso. apply find_header_first_header in Hf. congruence.
  - apply find_header_first_header in Hf.
    assert (m' = m) by congruence. subst m'.
    destruct (opening_unique _ _ _ _ _ _ Hc Hc' Hm Hm' Hn Hn') as [<- Ht].
    destruct (balanced_unique _ _ _ _ Ht Hb Hb') as [<- <-].
    eapply extract_Cut; eauto.
  - exfalso. apply find_header_first_header in Hf.
    assert (m' = m) by congruence. subst m'.
    destruct (opening_unique _ _ _ _ _ _ Hc Hc' Hm Hm' Hn Hn') as [<- Ht].
    now apply (Hb' body rest).
Qed.

(** A block written after [pre] as the name, a separator and the body in
    braces, where no header of the name starts inside [pre]: the body is
    read back as it was written, and [stripBlocks] goes on with the text
    from which the block is cut, header and braces included. *)
Theorem block_round_trip (pre name sep body rest : str) :
  is_separator sep -> balanced body -> ~ In LBRACE name ->
  (forall k, k < length pre ->
     ~ header_matches name
         (pre ++ name ++ sep ++ LBRACE :: body ++ RBRACE :: rest) k) ->
  extractBlockContent (pre ++ name ++ sep ++ LBRACE :: body ++ RBRACE :: rest)
    name = Some body /\
  stripBlocks (pre ++ name ++ sep ++ LBRACE :: body ++ RBRACE :: rest) name
  = stripBlocks (pre ++ rest) name.
Proof.
  intros Hsep Hb Hname Hfirst.
  set (content := pre ++ name ++ sep ++ LBRACE :: body ++ RBRACE :: rest) in *.
  assert (Hf : first_header name content (length pre)).
  { split; [|exact Hfirst]. split.
    - unfold content. rewrite length_app. lia.
    - exists sep, (body ++ RBRACE :: rest). split; [|exact Hsep].
      unfold content. rewrite skipn_app, Nat.sub_diag, skipn_all. reflexivity. }
  assert (Hc : content = (pre ++ name ++ sep) ++ LBRACE :: body ++ RBRACE :: rest).
  { unfold content. now rewrite <- !app_assoc. }
  assert (Hm : length pre <= length (pre ++ name ++ sep))
    by (rewrite length_app; lia).
  assert (Hn : ~ In LBRACE (skipn (length pre) (pre ++ name ++ sep))).
  { rewrite skipn_app, Nat.sub_diag, skipn_all. cbn [app skipn].
    rewrite in_app_iff. intros [H|H]; [now apply Hname|].
    now apply (separator_no_brace sep). }
  split.
  - exact (extract_cut _ _ _ _ _ _ Hf Hc Hm Hn Hb).
  - rewrite (stripBlocks_unfold _ _ _ (strip_step_cut _ _ _ _ _ _ Hf Hc Hm Hn Hb)).
    now rewrite firstn_app, Nat.sub_diag, firstn_all, app_nil_r.
Qed.

Lemma block_round_trip_witness :
  extractBlockContent (lit "headers: {a: 1} rest") (lit "headers")
  = Some (lit "a: 1") /\
  stripBlocks (lit "headers: {a: 1} rest") (lit "headers")
  = stripBlocks (lit " rest") (lit "headers").
Proof.
  apply (block_round_trip [] (lit "headers") (lit ": ") (lit "a: 1")
           (lit " rest")).
  - exists [], (lit " "), [COLON]. repeat split; auto.
  - split; [reflexivity|]. intros k.
    do 5 (destruct k as [|k]; [vm_compute; lia|]). vm_compute. lia.
  - vm_compute. intuition discriminate.
  - intros k Hk. inversion Hk.
Defined.

Lemma strip_loop_length fuel : forall content name,
  length (strip_loop fuel content name) <= length content.
Proof.
  induction fuel as [|fuel IH]; intros content name; cbn [strip_loop]; [lia|].
  destruct (strip_step content name) as [c'|] eqn:E; [|lia].
  apply strip_step_shorter in E. specialize (IH c' name). lia.
Qed.

(** [stripBlocks] leaves nothing that a second pass would cut, never
    makes the text longer, and leaves a text without a header of the
    name as it is. *)
Theorem stripBlocks_idempotent (content name : str) :
  stripBlocks (stripBlocks content name) name = stripBlocks content name /\
  length (stripBlocks content name) <= length content /\
  ((forall m, ~ header_matches name content m) ->
   stripBlocks content name = content).
Proof.
  split; [|split].
  - apply stripBlocks_fixed. unfold stripBlocks at 1.
    now apply strip_loop_exits.
  - apply strip_loop_length.
  - intros Hno. apply stripBlocks_fixed, strip_step_None_cases. now left.
Qed.

(** ** What [trim] leaves *)

Lemma skip_ws_head s c t : skip_ws s = c :: t -> is_ws c = false.
Proof.
  induction s as [|x s IH]; simpl; [discriminate|].
  destruct (is_ws x) eqn:E; auto. intros H. now inversion H; subst.
Qed.

Lemma skip_ws_fixed s :
  match s with [] => True | c :: _ => is_ws c = false end -> skip_ws s = s.
Proof. destruct s as [|c t]; simpl; auto. now intros ->. Qed.

Lemma in_skip_ws c s : In c (skip_ws s) -> In c s.
Proof.
  destruct (skip_ws_suffix s) as (w & Hs & _). intros H. rewrite Hs.
  apply in_or_app. now right.
Qed.

Lemma in_trim c s : In c (trim s) -> In c s.
Proof.
  unfold trim. intros H. apply in_rev in H. apply in_skip_ws in H.
  apply in_rev in H. now apply in_skip_ws.
Qed.

(** A trimmed text starts and ends with a code unit that is not
    whitespace. *)
Lemma trim_ends s :
  skip_ws (trim s) = trim s /\ skip_ws (rev (trim s)) = rev (trim s).
Proof.
  unfold trim. rewrite rev_involutive.
  set (a := skip_ws s). set (b := skip_ws (rev a)).
  assert (Hb : skip_ws b = b).
  { apply skip_ws_fixed. destruct b as [|c t] eqn:E; auto.
    now apply (skip_ws_head (rev a) c t). }
  split; [|exact Hb].
  destruct (skip_ws_suffix (rev a)) as (w & Hr & _). fold b in Hr.
  assert (Ha : a = rev b ++ rev w).
  { rewrite <- (rev_involutive a), Hr, rev_app_distr. reflexivity. }
  apply skip_ws_fixed. destruct (rev b) as [|c t] eqn:E; auto.
  rewrite Ha in *. subst a. cbn [app] in Ha.
  now apply (skip_ws_head s c (t ++ rev w)).
Qed.

Lemma trim_idempotent s : trim (trim s) = trim s.
Proof.
  destruct (trim_ends s) as [H1 H2]. unfold trim at 1.
  now rewrite H1, H2, rev_involutive.
Qed.

Section KeyValueInvariants.

Variable num : Type.
Variable Number : str -> num.
Variable isNaN : num -> bool.

Local Abbreviation coerce := (coerce Number isNaN).
Local Abbreviation parseKvContent := (parseKvContent Number isNaN).

Lemma coerce_value value :
  match coerce value with
  | KBool b => value = (if b then lit "true" else lit "false")
  | KNum n => n = Number value /\ isNaN n = false /\ value <> []
  | KStr s => s = value /\ value <> lit "true" /\ value <> lit "false"
  end.
Proof.
  unfold coerce.
  destruct (str_eqb value (lit "true")) eqn:Et;
    [now apply str_eqb_eq in Et|].
  destruct (str_eqb value (lit "false")) eqn:Ef;
    [now apply str_eqb_eq in Ef|].
  apply str_eqb_false in Et, Ef.
  destruct (isNaN (Number value)) eqn:En; cbn [negb andb]; auto.
  destruct (str_eqb value []) eqn:Ee; cbn [negb]; auto.
  apply str_eqb_false in Ee. auto.
Qed.

(** The mapping that [parseKvContent] returns: no key holds a colon or
    has whitespace around it, [__proto__] is not a key, a text stored as
    a value has no whitespace around it and is not one of the two
    boolean literals, and a number stored is not [NaN]. *)
Theorem parseKvContent_entries (blockContent : str) result key v :
  parseKvContent blockContent = Some result ->
  obj_lookup result key = Some v ->
  ~ In COLON key /\ trim key = key /\ key <> lit "__proto__" /\
  match v with
  | KBool _ => True
  | KNum n => isNaN n = false
  | KStr s => trim s = s /\ s <> lit "true" /\ s <> lit "false"
  end.
Proof.
  unfold parseKvContent.
  destruct (fold_left (kv_step Number isNaN) (split_lines blockContent) [])
    as [|e rest] eqn:Ef; [discriminate|].
  intros H Hl. injection H as <-. rewrite <- Ef in Hl.
  apply fold_kv_lookup in Hl.
  destruct Hl as [(l1 & line & l2 & value & _ & Hu & Hp & -> & _)|[Hl _]];
    [|discriminate].
  destruct Hu as (k0 & v0 & _ & Hk0 & _ & _ & -> & ->).
  split; [|split; [|split]].
  - intros Hin. apply Hk0. now apply in_trim.
  - apply trim_idempotent.
  - exact Hp.
  - pose proof (coerce_value (trim v0)) as Hc.
    destruct (coerce (trim v0)) as [b|n|s]; auto.
    + tauto.
    + destruct Hc as (-> & Ht & Hf). split; [apply trim_idempotent|auto].
Qed.

End KeyValueInvariants.

Lemma parseKvContent_entries_witness :
  exists result,
    Sample.parseKvContent (lit "  accept : text/html ") = Some result /\
    obj_lookup result (lit "accept") = Some (KStr (lit "text/html")) /\
    ~ In COLON (lit "accept") /\ trim (lit "accept") = lit "accept".
Proof.
  eexists. split; [vm_compute; reflexivity|]. split; [reflexivity|].
  destruct (parseKvContent_entries _ Sample.Number Sample.isNaN
              (lit "  accept : text/html ") _ (lit "accept")
              (KStr (lit "text/html")) eq_refl eq_refl) as (H1 & H2 & _).
  split; [exact H1|exact H2].
Defined.

(** ** The name, the method and the URL of a document *)

Lemma skip_ws_app_ws w s : forallb is_ws w = true -> skip_ws (w ++ s) = skip_ws s.
Proof.
  induction w as [|c w IH]; simpl; auto.
  intros H. apply andb_prop in H. destruct H as [-> H]. auto.
Qed.

Lemma plain_header_at_spec name s r :
  plain_header_at name s = Some r <->
  exists sep, s = name ++ sep ++ LBRACE :: r /\ forallb is_ws sep = true.
Proof.
  unfold plain_header_at. split.
  - destruct (strip_prefix name s) as [r0|] eqn:E; [|discriminate].
    apply strip_prefix_Some in E. subst s.
    destruct (skip_ws_suffix r0) as (w & Hr & Hw).
    destruct (skip_ws r0) as [|c t]; [discriminate|].
    destruct (N.eqb_spec c LBRACE) as [->|]; [|discriminate].
    intros H. injection H as <-. exists w. now rewrite <- Hr.
  - intros (sep & -> & Hw).
    assert (E : strip_prefix name (name ++ sep ++ LBRACE :: r)
                = Some (sep ++ LBRACE :: r)) by now apply strip_prefix_Some.
    rewrite E, (skip_ws_app_ws sep _ Hw). cbn [skip_ws].
    replace (is_ws LBRACE) with false by reflexivity.
    now rewrite N.eqb_refl.
Qed.

Lemma first_token_Some tokens s tk :
  first_token tokens s = Some tk ->
  In tk tokens /\ exists r, plain_header_at tk s = Some r.
Proof.
  induction tokens as [|t0 rest IH]; simpl; [discriminate|].
  destruct (plain_header_at t0 s) as [r|] eqn:E.
  - intros H. injection H as <-. split; [now left|eauto].
  - intros H. destruct (IH H) as [Hin Hr]. split; [now right|exact Hr].
Qed.

Lemma first_token_None tokens s :
  first_token tokens s = None <->
  forall tk, In tk tokens -> plain_header_at tk s = None.
Proof.
  induction tokens as [|t0 rest IH]; simpl.
  - split; [intros _ tk []|reflexivity].
  - destruct (plain_header_at t0 s) as [r|] eqn:E.
    + split; [discriminate|]. intros H. rewrite (H t0) in E by now left.
      discriminate.
    + rewrite IH. split.
      * intros H tk [<-|Hin]; auto.
      * intros H tk Hin. apply H. now right.
Qed.

(** No token of the method pattern starts another one, so one token at
    most heads a text. *)
Lemma method_token_unique tk tk' rest :
  In tk method_tokens -> In tk' method_tokens -> tk <> tk' ->
  strip_prefix tk' (tk ++ rest) = None.
Proof.
  unfold method_tokens. cbn [map In]. intros H H' Hne.
  repeat (destruct H as [<-|H]; [|]); try (destruct H);
    repeat (destruct H' as [<-|H']; [|]); try (destruct H');
    try congruence; reflexivity.
Qed.

Lemma first_token_head tk sep post :
  In tk method_tokens -> forallb is_ws sep = true ->
  first_token method_tokens (tk ++ sep ++ LBRACE :: post) = Some tk.
Proof.
  intros Hin Hw.
  destruct (first_token method_tokens (tk ++ sep ++ LBRACE :: post))
    as [tk'|] eqn:E.
  - destruct (first_token_Some _ _ _ E) as (Hin' & r & Hr).
    destruct (list_eq_dec N.eq_dec tk tk') as [->|Hne]; [reflexivity|].
    unfold plain_header_at in Hr.
    now rewrite (method_token_unique tk tk' _ Hin Hin' Hne) in Hr.
  - rewrite first_token_None in E. specialize (E tk Hin).
    assert (H : plain_header_at tk (tk ++ sep ++ LBRACE :: post) = Some post)
      by (apply plain_header_at_spec; eauto).
    congruence.
Qed.

Lemma match_method_Some s : forall b tk,
  match_method s b = Some tk -> In tk method_tokens.
Proof.
  induction s as [|c t IH]; intros b tk; cbn [match_method].
  - destruct b; [|discriminate].
    destruct (first_token method_tokens []) eqn:E; [|discriminate].
    intros H. injection H as <-. now apply first_token_Some in E.
  - destruct (if b then first_token method_tokens (c :: t) else None)
      as [tk'|] eqn:E.
    + intros H. injection H as <-. destruct b; [|discriminate].
      now apply first_token_Some in E.
    + apply IH.
Qed.

Lemma line_start_cons c pre :
  line_start (c :: pre) <->
  (pre = [] /\ is_lt c = true) \/ (pre <> [] /\ line_start pre).
Proof.
  unfold line_start. split.
  - intros [H|(p & d & H & Hd)]; [discriminate|].
    destruct p as [|x p]; cbn [app] in H.
    + injection H as -> ->. now left.
    + injection H as -> ->. right. split; [now destruct p|].
      right. eauto.
  - intros [[-> Hc]|[Hne [->|(p & d & -> & Hd)]]].
    + right. exists [], c. auto.
    + congruence.
    + right. exists (c :: p), d. auto.
Qed.

(** The method pattern finds nothing exactly when no header of a token
    stands at the start of a line; [b] tells whether the text itself
    starts a line. *)
Lemma match_method_None s : forall b,
  match_method s b = None <->
  forall pre tk, (pre = [] -> b = true) -> (pre <> [] -> line_start pre) ->
                 ~ method_header s pre tk.
Proof.
  induction s as [|c t IH]; intros b.
  - cbn [match_method]. split.
    + intros _ pre tk _ _ (_ & sep & post & H & _).
      destruct pre; [destruct tk; [destruct sep|]|]; discriminate.
    + intros _. destruct b; [|reflexivity].
      assert (E : first_token method_tokens [] = None).
      { apply first_token_None. intros tk Hin.
        destruct (plain_header_at tk []) eqn:E; auto.
        apply plain_header_at_spec in E. destruct E as (sep & E & _).
        destruct tk; [destruct sep|]; discriminate. }
      now rewrite E.
  - cbn [match_method].
    assert (Hhead : forall tk,
              (exists r, plain_header_at tk (c :: t) = Some r) <->
              exists sep post, c :: t = [] ++ tk ++ sep ++ LBRACE :: post /\
                               forallb is_ws sep = true).
    { intros tk. split.
      - intros (r & Hr). apply plain_header_at_spec in Hr.
        destruct Hr as (sep & E & Hw). exists sep, r. auto.
      - intros (sep & post & E & Hw). exists post.
        apply plain_header_at_spec. exists sep. auto. }
    assert (Htail : match_method t (is_lt c) = None <->
              forall pre tk, pre <> [] -> line_start pre ->
                             ~ method_header (c :: t) pre tk).
    { rewrite IH. split.
      - intros H pre tk Hne Hls (Hin & sep & post & E & Hw).
        destruct pre as [|x pre]; [congruence|]. cbn [app] in E.
        injection E as <- E.
        apply (H pre tk).
        + intros ->. apply line_start_cons in Hls.
          destruct Hls as [[_ Hc]|[Hne' _]]; congruence.
        + intros Hne'. apply line_start_cons in Hls.
          destruct Hls as [[-> _]|[_ Hls]]; [congruence|exact Hls].
        + split; [exact Hin|]. exists sep, post. auto.
      - intros H pre tk Hb Hls (Hin & sep & post & E & Hw).
        apply (H (c :: pre) tk); [discriminate| |].
        + apply line_start_cons. destruct pre as [|x pre].
          * left. split; auto.
          * right. split; [discriminate|]. apply Hls. discriminate.
        + split; [exact Hin|]. exists sep, post. cbn [app]. now rewrite E. }
    destruct b.
    + destruct (first_token method_tokens (c :: t)) as [tk'|] eqn:E.
      * split; [discriminate|]. intros H. exfalso.
        destruct (first_token_Some _ _ _ E) as (Hin & Hr).
        apply Hhead in Hr. destruct Hr as (sep & post & Hc & Hw).
        apply (H [] tk'); [reflexivity|congruence|].
        split; [exact Hin|]. exists sep, post. auto.
      * rewrite Htail. split.
        -- intros H pre tk _ Hls. destruct pre as [|x pre].
           ++ intros (Hin & Hm). apply Hhead in Hm.
              destruct Hm as (r & Hr).
              rewrite first_token_None in E. rewrite (E tk Hin) in Hr.
              discriminate.
           ++ apply H; [discriminate|]. apply Hls. discriminate.
        -- intros H pre tk Hne Hls. apply H; [reflexivity|]. now intros _.
    + rewrite Htail. split.
      * intros H pre tk Hb Hls. destruct pre as [|x pre].
        -- specialize (Hb eq_refl). discriminate.
        -- apply H; [discriminate|]. apply Hls. discriminate.
      * intros H pre tk Hne Hls. apply H; [congruence|]. now intros _.
Qed.

Lemma match_method_head s tk :
  first_token method_tokens s = Some tk -> match_method s true = Some tk.
Proof. intros H. destruct s; cbn [match_method]; now rewrite H. Qed.

Lemma unknown_is_no_token : ~ In (lit "unknown") method_tokens.
Proof.
  unfold method_tokens. cbn [map In]. intros H.
  repeat (destruct H as [H|H]; [discriminate H|]). destruct H.
Qed.

Lemma take_line_no_lt s c : In c (take_line s) -> is_lt c = false.
Proof.
  induction s as [|x s IH]; simpl; [tauto|].
  destruct (is_lt x) eqn:E; [intros []|]. intros [<-|H]; auto.
Qed.

Lemma take_line_app line rest :
  (forall c, In c line -> is_lt c = false) ->
  (rest = [] \/ exists c r, rest = c :: r /\ is_lt c = true) ->
  take_line (line ++ rest) = line.
Proof.
  intros Hl Hr. induction line as [|x line IH]; cbn [app take_line].
  - destruct Hr as [->|(c & r & -> & Hc)]; [reflexivity|].
    cbn [take_line]. now rewrite Hc.
  - rewrite (Hl x) by now left. f_equal. apply IH.
    intros c Hc. apply Hl. now right.
Qed.

Lemma last_non_lt_Some r c : last_non_lt r = Some c -> is_lt c = false.
Proof.
  revert c. induction r as [|x r IH]; intros c; simpl; [discriminate|].
  destruct (last_non_lt r) as [d|].
  - intros H. injection H as <-. now apply IH.
  - destruct (is_lt x) eqn:E; [discriminate|]. intros H. now injection H as <-.
Qed.

Lemma key_line_at_group key s g :
  key_line_at key s = Some g -> forall c, In c g -> is_lt c = false.
Proof.
  unfold key_line_at. destruct (strip_prefix key s) as [r|]; [|discriminate].
  destruct (skip_ws r) as [|x t].
  - destruct (last_non_lt r) as [d|] eqn:E; [|discriminate].
    intros H. injection H as <-. intros c [<-|[]].
    now apply (last_non_lt_Some r).
  - intros H. injection H as <-. intros c Hc.
    exact (take_line_no_lt (x :: t) c Hc).
Qed.

Lemma match_key_line_group key s : forall g,
  match_key_line key s = Some g -> forall c, In c g -> is_lt c = false.
Proof.
  induction s as [|x s IH]; intros g; cbn [match_key_line].
  - destruct (key_line_at key []) as [g'|] eqn:E; [|discriminate].
    intros H. injection H as <-. now apply (key_line_at_group key []).
  - destruct (key_line_at key (x :: s)) as [g'|] eqn:E.
    + intros H. injection H as <-. now apply (key_line_at_group key (x :: s)).
    + apply IH.
Qed.

Lemma match_key_line_absent key s :
  (forall p q, s <> p ++ key ++ q) -> match_key_line key s = None.
Proof.
  induction s as [|x s IH]; intros H.
  - cbn [match_key_line]. unfold key_line_at.
    destruct (strip_prefix key []) as [r|] eqn:E; [|reflexivity].
    apply strip_prefix_Some in E. exfalso. apply (H [] r). exact E.
  - cbn [match_key_line]. unfold key_line_at.
    destruct (strip_prefix key (x :: s)) as [r|] eqn:E.
    + apply strip_prefix_Some in E. exfalso. apply (H [] r). exact E.
    + apply IH. intros p q Hs. apply (H (x :: p) q). cbn [app]. now rewrite Hs.
Qed.

(** The first occurrence of the key decides, and its group is the rest
    of the line from the first code unit that is not whitespace. *)
Lemma match_key_line_first key pre : forall s ws line rest,
  s = pre ++ key ++ ws ++ line ++ rest ->
  (forall p q, length p < length pre -> s <> p ++ key ++ q) ->
  forallb is_ws ws = true ->
  (exists c l, line = c :: l /\ is_ws c = false) ->
  (forall c, In c line -> is_lt c = false) ->
  (rest = [] \/ exists c r, rest = c :: r /\ is_lt c = true) ->
  match_key_line key s = Some line.
Proof.
  induction pre as [|x pre IH]; intros s ws line rest Hs Hfirst Hw Hline Hl Hr.
  - cbn [app] in Hs.
    assert (E : key_line_at key s = Some line).
    { unfold key_line_at.
      assert (Ep : strip_prefix key s = Some (ws ++ line ++ rest))
        by now apply strip_prefix_Some.
      rewrite Ep, (skip_ws_app_ws ws _ Hw).
      destruct Hline as (c & l & -> & Hc). cbn [app skip_ws]. rewrite Hc.
      f_equal. now apply (take_line_app (c :: l) rest). }
    destruct s; cbn [match_key_line]; now rewrite E.
  - cbn [app] in Hs. subst s. cbn [match_key_line].
    assert (E : key_line_at key (x :: pre ++ key ++ ws ++ line ++ rest) = None).
    { unfold key_line_at.
      destruct (strip_prefix key (x :: pre ++ key ++ ws ++ line ++ rest))
        as [r|] eqn:E; [|reflexivity].
      apply strip_prefix_Some in E. exfalso.
      apply (Hfirst [] r); [cbn [length]; lia|exact E]. }
    rewrite E. apply (IH _ ws line rest); auto.
    intros p q Hp Hs. apply (Hfirst (x :: p) q); [cbn [length]; lia|].
    cbn [app]. now rewrite Hs.
Qed.

Lemma match_meta_absent s :
  (forall p q, s <> p ++ lit "meta" ++ q) -> match_meta s = None.
Proof.
  induction s as [|x s IH]; intros H; cbn [match_meta].
  - reflexivity.
  - destruct (plain_header_at (lit "meta") (x :: s)) as [r|] eqn:E.
    + apply plain_header_at_spec in E. destruct E as (sep & E & _).
      exfalso. apply (H [] (sep ++ LBRACE :: r)). exact E.
    + apply IH. intros p q Hs. apply (H (x :: p) q). cbn [app]. now rewrite Hs.
Qed.

Lemma match_meta_no_brace s : forall g,
  match_meta s = Some g -> ~ In RBRACE g.
Proof.
  induction s as [|x s IH]; intros g; cbn [match_meta].
  - destruct (plain_header_at (lit "meta") []) as [r|];
      [|discriminate].
    destruct (index_of RBRACE r) as [k|] eqn:Ei; [|discriminate].
    intros H. injection H as <-.
    destruct (index_of_split _ _ _ Ei) as (a & b & -> & <- & Hn).
    now rewrite firstn_app, Nat.sub_diag, firstn_all, app_nil_r.
  - destruct (plain_header_at (lit "meta") (x :: s)) as [r|]; [|apply IH].
    destruct (index_of RBRACE r) as [k|] eqn:Ei; [|discriminate].
    intros H. injection H as <-.
    destruct (index_of_split _ _ _ Ei) as (a & b & -> & <- & Hn).
    now rewrite firstn_app, Nat.sub_diag, firstn_all, app_nil_r.
Qed.

Lemma take_line_within s c : In c (take_line s) -> In c s.
Proof.
  induction s as [|x s IH]; simpl; [tauto|].
  destruct (is_lt x); [intros []|]. intros [<-|H]; auto.
Qed.

Lemma last_non_lt_within r : forall d, last_non_lt r = Some d -> In d r.
Proof.
  induction r as [|z r IH]; intros d; simpl; [discriminate|].
  destruct (last_non_lt r) as [e|].
  - intros H. injection H as <-. right. now apply IH.
  - destruct (is_lt z); [discriminate|]. intros H. injection H as <-. now left.
Qed.

Lemma key_line_at_within key s g c :
  key_line_at key s = Some g -> In c g -> In c s.
Proof.
  unfold key_line_at. destruct (strip_prefix key s) as [r|] eqn:Ep;
    [|discriminate].
  apply strip_prefix_Some in Ep. subst s. intros E Hin.
  apply in_or_app. right.
  destruct (skip_ws r) as [|y t] eqn:Es.
  - destruct (last_non_lt r) as [d|] eqn:El; [|discriminate].
    injection E as <-. destruct Hin as [<-|[]].
    now apply last_non_lt_within.
  - injection E as <-. apply in_skip_ws. rewrite Es.
    now apply take_line_within.
Qed.

Lemma match_key_line_within key s : forall g c,
  match_key_line key s = Some g -> In c g -> In c s.
Proof.
  induction s as [|x s IH]; intros g c; cbn [match_key_line].
  - destruct (key_line_at key []) as [g'|] eqn:E; [|discriminate].
    intros H. injection H as <-. now apply (key_line_at_within key []).
  - destruct (key_line_at key (x :: s)) as [g'|] eqn:E.
    + intros H. injection H as <-. now apply (key_line_at_within key (x :: s)).
    + intros H Hin. right. eapply IH; eauto.
Qed.

Section DocumentHeading.

Variable num : Type.
Variable Number : str -> num.
Variable isNaN : num -> bool.
Variable parseInt10 : str -> num.
Variable num_truthy : num -> bool.
Variable same_num : num -> num -> bool.
Variable J : Type.
Variable JSON5_parse : str -> outcome J.
Variable basename_bru : str -> str.

Local Abbreviation parseBruFile :=
  (parseBruFile Number isNaN parseInt10 num_truthy same_num JSON5_parse
     basename_bru).

Lemma parseBruFile_heading filePath content :
  exists doc,
    parseBruFile filePath content = Returned (Some doc) /\
    BruFile.name doc =
      match match_meta content with
      | Some meta =>
          match match_key_line (lit "name:") meta with
          | Some n => trim n
          | None => basename_bru filePath
          end
      | None => basename_bru filePath
      end /\
    BruFile.method doc =
      match match_method content true with
      | Some tk => tk
      | None => lit "unknown"
      end /\
    BruFile.url doc =
      match match_key_line (lit "url:") content with
      | Some u => trim u
      | None => []
      end.
Proof.
  unfold parseBruFile.
  rewrite (example_loop_first_wins _ Number isNaN parseInt10 num_truthy
             same_num _ JSON5_parse).
  cbn [bind fst app].
  rewrite document_body_returns. cbn [bind].
  eexists. split; [reflexivity|].
  cbn [BruFile.name BruFile.method BruFile.url]. auto.
Qed.

(** The method of a document is one of the seven tokens of the pattern
    or [unknown]; it is [unknown] exactly when no token followed by an
    opening brace stands at the start of a line (a header that is
    indented is not seen), and a header at the start of the text
    decides. *)
Theorem document_method (filePath content : str) :
  exists doc,
    parseBruFile filePath content = Returned (Some doc) /\
    In (BruFile.method doc) (lit "unknown" :: method_tokens) /\
    (BruFile.method doc = lit "unknown" <->
     forall pre token, line_start pre -> ~ method_header content pre token) /\
    (forall token, method_header content [] token ->
                   BruFile.method doc = token).
Proof.
  destruct (parseBruFile_heading filePath content) as (doc & Hdoc & _ & Hm & _).
  exists doc. split; [exact Hdoc|]. rewrite Hm.
  assert (Hnone : match_method content true = None <->
            forall pre token, line_start pre ->
                              ~ method_header content pre token).
  { rewrite match_method_None. split.
    - intros H pre tk Hls. apply H; auto.
    - intros H pre tk _ Hls. apply H. destruct pre as [|x pre].
      + now left.
      + apply Hls. discriminate. }
  destruct (match_method content true) as [tk|] eqn:E.
  - pose proof (match_method_Some _ _ _ E) as Hin.
    split; [now right|]. split.
    + split.
      * intros ->. exfalso. now apply unknown_is_no_token.
      * intros H. apply Hnone in H. discriminate.
    + intros token (Hin' & sep & post & Hc & Hw). cbn [app] in Hc.
      rewrite Hc in E.
      rewrite (match_method_head _ _ (first_token_head _ sep post Hin' Hw)) in E.
      now injection E.
  - split; [now left|]. split.
    + split; [intros _; now apply Hnone|reflexivity].
    + intros token (Hin' & sep & post & Hc & Hw). cbn [app] in Hc.
      rewrite Hc in E.
      rewrite (match_method_head _ _ (first_token_head _ sep post Hin' Hw)) in E.
      discriminate.
Qed.

(** The URL of a document has no whitespace around it and no line
    terminator in it, and is empty when the text [url:] does not occur;
    it is read after the first [url:] of the whole text: the rest of
    that line from its first code unit that is not whitespace, trimmed. *)
Theorem document_url (filePath content : str) :
  exists doc,
    parseBruFile filePath content = Returned (Some doc) /\
    trim (BruFile.url doc) = BruFile.url doc /\
    (forall c, In c (BruFile.url doc) -> is_lt c = false) /\
    ((forall p q, content <> p ++ lit "url:" ++ q) -> BruFile.url doc = []) /\
    (forall pre ws line rest,
       content = pre ++ lit "url:" ++ ws ++ line ++ rest ->
       (forall p q, length p < length pre -> content <> p ++ lit "url:" ++ q) ->
       forallb is_ws ws = true ->
       (exists c l, line = c :: l /\ is_ws c = false) ->
       (forall c, In c line -> is_lt c = false) ->
       (rest = [] \/ exists c r, rest = c :: r /\ is_lt c = true) ->
       BruFile.url doc = trim line).
Proof.
  destruct (parseBruFile_heading filePath content) as (doc & Hdoc & _ & _ & Hu).
  exists doc. split; [exact Hdoc|]. rewrite Hu.
  split; [|split; [|split]].
  - destruct (match_key_line (lit "url:") content);
      [apply trim_idempotent|reflexivity].
  - destruct (match_key_line (lit "url:") content) as [u|] eqn:E; [|intros c []].
    intros c Hc. apply in_trim in Hc.
    exact (match_key_line_group _ _ _ E c Hc).
  - intros H. now rewrite (match_key_line_absent _ _ H).
  - intros pre ws line rest Hc Hfirst Hw Hline Hl Hr.
    now rewrite (match_key_line_first _ pre content ws line rest
                   Hc Hfirst Hw Hline Hl Hr).
Qed.

(** The name of a document is the base name of the file when the text
    [meta] does not occur; a name that is read from the meta block has no
    whitespace around it, no line terminator and no closing brace in
    it. *)
Theorem document_name (filePath content : str) :
  exists doc,
    parseBruFile filePath content = Returned (Some doc) /\
    ((forall p q, content <> p ++ lit "meta" ++ q) ->
     BruFile.name doc = basename_bru filePath) /\
    (BruFile.name doc = basename_bru filePath \/
     (trim (BruFile.name doc) = BruFile.name doc /\
      forall c, In c (BruFile.name doc) -> is_lt c = false /\ c <> RBRACE)).
Proof.
  destruct (parseBruFile_heading filePath content) as (doc & Hdoc & Hn & _).
  exists doc. split; [exact Hdoc|]. rewrite Hn. split.
  - intros H. now rewrite (match_meta_absent _ H).
  - destruct (match_meta content) as [meta|] eqn:Em; [|now left].
    destruct (match_key_line (lit "name:") meta) as [n|] eqn:En; [|now left].
    right. split; [apply trim_idempotent|].
    intros c Hc. apply in_trim in Hc. split.
    + exact (match_key_line_group _ _ _ En c Hc).
    + intros ->. apply (match_meta_no_brace _ _ Em).
      exact (match_key_line_within _ _ _ _ En Hc).
Qed.

End DocumentHeading.

(** ** Names: [toPascalCase] and [toCamelCase] *)

Lemma upper_alnum c : is_alnum c = true -> is_alnum (upper c) = true.
Proof.
  unfold upper. destruct (is_lower c) eqn:El; [intros _|auto].
  unfold is_lower in El. apply andb_prop in El. destruct El as [E1 E2].
  apply N.leb_le in E1, E2.
  unfold is_alnum, is_upper. apply orb_true_iff. left. apply orb_true_iff. left.
  apply andb_true_iff. split; apply N.leb_le; lia.
Qed.

Lemma lower_alnum c : is_alnum c = true -> is_alnum (lower c) = true.
Proof.
  unfold lower. destruct (is_upper c) eqn:El; [intros _|auto].
  unfold is_upper in El. apply andb_prop in El. destruct El as [E1 E2].
  apply N.leb_le in E1, E2.
  unfold is_alnum, is_lower. apply orb_true_iff. left. apply orb_true_iff. right.
  apply andb_true_iff. split; apply N.leb_le; lia.
Qed.

Lemma upper_upper c : upper (upper c) = upper c.
Proof.
  unfold upper at 1. destruct (is_lower (upper c)) eqn:E; [|reflexivity].
  exfalso. revert E. unfold upper. destruct (is_lower c) eqn:El; [|congruence].
  unfold is_lower in *. apply andb_prop in El. destruct El as [E1 E2].
  apply N.leb_le in E1, E2. intros E. apply andb_prop in E.
  destruct E as [E3 E4]. apply N.leb_le in E3, E4. lia.
Qed.

Lemma alnum_word c : is_alnum c = true -> is_word c = true.
Proof. unfold is_word. now intros ->. Qed.

Lemma pascal_from_alnum s : forall b c,
  In c (pascal_from s b) -> is_alnum c = true.
Proof.
  induction s as [|x s IH]; intros b c; cbn [pascal_from]; [intros []|].
  destruct (is_alnum x) eqn:Ex; [|apply IH].
  intros [<-|H]; [|eapply IH; eauto].
  destruct (is_word x && negb b); [now apply upper_alnum|exact Ex].
Qed.

Lemma pascal_from_length s : forall b, length (pascal_from s b) <= length s.
Proof.
  induction s as [|x s IH]; intros b; cbn [pascal_from length]; [lia|].
  destruct (is_alnum x); cbn [length]; specialize (IH (is_word x)); lia.
Qed.

Lemma pascal_from_nil s : forall b,
  pascal_from s b = [] <-> forall c, In c s -> is_alnum c = false.
Proof.
  induction s as [|x s IH]; intros b; cbn [pascal_from].
  - split; [intros _ c []|reflexivity].
  - destruct (is_alnum x) eqn:Ex.
    + split; [discriminate|]. intros H. rewrite (H x) in Ex by now left.
      discriminate.
    + rewrite IH. split.
      * intros H c [<-|Hc]; auto.
      * intros H c Hc. apply H. now right.
Qed.

(** After a word code unit, a text of letters and digits stays as it
    is. *)
Lemma pascal_from_word s :
  forallb is_alnum s = true -> pascal_from s true = s.
Proof.
  induction s as [|x s IH]; cbn [forallb pascal_from]; [reflexivity|].
  intros H. apply andb_prop in H. destruct H as [Hx Hs].
  rewrite Hx, (alnum_word x Hx), andb_false_r. f_equal. now apply IH.
Qed.

(** [toPascalCase] and [toCamelCase] give letters and digits only, never
    more code units than they got, and [toPascalCase] gives the empty
    text exactly for a text without a letter or a digit. *)
Theorem toPascalCase_alnum (s : str) :
  (forall c, In c (toPascalCase s) -> is_alnum c = true) /\
  (forall c, In c (toCamelCase s) -> is_alnum c = true) /\
  length (toPascalCase s) <= length s /\
  (toPascalCase s = [] <-> forall c, In c s -> is_alnum c = false).
Proof.
  assert (H : forall c, In c (toPascalCase s) -> is_alnum c = true)
    by (intros c; apply pascal_from_alnum).
  split; [exact H|]. split; [|split].
  - unfold toCamelCase. destruct (toPascalCase s) as [|x t]; [intros c []|].
    intros c [<-|Hc].
    + apply lower_alnum, H. now left.
    + apply H. now right.
  - apply pascal_from_length.
  - apply pascal_from_nil.
Qed.

(** Of a text of letters and digits [toPascalCase] changes the first
    code unit alone, to upper case; so it gives back what it gave. *)
Theorem toPascalCase_word (s : str) :
  forallb is_alnum s = true ->
  toPascalCase s = match s with [] => [] | c :: t => upper c :: t end /\
  toPascalCase (toPascalCase s) = toPascalCase s.
Proof.
  intros H.
  assert (E : forall x t, forallb is_alnum (x :: t) = true ->
                          toPascalCase (x :: t) = upper x :: t).
  { intros x t Hxt. cbn [forallb] in Hxt. apply andb_prop in Hxt.
    destruct Hxt as [Hx Ht]. unfold toPascalCase. cbn [pascal_from].
    rewrite Hx, (alnum_word x Hx). cbn [negb andb]. f_equal.
    now apply pascal_from_word. }
  destruct s as [|c t]; [split; reflexivity|].
  rewrite (E c t H). split; [reflexivity|].
  rewrite E, upper_upper; [reflexivity|].
  cbn [forallb] in *. apply andb_prop in H. destruct H as [Hc Ht].
  now rewrite (upper_alnum c Hc).
Qed.

Lemma toPascalCase_word_witness :
  toPascalCase (lit "getPostsBody") = lit "GetPostsBody" /\
  toPascalCase (toPascalCase (lit "getPostsBody"))
  = toPascalCase (lit "getPostsBody").
Proof.
  exact (toPascalCase_word (lit "getPostsBody") eq_refl).
Defined.

(** ** [urlToPathName] *)

Lemma in_concat_map {A} (f : A -> str) xs c :
  In c (concat (map f xs)) -> exists x, In x xs /\ In c (f x).
Proof.
  induction xs as [|x xs IH]; cbn [map concat]; [intros []|].
  rewrite in_app_iff. intros [H|H]; [exists x; split; [now left|exact H]|].
  destruct (IH H) as (y & Hy & Hc). exists y. split; [now right|exact Hc].
Qed.

(** The path name of a URL holds letters and digits only. *)
Lemma urlToPathName_alnum url c :
  In c (urlToPathName url) -> is_alnum c = true.
Proof.
  unfold urlToPathName.
  destruct (trim_slashes (cut_query (strip_origin (remove_templates url 0))));
    [intros []|].
  rewrite map_map. intros H. apply in_concat_map in H.
  destruct H as (seg & _ & H). now apply (pascal_from_alnum _ _ _ H).
Qed.

Lemma find_sub_aux_None p s : forall before,
  find_sub_aux p s before = None ->
  strip_prefix p s = None /\
  match s with [] => True | c :: t => find_sub_aux p t (c :: before) = None end.
Proof.
  intros before. destruct s as [|c t]; cbn [find_sub_aux];
    destruct (strip_prefix p _) eqn:E; try discriminate; auto.
Qed.

Lemma remove_templates_plain s : forall before,
  find_sub_aux (lit "{{") s before = None -> remove_templates s 0 = s.
Proof.
  induction s as [|c t IH]; intros before H; [reflexivity|].
  destruct (find_sub_aux_None _ _ _ H) as [Hp Ht].
  cbn [remove_templates]. unfold template_len. rewrite Hp. f_equal.
  now apply (IH (c :: before)).
Qed.

Lemma cut_query_plain s :
  (forall c, In c s -> c <> QUESTION /\ c <> HASH) -> cut_query s = s.
Proof.
  induction s as [|c t IH]; intros H; cbn [cut_query]; [reflexivity|].
  destruct (H c (or_introl eq_refl)) as [Hq Hh].
  apply N.eqb_neq in Hq, Hh. rewrite Hq, Hh. cbn [orb andb]. f_equal.
  apply IH. intros d Hd. apply H. now right.
Qed.

Lemma in_join sep xs c :
  In c (join sep xs) -> In c sep \/ exists x, In x xs /\ In c x.
Proof.
  induction xs as [|x xs IH]; cbn [join]; [intros []|].
  destruct xs as [|y ys].
  - intros H. right. exists x. split; [now left|exact H].
  - rewrite !in_app_iff. intros [H|[H|H]].
    + right. exists x. split; [now left|exact H].
    + now left.
    + destruct (IH H) as [Hs|(z & Hz & Hc)]; [now left|].
      right. exists z. split; [now right|exact Hc].
Qed.

Lemma split_slash_aux_app x : forall rest cur,
  (forall c, In c x -> c <> SLASH) ->
  split_slash_aux (x ++ rest) cur = split_slash_aux rest (rev x ++ cur).
Proof.
  induction x as [|a x IH]; intros rest cur H; [reflexivity|].
  cbn [app split_slash_aux].
  assert (Ha : (a =? SLASH)%N = false)
    by (apply N.eqb_neq, H; now left).
  rewrite Ha, IH by (intros c Hc; apply H; now right).
  cbn [rev]. now rewrite <- app_assoc.
Qed.

Lemma split_slash_join segments :
  segments <> [] ->
  (forall seg c, In seg segments -> In c seg -> c <> SLASH) ->
  split_slash (join [SLASH] segments) = segments.
Proof.
  unfold split_slash.
  induction segments as [|x rest IH]; intros Hne H; [congruence|].
  destruct rest as [|y rest].
  - cbn [join]. rewrite <- (app_nil_r x) at 1.
    rewrite split_slash_aux_app by (intros c; apply H; now left).
    cbn [split_slash_aux]. now rewrite app_nil_r, rev_involutive.
  - change (join [SLASH] (x :: y :: rest))
      with (x ++ [SLASH] ++ join [SLASH] (y :: rest)).
    rewrite split_slash_aux_app by (intros c; apply H; now left).
    cbn [app split_slash_aux]. rewrite N.eqb_refl, app_nil_r, rev_involutive.
    f_equal. apply IH; [discriminate|].
    intros seg c Hs. apply H. now right.
Qed.

Lemma join_snoc sep xs x :
  join sep (xs ++ [x])
  = match xs with [] => x | _ => join sep xs ++ sep ++ x end.
Proof.
  induction xs as [|a xs IH]; [reflexivity|].
  destruct xs as [|b xs]; [reflexivity|].
  change (join sep ((a :: b :: xs) ++ [x]))
    with (a ++ sep ++ join sep ((b :: xs) ++ [x])).
  rewrite IH. change (join sep (a :: b :: xs))
    with (a ++ sep ++ join sep (b :: xs)).
  now rewrite <- !app_assoc.
Qed.

(** A text joined from segments without a slash and without an empty
    one neither starts nor ends with a slash. *)
Lemma join_ends segments :
  segments <> [] ->
  (forall seg, In seg segments ->
     seg <> [] /\ forall c, In c seg -> c <> SLASH) ->
  (exists c t, join [SLASH] segments = c :: t /\ c <> SLASH) /\
  (exists c t, rev (join [SLASH] segments) = c :: t /\ c <> SLASH).
Proof.
  intros Hne H. split.
  - destruct segments as [|x rest]; [congruence|].
    destruct (H x (or_introl eq_refl)) as [Hx Hc].
    destruct x as [|c t]; [congruence|].
    exists c. destruct rest; cbn [join app]; eexists; split; try reflexivity;
      apply Hc; now left.
  - destruct (exists_last Hne) as (front & x & ->).
    destruct (H x) as [Hx Hc]; [apply in_or_app; right; now left|].
    destruct (exists_last Hx) as (l & c & ->).
    exists c. rewrite join_snoc.
    destruct front; [|rewrite !app_assoc]; rewrite rev_app_distr;
      cbn [rev app]; eexists; split; try reflexivity;
      apply Hc; apply in_or_app; right; now left.
Qed.

Lemma drop_while_head p s :
  match s with [] => True | c :: _ => p c = false end -> drop_while p s = s.
Proof. destruct s as [|c t]; cbn [drop_while]; auto. now intros ->. Qed.

Lemma is_slash_false c : c <> SLASH -> is_slash c = false.
Proof. intros H. now apply N.eqb_neq. Qed.

(** The steps before the split leave such a text as it is, with or
    without a slash in front. *)
Lemma url_cleaning_plain segments url :
  segments <> [] ->
  (forall seg, In seg segments ->
     seg <> [] /\
     forall c, In c seg -> c <> SLASH /\ c <> QUESTION /\ c <> HASH) ->
  url = join [SLASH] segments \/ url = SLASH :: join [SLASH] segments ->
  find_sub (lit "{{") url = None ->
  trim_slashes (cut_query (strip_origin (remove_templates url 0)))
  = join [SLASH] segments.
Proof.
  intros Hne H Hurl Ht.
  assert (Hsl : forall seg, In seg segments ->
                  seg <> [] /\ forall c, In c seg -> c <> SLASH).
  { intros seg Hs. destruct (H seg Hs) as [H1 H2]. split; auto.
    intros c Hc. now apply H2. }
  assert (Hsplit : split_slash (join [SLASH] segments) = segments).
  { apply split_slash_join; auto. intros seg c Hs. now apply Hsl. }
  rewrite (remove_templates_plain url [] Ht).
  assert (Hchars : forall c, In c url -> c <> QUESTION /\ c <> HASH).
  { intros c Hc.
    assert (Hj : In c (join [SLASH] segments) -> c <> QUESTION /\ c <> HASH).
    { intros Hj. apply in_join in Hj.
      destruct Hj as [[<-|[]]|(seg & Hs & Hcs)].
      - split; discriminate.
      - destruct (H seg Hs) as [_ Hx]. now apply Hx. }
    destruct Hurl as [->| ->]; auto.
    destruct Hc as [<-|Hc]; auto. split; discriminate. }
  assert (Horigin : strip_origin url = url).
  { unfold strip_origin.
    assert (Hno : forall scheme r,
              scheme = lit "https:" \/ scheme = lit "http:" ->
              url <> scheme ++ [SLASH; SLASH] ++ r).
    { intros scheme r Hscheme E.
      assert (Hin : In [] segments).
      { rewrite <- Hsplit.
        destruct Hurl as [Hu|Hu]; rewrite Hu in E.
        - rewrite E. unfold split_slash.
          rewrite split_slash_aux_app
            by (destruct Hscheme as [-> | ->]; intros c Hc; vm_compute in Hc;
                intuition (subst; discriminate)).
          cbn [app split_slash_aux]. rewrite N.eqb_refl.
          right. now left.
        - exfalso. destruct Hscheme as [-> | ->]; discriminate E. }
      destruct (Hsl [] Hin) as [Hx _]. congruence. }
    destruct (strip_prefix (lit "https://") url) as [r|] eqn:E1.
    - apply strip_prefix_Some in E1. exfalso.
      apply (Hno (lit "https:") r); [now left|exact E1].
    - cbn [orElse].
      destruct (strip_prefix (lit "http://") url) as [r|] eqn:E2;
        [|reflexivity].
      apply strip_prefix_Some in E2. exfalso.
      apply (Hno (lit "http:") r); [now right|exact E2]. }
  rewrite Horigin, (cut_query_plain url Hchars).
  destruct (join_ends segments Hne Hsl)
    as [(c & t & Hhead & Hc) (d & u & Hlast & Hd)].
  unfold trim_slashes.
  assert (Hdrop : drop_while is_slash url = join [SLASH] segments).
  { destruct Hurl as [->| ->].
    - apply drop_while_head. rewrite Hhead. now apply is_slash_false.
    - cbn [drop_while]. replace (is_slash SLASH) with true by reflexivity.
      apply drop_while_head. rewrite Hhead. now apply is_slash_false. }
  rewrite Hdrop, drop_while_head, rev_involutive; [reflexivity|].
  rewrite Hlast. now apply is_slash_false.
Qed.

(** For a path of segments that are not empty and hold no slash,
    question mark or hash, in a URL without a template, with or without
    a slash in front: the path name is the PascalCase of each segment,
    after a colon in front of it and braces around it are taken off, one
    after the other. *)
Theorem urlToPathName_plain_path (segments : list str) (url : str) :
  segments <> [] ->
  (forall seg, In seg segments ->
     seg <> [] /\
     forall c, In c seg -> c <> SLASH /\ c <> QUESTION /\ c <> HASH) ->
  url = join [SLASH] segments \/ url = SLASH :: join [SLASH] segments ->
  find_sub (lit "{{") url = None ->
  urlToPathName url
  = concat (map (fun seg => toPascalCase (clean_segment seg)) segments).
Proof.
  intros Hne H Hurl Ht. unfold urlToPathName.
  rewrite (url_cleaning_plain segments url Hne H Hurl Ht).
  assert (Hsl : forall seg c, In seg segments -> In c seg -> c <> SLASH).
  { intros seg c Hs Hc. destruct (H seg Hs) as [_ Hx]. now apply Hx. }
  rewrite (split_slash_join segments Hne Hsl).
  assert (Hfilter : filter nonempty segments = segments).
  { clear -H. induction segments as [|x rest IH]; [reflexivity|].
    cbn [filter]. destruct (H x (or_introl eq_refl)) as [Hx _].
    destruct x; [congruence|]. cbn [nonempty]. f_equal. apply IH.
    intros seg Hs. apply H. now right. }
  rewrite Hfilter, map_map.
  destruct (join_ends segments Hne) as [(c & t & -> & _) _]; [|reflexivity].
  intros seg Hs. destruct (H seg Hs) as [H1 H2]. split; auto.
  intros d Hd. now apply H2.
Qed.

Lemma urlToPathName_plain_path_witness :
  urlToPathName (lit "/users/:id/{postId}") = lit "UsersIdPostId".
Proof.
  apply (urlToPathName_plain_path
           [lit "users"; lit ":id"; lit "{postId}"]
           (lit "/users/:id/{postId}")).
  - discriminate.
  - intros seg [<-|[<-|[<-|[]]]]; (split; [discriminate|]);
      intros c Hc; vm_compute in Hc;
      intuition (subst; discriminate).
  - right. reflexivity.
  - reflexivity.
Defined.

(** ** The loop of [generateSchemas] *)

Section OutputInvariants.

Variable num J : Type.
Variable data : Type.
Variable of_body : J -> data.
Variable of_mapping : kv_object num -> data.
Variable data_truthy : data -> bool.
Variable data_no_keys : data -> bool.
Variable infer : str -> data -> json.
Variable render : json -> str -> str.
Variable status_text : num -> str.
Variable restructure : json -> str -> walk json.
Variable base_name : BruFile.t num J -> str.
Variable with_responses : bool.

Local Abbreviation generateComponentSchema :=
  (generateComponentSchema data data_truthy data_no_keys infer render
     restructure).
Local Abbreviation runGen :=
  (runGen data data_truthy data_no_keys infer render restructure).
Local Abbreviation run_all :=
  (run_all data data_truthy data_no_keys infer render restructure).
Local Abbreviation components :=
  (components num J data of_body of_mapping status_text with_responses).
Local Abbreviation generate_file :=
  (generate_file num J data of_body of_mapping data_truthy data_no_keys infer
     render status_text restructure base_name with_responses).
Local Abbreviation generate_files :=
  (generate_files num J data of_body of_mapping data_truthy data_no_keys infer
     render status_text restructure base_name with_responses).
Local Abbreviation generateSchemas :=
  (generateSchemas num J data of_body of_mapping data_truthy data_no_keys infer
     render status_text restructure base_name with_responses).

Local Abbreviation yields_nothing := (yields_nothing data_truthy data_no_keys).
Local Abbreviation yields_schemas := (yields_schemas data_truthy data_no_keys).

Lemma runGen_nothing baseName acc component :
  yields_nothing component -> runGen baseName acc component = Finished acc.
Proof.
  unfold yields_nothing, runGen. destruct acc as [zs ts].
  destruct (snd component) as [d|]; [|reflexivity].
  intros [H|H].
  - now rewrite H.
  - destruct (data_truthy d); [|reflexivity]. cbn [negb].
    unfold generateComponentSchema. rewrite H, orb_true_r. cbn [wbind].
    cbn [zodSegments typeExports]. now rewrite !app_nil_r.
Qed.

Lemma run_all_nothing baseName cs : forall acc,
  (forall c, In c cs -> yields_nothing c) ->
  run_all baseName cs acc = Finished acc.
Proof.
  induction cs as [|c cs IH]; intros acc H; [reflexivity|].
  cbn [run_all]. rewrite runGen_nothing by (apply H; now left).
  cbn [wbind]. apply IH. intros d Hd. apply H. now right.
Qed.

Lemma yields_schemas_false component :
  yields_schemas component = false <-> yields_nothing component.
Proof.
  unfold yields_schemas, yields_nothing.
  destruct (snd component) as [d|]; [|tauto].
  destruct (data_truthy d), (data_no_keys d); cbn [andb negb];
    intuition discriminate.
Qed.

(** The declarations of a schema end with the one of the root. *)
Lemma declarations_of_nonempty baseName jsonSchema :
  fst (declarations_of baseName jsonSchema) <> [].
Proof.
  unfold declarations_of. cbn [fst].
  intros H. apply app_eq_nil in H. destruct H as [_ H]. discriminate.
Qed.

Lemma runGen_schemas baseName zs ts component zs' ts' :
  yields_schemas component = true ->
  runGen baseName (zs, ts) component = Finished (zs', ts') ->
  exists extra, extra <> [] /\ zs' = zs ++ extra.
Proof.
  unfold yields_schemas, runGen.
  destruct (snd component) as [d|]; [|discriminate].
  intros H. apply andb_prop in H. destruct H as [Ht Hk].
  rewrite Ht. cbn [negb]. unfold generateComponentSchema.
  rewrite Ht. apply negb_true_iff in Hk. rewrite Hk. cbn [negb orb].
  destruct (restructure _ _) as [restructured| | |]; cbn [wbind];
    try discriminate.
  pose proof (declarations_of_nonempty
                (toPascalCase (baseName ++ fst component)) restructured) as Hne.
  destruct (declarations_of _ restructured) as [declarations exports].
  cbn [wbind zodSegments typeExports fst] in *.
  intros H. injection H as <- <-. eexists. split; [|reflexivity].
  destruct declarations; [congruence|discriminate].
Qed.

Lemma run_all_extra baseName cs : forall zs ts zs' ts',
  run_all baseName cs (zs, ts) = Finished (zs', ts') ->
  exists extra,
    zs' = zs ++ extra /\
    (extra = [] <-> existsb yields_schemas cs = false).
Proof.
  induction cs as [|c cs IH]; intros zs ts zs' ts'; cbn [run_all existsb].
  - intros H. injection H as <- <-. exists []. rewrite app_nil_r. tauto.
  - destruct (runGen baseName (zs, ts) c) as [[zs1 ts1]| | |] eqn:E;
      cbn [wbind]; try discriminate.
    intros H. destruct (IH _ _ _ _ H) as (extra & -> & Hx).
    destruct (yields_schemas c) eqn:Ey; cbn [orb].
    + destruct (runGen_schemas _ _ _ _ _ _ Ey E) as (first & Hne & ->).
      exists (first ++ extra). rewrite app_assoc. split; [reflexivity|].
      split; [|discriminate]. intros H0. apply app_eq_nil in H0. tauto.
    + rewrite runGen_nothing in E by (now apply yields_schemas_false).
      injection E as <- <-. exists extra. auto.
Qed.

(** A document with a component that yields schemas. *)
Local Abbreviation documented :=
  (fun file : BruFile.t num J => existsb yields_schemas (components file)).

Lemma generate_file_effect st file st' :
  generate_file st file = Finished st' ->
  if documented file then
    exists content n,
      fst st' = fst st ++ [(base_name file ++ lit ".ts", content)] /\
      documentedEndpoints (snd st') = S (documentedEndpoints (snd st)) /\
      createdSchemas (snd st') = createdSchemas (snd st) + S n
  else st' = st.
Proof.
  unfold generate_file. destruct st as [written stats].
  destruct (run_all (base_name file) (components file) ([], []))
    as [[zs ts]| | |] eqn:E; cbn [wbind]; try discriminate.
  destruct (run_all_extra _ _ _ _ _ _ E) as (extra & Hzs & Hx).
  cbn [app] in Hzs. subst extra.
  destruct zs as [|z zs]; intros H; injection H as <-.
  - now rewrite (proj1 Hx eq_refl).
  - destruct (existsb yields_schemas (components file));
      [|destruct Hx as [_ Hx]; now specialize (Hx eq_refl)].
    exists (file_content (z :: zs) ts), (length zs).
    cbn [fst snd documentedEndpoints createdSchemas length]. auto.
Qed.

Lemma generate_files_invariant files : forall st st',
  generate_files files st = Finished st' ->
  map fst (fst st')
  = map fst (fst st)
    ++ map (fun file => base_name file ++ lit ".ts") (filter documented files) /\
  documentedEndpoints (snd st')
  = documentedEndpoints (snd st) + length (filter documented files) /\
  createdSchemas (snd st) + length (filter documented files)
  <= createdSchemas (snd st') /\
  (filter documented files = [] -> st' = st).
Proof.
  induction files as [|file files IH]; intros st st';
    cbn [generate_files filter].
  - intros H. injection H as <-. cbn [map length].
    rewrite app_nil_r. repeat split; auto; lia.
  - destruct (generate_file st file) as [st1| | |] eqn:E; cbn [wbind];
      try discriminate.
    intros H. destruct (IH _ _ H) as (Hn & Hd & Hc & He).
    apply generate_file_effect in E.
    destruct (existsb yields_schemas (components file)).
    + destruct E as (content & n & Hw & Hde & Hcs).
      cbn [map length]. rewrite Hn, Hw, map_app.
      cbn [map fst]. rewrite <- app_assoc. cbn [app].
      repeat split; auto; try lia. discriminate.
    + subst st1. auto.
Qed.

(** The counters of [generateSchemas] and the files it writes: one file
    for each document that has a component that is there, not falsy and
    not without keys, in the order of the list and under the base name
    of the document; [documentedEndpoints] is the number of the files;
    [createdSchemas] is not less, and is zero when no file is written. *)
Theorem generateSchemas_counts (bruFiles : list (BruFile.t num J))
    (written : list (str * str)) (stats : GenStats) :
  generateSchemas bruFiles = Finished (written, stats) ->
  map fst written
  = map (fun file => base_name file ++ lit ".ts")
        (filter (fun file => existsb yields_schemas (components file))
                bruFiles) /\
  documentedEndpoints stats = length written /\
  length written <= length bruFiles /\
  documentedEndpoints stats <= createdSchemas stats /\
  (written = [] -> createdSchemas stats = 0).
Proof.
  unfold generateSchemas. intros H.
  destruct (generate_files_invariant _ _ _ H) as (Hn & Hd & Hc & He).
  cbn [fst snd map app documentedEndpoints createdSchemas] in *.
  assert (Hlen : length written = length (filter documented bruFiles)).
  { rewrite <- (length_map fst written), Hn. apply length_map. }
  repeat split; auto; try lia.
  - rewrite Hlen. apply filter_length_le.
  - intros ->. destruct (filter documented bruFiles); [|discriminate].
    specialize (He eq_refl). now injection He as ->.
Qed.

(** A document all of whose components are absent, falsy or without
    keys adds no file and counts nothing. *)
Lemma generate_file_nothing st file :
  (forall c, In c (components file) -> yields_nothing c) ->
  generate_file st file = Finished st.
Proof.
  intros H. unfold generate_file. destruct st as [written stats].
  now rewrite run_all_nothing.
Qed.

Lemma generate_files_nothing files : forall st,
  (forall file c, In file files -> In c (components file) -> yields_nothing c) ->
  generate_files files st = Finished st.
Proof.
  induction files as [|file files IH]; intros st H; [reflexivity|].
  cbn [generate_files].
  rewrite generate_file_nothing by (intros c; apply H; now left).
  cbn [wbind]. apply IH. intros f c Hf. apply H. now right.
Qed.

(** A document without components has components that yield nothing. *)
Lemma bare_components (file : BruFile.t num J) :
  BruFile.body file = None -> BruFile.headers file = None ->
  BruFile.query file = None -> BruFile.params file = None ->
  BruFile.responses file = None ->
  forall c, In c (components file) -> yields_nothing c.
Proof.
  intros Hb Hh Hq Hp Hr c. unfold components.
  rewrite Hb, Hh, Hq, Hp, Hr. cbn [option_map].
  destruct with_responses; rewrite app_nil_r;
    intros [<-|[<-|[<-|[<-|[]]]]]; exact I.
Qed.

End OutputInvariants.

Lemma generateSchemas_counts_witness :
  exists written stats,
    PathNamedOutput.generateSchemas (fun j : json => j) SampleOutput.of_mapping
      SampleOutput.data_truthy SampleOutput.data_no_keys SampleOutput.infer
      SampleOutput.render SampleOutput.status_text 5
      [SampleOutput.ping_document; SampleOutput.posts_document]
    = Finished (written, stats) /\
    map fst written = [lit "GetPosts.ts"] /\
    documentedEndpoints stats = length written /\
    length written <= 2 /\
    documentedEndpoints stats <= createdSchemas stats /\
    (written = [] -> createdSchemas stats = 0).
Proof.
  eexists _, _. split; [vm_compute; reflexivity|].
  apply (generateSchemas_counts Sample.num json SampleOutput.data
           (fun j : json => j) SampleOutput.of_mapping
           SampleOutput.data_truthy SampleOutput.data_no_keys
           SampleOutput.infer SampleOutput.render SampleOutput.status_text
           (PathNamed.restructureArrays 5) PathNamedOutput.base_name true
           [SampleOutput.ping_document; SampleOutput.posts_document]).
  vm_compute. reflexivity.
Defined.

(** ** The names of the files *)

Lemma toPascalCase_forallb s : forallb is_alnum (toPascalCase s) = true.
Proof.
  apply forallb_forall. intros c Hc.
  now apply (pascal_from_alnum _ _ _ Hc).
Qed.

Lemma urlToPathName_forallb url : forallb is_alnum (urlToPathName url) = true.
Proof. apply forallb_forall. intros c. apply urlToPathName_alnum. Qed.

(** In the snapshot that names files by method and URL, every file
    written is named after a document of the list: the PascalCase of its
    method, the path name of its URL, and [.ts]; before [.ts] stand
    letters and digits only, so the file lies in the output directory
    itself. *)
Theorem PathNamed_file_names {num J data : Type} (of_body : J -> data)
    (of_mapping : kv_object num -> data)
    (data_truthy data_no_keys : data -> bool) (infer : str -> data -> json)
    (render : json -> str -> str) (status_text : num -> str) (fuel : nat)
    (bruFiles : list (BruFile.t num J)) (written : list (str * str))
    (stats : GenStats) (name : str) :
  PathNamedOutput.generateSchemas of_body of_mapping data_truthy data_no_keys
    infer render status_text fuel bruFiles = Finished (written, stats) ->
  In name (map fst written) ->
  exists file,
    In file bruFiles /\
    name = (toPascalCase (BruFile.method file)
            ++ urlToPathName (BruFile.url file)) ++ lit ".ts" /\
    forallb is_alnum (toPascalCase (BruFile.method file)
                      ++ urlToPathName (BruFile.url file)) = true.
Proof.
  unfold PathNamedOutput.generateSchemas, generateSchemas. intros H Hin.
  destruct (generate_files_invariant _ _ _ _ _ _ _ _ _ _ _ _ _ _ _ _ H)
    as (Hn & _).
  cbn [fst map app] in Hn. rewrite Hn in Hin. apply in_map_iff in Hin.
  destruct Hin as (file & <- & Hf). apply filter_In in Hf. exists file.
  split; [apply Hf|]. split; [reflexivity|].
  rewrite forallb_app, toPascalCase_forallb, urlToPathName_forallb.
  reflexivity.
Qed.

Lemma PathNamed_file_names_witness :
  exists file,
    In file [SampleOutput.ping_document; SampleOutput.posts_document] /\
    lit "GetPosts.ts"
    = (toPascalCase (BruFile.method file)
       ++ urlToPathName (BruFile.url file)) ++ lit ".ts" /\
    forallb is_alnum (toPascalCase (BruFile.method file)
                      ++ urlToPathName (BruFile.url file)) = true.
Proof.
  eapply (PathNamed_file_names (fun j : json => j) SampleOutput.of_mapping
            SampleOutput.data_truthy SampleOutput.data_no_keys
            SampleOutput.infer SampleOutput.render SampleOutput.status_text 5
            [SampleOutput.ping_document; SampleOutput.posts_document]).
  - vm_compute. reflexivity.
  - left. reflexivity.
Defined.

(** In the snapshot that names files by the name of the document, every
    file written is named after a document of the list: the PascalCase
    of its name and [.ts]; before [.ts] stand letters and digits only. *)
Theorem ArrayLayer_file_names {num J data : Type} (of_body : J -> data)
    (of_mapping : kv_object num -> data)
    (data_truthy data_no_keys : data -> bool) (infer : str -> data -> json)
    (render : json -> str -> str) (status_text : num -> str) (fuel : nat)
    (bruFiles : list (BruFile.t num J)) (written : list (str * str))
    (stats : GenStats) (name : str) :
  ArrayLayerOutput.generateSchemas of_body of_mapping data_truthy data_no_keys
    infer render status_text fuel bruFiles = Finished (written, stats) ->
  In name (map fst written) ->
  exists file,
    In file bruFiles /\
    name = toPascalCase (BruFile.name file) ++ lit ".ts" /\
    forallb is_alnum (toPascalCase (BruFile.name file)) = true.
Proof.
  unfold ArrayLayerOutput.generateSchemas, generateSchemas. intros H Hin.
  destruct (generate_files_invariant _ _ _ _ _ _ _ _ _ _ _ _ _ _ _ _ H)
    as (Hn & _).
  cbn [fst map app] in Hn. rewrite Hn in Hin. apply in_map_iff in Hin.
  destruct Hin as (file & <- & Hf). apply filter_In in Hf. exists file.
  split; [apply Hf|]. split; [reflexivity|].
  apply toPascalCase_forallb.
Qed.

Lemma ArrayLayer_file_names_witness :
  exists file,
    In file [SampleOutput.ping_document; SampleOutput.posts_document] /\
    lit "GetPosts.ts" = toPascalCase (BruFile.name file) ++ lit ".ts" /\
    forallb is_alnum (toPascalCase (BruFile.name file)) = true.
Proof.
  eapply (ArrayLayer_file_names (fun j : json => j) SampleOutput.of_mapping
            SampleOutput.data_truthy SampleOutput.data_no_keys
            SampleOutput.infer SampleOutput.render SampleOutput.status_text 5
            [SampleOutput.ping_document; SampleOutput.posts_document]).
  - vm_compute. reflexivity.
  - left. reflexivity.
Defined.

(** ** From the text of a document to the files *)

Lemma plain_header_is_header name s r :
  plain_header_at name s = Some r -> header_at name s = true.
Proof.
  unfold plain_header_at, header_at.
  destruct (strip_prefix name s) as [r0|]; [|discriminate].
  destruct (skip_ws r0) as [|c t]; [discriminate|].
  destruct (N.eqb_spec c LBRACE) as [->|]; [|discriminate]. intros _.
  reflexivity.
Qed.

Lemma example_indices_none s : forall pos skip,
  find_header (lit "example") s = None -> example_indices s pos skip = [].
Proof.
  induction s as [|c t IH]; intros pos skip H; [reflexivity|].
  cbn [example_indices].
  assert (Ht : find_header (lit "example") t = None).
  { cbn [find_header] in H.
    destruct (header_at (lit "example") (c :: t)); [discriminate|].
    now destruct (find_header (lit "example") t). }
  destruct skip as [|k]; [|now apply IH].
  unfold example_match_len.
  destruct (plain_header_at (lit "example") (c :: t)) as [r|] eqn:E;
    [|now apply IH].
  apply plain_header_is_header in E.
  pose proof (find_header_None _ _ 0 H) as H0. cbn [skipn] in H0. congruence.
Qed.

Section BareRequest.

Variable num : Type.
Variable Number : str -> num.
Variable isNaN : num -> bool.
Variable parseInt10 : str -> num.
Variable num_truthy : num -> bool.
Variable same_num : num -> num -> bool.
Variable J : Type.
Variable JSON5_parse : str -> outcome J.
Variable basename_bru : str -> str.
Variable data : Type.
Variable of_body : J -> data.
Variable of_mapping : kv_object num -> data.
Variable data_truthy : data -> bool.
Variable data_no_keys : data -> bool.
Variable infer : str -> data -> json.
Variable render : json -> str -> str.
Variable status_text : num -> str.

Local Abbreviation parseBruFile :=
  (parseBruFile Number isNaN parseInt10 num_truthy same_num JSON5_parse
     basename_bru).

(** A request that holds no block for a payload, headers, query or path
    parameters, and no example, is parsed to a document for which
    neither snapshot writes a file or counts anything. *)
Theorem bare_request_is_skipped (filePath content : str) :
  (forall name,
     In name (map lit ["body:json"; "headers"; "params:query"; "params:path";
                       "example"]%string) ->
     forall m, ~ header_matches name content m) ->
  exists doc,
    parseBruFile filePath content = Returned (Some doc) /\
    forall fuel,
      PathNamedOutput.generateSchemas of_body of_mapping data_truthy
        data_no_keys infer render status_text fuel [doc]
      = Finished ([], {| documentedEndpoints := 0; createdSchemas := 0 |}) /\
      ArrayLayerOutput.generateSchemas of_body of_mapping data_truthy
        data_no_keys infer render status_text fuel [doc]
      = Finished ([], {| documentedEndpoints := 0; createdSchemas := 0 |}).
Proof.
  intros H.
  assert (Hnone : forall name,
            In name (map lit ["body:json"; "headers"; "params:query";
                              "params:path"; "example"]%string) ->
            find_header name content = None).
  { intros name Hn. apply find_header_no_match. now apply H. }
  assert (Hclean : stripBlocks content (lit "example") = content).
  { apply stripBlocks_fixed. unfold strip_step.
    rewrite Hnone; [reflexivity|]. cbn [map In]. tauto. }
  assert (Hextract : forall name,
            In name (map lit ["body:json"; "headers"; "params:query";
                              "params:path"]%string) ->
            extractBlockContent content name = None).
  { intros name Hn. unfold extractBlockContent.
    rewrite Hnone; [reflexivity|]. cbn [map In] in *. tauto. }
  destruct (parseBruFile_returns num Number isNaN parseInt10 num_truthy
              same_num J JSON5_parse basename_bru filePath content)
    as (doc & Hdoc & _ & Hb & Hh & Hq & Hp & Hr).
  rewrite Hclean in Hb, Hh, Hq, Hp.
  unfold document_body in Hb.
  rewrite Hextract in Hb, Hh, Hq, Hp by (cbn [map In]; tauto).
  cbn in Hb, Hh, Hq, Hp.
  unfold candidates in Hr.
  rewrite example_indices_none in Hr
    by (apply Hnone; cbn [map In]; tauto).
  cbn [flat_map first_wins] in Hr.
  exists doc. split; [exact Hdoc|]. intros fuel.
  unfold PathNamedOutput.generateSchemas, ArrayLayerOutput.generateSchemas,
    generateSchemas.
  split; apply generate_files_nothing; intros file c [<-|[]];
    now apply bare_components.
Qed.

End BareRequest.

Lemma bare_request_is_skipped_witness :
  exists doc,
    Sample.parseBruFile (lit "ping.bru")
      (lit "get {
  url: /ping
}
") = Returned (Some doc) /\
    forall fuel,
      PathNamedOutput.generateSchemas (fun _ : Sample.J => JNull)
        SampleOutput.of_mapping SampleOutput.data_truthy
        SampleOutput.data_no_keys SampleOutput.infer SampleOutput.render
        SampleOutput.status_text fuel [doc]
      = Finished ([], {| documentedEndpoints := 0; createdSchemas := 0 |}) /\
      ArrayLayerOutput.generateSchemas (fun _ : Sample.J => JNull)
        SampleOutput.of_mapping SampleOutput.data_truthy
        SampleOutput.data_no_keys SampleOutput.infer SampleOutput.render
        SampleOutput.status_text fuel [doc]
      = Finished ([], {| documentedEndpoints := 0; createdSchemas := 0 |}).
Proof.
  apply (bare_request_is_skipped Sample.num Sample.Number Sample.isNaN
           Sample.parseInt10 Sample.num_truthy Sample.same_num Sample.J
           Sample.JSON5_parse Sample.basename_bru SampleOutput.data).
  intros name Hn. apply find_header_no_match.
  cbn [map In] in Hn.
  destruct Hn as [<-|[<-|[<-|[<-|[<-|[]]]]]]; vm_compute; reflexivity.
Defined.

(** ** Markers and lazy references *)

Lemma rewrite_markers_skip a rest :
  rewrite_markers (a ++ rest) (length a) = rewrite_markers rest 0.
Proof.
  induction a as [|x a IH]; [reflexivity|].
  cbn [app length rewrite_markers]. exact IH.
Qed.

Lemma lazy_group_cons c t :
  lazy_group (c :: t)
  = if is_lt c then None
    else if ends_marker t then Some 1 else option_map S (lazy_group t).
Proof. reflexivity. Qed.

Lemma lazy_group_name c name q rest :
  (forall d, In d (c :: name) -> is_quote d = false /\ is_lt d = false) ->
  is_quote q = true ->
  lazy_group ((c :: name) ++ q :: RPAREN :: rest) = Some (length (c :: name)).
Proof.
  revert c. induction name as [|d name IH]; intros c H Hq;
    cbn [app]; rewrite lazy_group_cons;
    destruct (H c (or_introl eq_refl)) as [_ ->].
  - cbn [ends_marker]. rewrite Hq. reflexivity.
  - destruct (H d (or_intror (or_introl eq_refl))) as [Hd _].
    assert (He : ends_marker (d :: name ++ q :: RPAREN :: rest) = false)
      by (destruct name; cbn [app ends_marker]; now rewrite Hd).
    rewrite He.
    assert (Hrest : forall e, In e (d :: name) ->
                      is_quote e = false /\ is_lt e = false)
      by (intros e Hin; apply H; now right).
    pose proof (IH d Hrest Hq) as IH'. cbn [app] in IH'.
    now rewrite IH'.
Qed.

(** A marker with a name that holds no quote and no line terminator is
    rewritten to a lazy reference to the name, and the text after it is
    rewritten in turn. *)
Lemma rewrite_marker_of_name (name rest : str) (q q' : N) :
  name <> [] ->
  (forall c, In c name -> is_quote c = false /\ is_lt c = false) ->
  is_quote q = true -> is_quote q' = true ->
  rewrite_markers
    (lit "z.literal(" ++ q :: lit "__REF__" ++ name ++ q' :: RPAREN :: rest) 0
  = lit "z.lazy(() => " ++ name ++ lit ")" ++ rewrite_markers rest 0.
Proof.
  intros Hne Hname Hq Hq'. destruct name as [|c name]; [congruence|].
  assert (Hm : marker_at (lit "z.literal(" ++ q :: lit "__REF__"
                          ++ (c :: name) ++ q' :: RPAREN :: rest)
               = Some (c :: name, 10 + 1 + 7 + length (c :: name) + 2)).
  { unfold marker_at.
    assert (E1 : strip_prefix (lit "z.literal(")
                   (lit "z.literal(" ++ q :: lit "__REF__"
                    ++ (c :: name) ++ q' :: RPAREN :: rest)
                 = Some (q :: lit "__REF__"
                         ++ (c :: name) ++ q' :: RPAREN :: rest))
      by now apply strip_prefix_Some.
    rewrite E1, Hq.
    assert (E2 : strip_prefix (lit "__REF__")
                   (lit "__REF__" ++ (c :: name) ++ q' :: RPAREN :: rest)
                 = Some ((c :: name) ++ q' :: RPAREN :: rest))
      by now apply strip_prefix_Some.
    rewrite E2, lazy_group_name by assumption.
    now rewrite firstn_app, Nat.sub_diag, firstn_all, firstn_O, app_nil_r. }
  set (inside := lit ".literal(" ++ q :: lit "__REF__"
                 ++ (c :: name) ++ [q'; RPAREN]).
  assert (Htext : lit "z.literal(" ++ q :: lit "__REF__"
                  ++ (c :: name) ++ q' :: RPAREN :: rest
                  = 122%N :: inside ++ rest).
  { unfold inside. repeat (rewrite <- app_assoc; cbn [app]). reflexivity. }
  rewrite Htext in Hm |- *.
  cbn [rewrite_markers]. rewrite Hm.
  replace (10 + 1 + 7 + length (c :: name) + 2 - 1) with (length inside).
  - now rewrite rewrite_markers_skip.
  - unfold inside. rewrite length_app. cbn [length].
    rewrite !length_app. cbn [length].
    change (length (lit ".literal(")) with 9.
    change (length (lit "__REF__")) with 7. lia.
Qed.

Lemma toCamelCase_alnum s c : In c (toCamelCase s) -> is_alnum c = true.
Proof.
  unfold toCamelCase. destruct (toPascalCase s) as [|x t] eqn:E;
    [intros []|].
  intros [<-|H].
  - apply lower_alnum. apply (pascal_from_alnum s false). unfold toPascalCase in E.
    rewrite E. now left.
  - apply (pascal_from_alnum s false). unfold toPascalCase in E.
    rewrite E. now right.
Qed.

Lemma alnum_plain c : is_alnum c = true -> is_quote c = false /\ is_lt c = false.
Proof.
  unfold is_alnum, is_upper, is_lower, is_digit, is_quote, is_lt, SQUOTE,
    DQUOTE. intros H.
  repeat match goal with
         | H : (_ || _) = true |- _ => apply orb_prop in H; destruct H
         | H : (_ && _) = true |- _ => apply andb_prop in H; destruct H
         | H : (_ <=? _)%N = true |- _ => apply N.leb_le in H
         end;
    (split; repeat (apply orb_false_intro); apply N.eqb_neq; lia).
Qed.

(** The marker that stands for the schema name of a definition key, as
    the renderer prints it between quotes of either kind, is rewritten
    to a lazy reference to that schema name; the text after it is
    rewritten in turn. *)
Theorem marker_becomes_lazy_reference (key rest : str) (q q' : N) :
  is_quote q = true -> is_quote q' = true ->
  rewrite_markers
    (lit "z.literal(" ++ q :: lit "__REF__" ++ schema_name key
       ++ q' :: RPAREN :: rest) 0
  = lit "z.lazy(() => " ++ schema_name key ++ lit ")"
    ++ rewrite_markers rest 0.
Proof.
  intros Hq Hq'. apply rewrite_marker_of_name; auto.
  - unfold schema_name. destruct (toCamelCase (toPascalCase key)); discriminate.
  - intros c Hc. apply alnum_plain. unfold schema_name in Hc.
    apply in_app_or in Hc. destruct Hc as [Hc|Hc].
    + now apply toCamelCase_alnum in Hc.
    + vm_compute in Hc. intuition (subst; reflexivity).
Qed.

Lemma marker_becomes_lazy_reference_witness :
  rewrite_markers
    (lit "z.literal(" ++ DQUOTE :: lit "__REF__" ++ schema_name (lit "Post")
       ++ DQUOTE :: RPAREN :: lit ".array()") 0
  = lit "z.lazy(() => " ++ schema_name (lit "Post") ++ lit ")"
    ++ rewrite_markers (lit ".array()") 0.
Proof.
  apply (marker_becomes_lazy_reference (lit "Post") (lit ".array()")
           DQUOTE DQUOTE); reflexivity.
Defined.

(** A text in which [z.literal(] does not occur is left as it is. *)
Lemma rewrite_markers_plain s : forall before,
  find_sub_aux (lit "z.literal(") s before = None -> rewrite_markers s 0 = s.
Proof.
  induction s as [|c t IH]; intros before H; [reflexivity|].
  destruct (find_sub_aux_None _ _ _ H) as [Hp Ht].
  cbn [rewrite_markers]. unfold marker_at. rewrite Hp. f_equal.
  now apply (IH (c :: before)).
Qed.

(** ** The import of a rendered declaration *)

(** When the renderer prints the import first, [clean_code] leaves what
    follows the first line feed after it, trimmed. *)
Theorem clean_code_drops_import (line rest : str) :
  ~ In NL line ->
  clean_code (zod_import ++ line ++ NL :: rest) = trim rest.
Proof.
  intros Hline. unfold clean_code, find_sub.
  rewrite find_sub_aux_prefix. cbn [rev].
  rewrite index_of_app_notin by exact Hline. cbn [app].
  change (S (length line)) with (length line + 1) || idtac.
  replace (line ++ NL :: rest) with ((line ++ [NL]) ++ rest)
    by (now rewrite <- app_assoc).
  replace (S (length line)) with (length (line ++ [NL]))
    by (rewrite length_app; cbn [length]; lia).
  now rewrite skipn_app, skipn_all, Nat.sub_diag.
Qed.

Lemma clean_code_drops_import_witness :
  clean_code (zod_import ++ lit ";" ++ NL :: lit "
export const postSchema = z.any()
") = lit "export const postSchema = z.any()".
Proof.
  rewrite (clean_code_drops_import (lit ";")).
  - reflexivity.
  - vm_compute. intuition discriminate.
Defined.

(** ** The unwrapped root *)

Lemma assoc_filter_out {A} (l : list (str * A)) n k :
  assoc (filter (fun kv => negb (str_eqb (fst kv) n)) l) k
  = if str_eqb k n then None else assoc l k.
Proof.
  induction l as [|[k0 v0] t IH]; cbn [filter assoc fst].
  - now destruct (str_eqb k n).
  - destruct (str_eqb k0 n) eqn:E0; cbn [negb assoc].
    + apply str_eqb_eq in E0. subst k0. rewrite IH.
      destruct (str_eqb k n) eqn:E; [reflexivity|].
      now rewrite str_eqb_sym, E.
    + destruct (str_eqb k0 k) eqn:E1; [|exact IH].
      apply str_eqb_eq in E1. subst k0. now rewrite E0.
Qed.

(** When the root of a draft refers to a definition that is not falsy,
    the unwrapped schema has the properties of that definition, all
    other definitions, and no definition of the name the root referred
    to; a reference to that name inside the definition names no
    definition any more. *)
Theorem unwrap_root_drops_root_definition
    (fields defs : list (str * json)) (ref : str) (target : json) :
  assoc fields (lit "$ref") = Some (JStr ref) ->
  startsWith ref definitions_prefix = true ->
  assoc fields (lit "definitions") = Some (JObj defs) ->
  assoc defs (ref_name ref) = Some target ->
  js_truthy (Some target) = true ->
  definition_of (unwrap_root (JObj fields)) (ref_name ref) = None /\
  (forall name, name <> ref_name ref ->
     definition_of (unwrap_root (JObj fields)) name = assoc defs name) /\
  (forall k, k <> lit "definitions" -> k <> lit "$schema" ->
     property (unwrap_root (JObj fields)) k = assoc (spread target) k) /\
  (forall k v, k <> lit "definitions" -> k <> lit "$schema" ->
     assoc (spread target) k = Some v -> In (ref_name ref) (refs v) ->
     In (ref_name ref) (dangling (unwrap_root (JObj fields)))).
Proof.
  intros Href Hstart Hdefs Htarget Htruthy.
  set (defs' := filter (fun kv => negb (str_eqb (fst kv) (ref_name ref))) defs).
  set (with_defs := assoc_set (spread target) (lit "definitions") (JObj defs')).
  set (final := match assoc fields (lit "$schema") with
                | Some v => assoc_set with_defs (lit "$schema") v
                | None => with_defs
                end).
  assert (Hun : unwrap_root (JObj fields) = JObj final).
  { unfold unwrap_root. rewrite Href, Hdefs, Hstart, Htarget, Htruthy.
    reflexivity. }
  assert (Hd : assoc final (lit "definitions") = Some (JObj defs')).
  { unfold final. destruct (assoc fields (lit "$schema"));
      [rewrite assoc_set_other by discriminate|]; apply assoc_set_same. }
  assert (Hk : forall k, k <> lit "definitions" -> k <> lit "$schema" ->
                 assoc final k = assoc (spread target) k).
  { intros k H1 H2. unfold final, with_defs.
    destruct (assoc fields (lit "$schema"));
      [rewrite assoc_set_other by congruence|];
      apply assoc_set_other; congruence. }
  assert (Hdef : forall name,
            definition_of (JObj final) name
            = if str_eqb name (ref_name ref) then None else assoc defs name).
  { intros name. unfold definition_of. cbn [property]. rewrite Hd.
    cbn [property]. apply assoc_filter_out. }
  rewrite Hun. repeat split.
  - now rewrite Hdef, str_eqb_refl.
  - intros name Hne. now rewrite Hdef, str_eqb_neq.
  - intros k H1 H2. cbn [property]. now apply Hk.
  - intros k v H1 H2 Hv Hin. unfold dangling. apply filter_In. split.
    + cbn [schema_refs]. apply in_or_app. left.
      apply (refs_field _ k v); [|exact Hin].
      rewrite assoc_set_other by congruence. now rewrite Hk.
    + now rewrite Hdef, str_eqb_refl.
Qed.

Lemma unwrap_root_drops_root_definition_witness :
  definition_of (unwrap_root Drafts.node_draft) (lit "Node") = None /\
  In (lit "Node") (dangling (unwrap_root Drafts.node_draft)).
Proof.
  destruct (unwrap_root_drops_root_definition
              [Drafts.field "$schema"
                 (Drafts.text "http://json-schema.org/draft-06/schema#");
               Drafts.field "$ref" (JStr (ref_to (lit "Node")));
               Drafts.field "definitions"
                 (JObj [Drafts.field "Node"
                          (Drafts.object_schema "Node"
                             [Drafts.field "children"
                                (Drafts.array_schema
                                   (Drafts.reference "Node"))])])]
              [Drafts.field "Node"
                 (Drafts.object_schema "Node"
                    [Drafts.field "children"
                       (Drafts.array_schema (Drafts.reference "Node"))])]
              (ref_to (lit "Node"))
              (Drafts.object_schema "Node"
                 [Drafts.field "children"
                    (Drafts.array_schema (Drafts.reference "Node"))])
              eq_refl eq_refl eq_refl eq_refl eq_refl)
    as (Hnone & _ & _ & Hdangling).
  split; [exact Hnone|].
  apply (Hdangling (lit "properties")
           (JObj [Drafts.field "children"
                    (Drafts.array_schema (Drafts.reference "Node"))]));
    [discriminate|discriminate|reflexivity|].
  vm_compute. now left.
Defined.

(** ** References and markers *)

(** Induction on a JSON value, with the property at hand for every item
    of an array and every value of an object. *)
Lemma json_nested_ind (P : json -> Prop) :
  P JNull -> (forall b, P (JBool b)) -> (forall n, P (JNum n)) ->
  (forall s, P (JStr s)) ->
  (forall items, Forall P items -> P (JArr items)) ->
  (forall fields, Forall (fun kv => P (snd kv)) fields -> P (JObj fields)) ->
  forall j, P j.
Proof.
  intros Hnull Hbool Hnum Hstr Harr Hobj.
  refine (fix IH (j : json) : P j :=
            match j with
            | JNull => Hnull
            | JBool b => Hbool b
            | JNum n => Hnum n
            | JStr s => Hstr s
            | JArr items =>
                Harr items
                  ((fix go (l : list json) : Forall P l :=
                      match l with
                      | [] => Forall_nil _
                      | x :: t => Forall_cons x (IH x) (go t)
                      end) items)
            | JObj fields =>
                Hobj fields
                  ((fix go (l : list (str * json))
                      : Forall (fun kv => P (snd kv)) l :=
                      match l with
                      | [] => Forall_nil _
                      | kv :: t => Forall_cons kv (IH (snd kv)) (go t)
                      end) fields)
            end).
Qed.

Lemma markers_obj fields :
  markers (JObj fields) = flat_map field_markers fields.
Proof. reflexivity. Qed.

Lemma reference_of_refs fields r :
  reference_of fields = Some r -> In r (refs (JObj fields)).
Proof.
  unfold reference_of. intros H. apply in_refs_obj. left.
  destruct (assoc fields (lit "$ref")) as [[| | |[|c t]| |]|];
    try discriminate.
  injection H as <-. eauto.
Qed.

(** A marker of the rewritten schema was a marker before, or stands for
    a reference of the schema to a key of the mapping. *)
Lemma markers_replaced map_ j name :
  In name (markers (replaceRefsWithMarkers map_ j)) ->
  In name (markers j) \/
  exists key, assoc map_ key = Some name /\ In key (refs j).
Proof.
  revert name. induction j as [| | | |items IH|fields IH] using json_nested_ind;
    intros name; cbn [replaceRefsWithMarkers]; auto.
  - cbn [markers]. rewrite flat_map_concat_map, map_map,
      <- flat_map_concat_map, in_flat_map.
    intros (x & Hx & Hin). rewrite Forall_forall in IH.
    destruct (IH x Hx name Hin) as [H|(key & Hk & Hr)].
    + left. apply in_flat_map. eauto.
    + right. exists key. split; [exact Hk|]. cbn [refs].
      apply in_flat_map. eauto.
  - destruct (reference_of fields) as [r|] eqn:Er.
    + destruct (assoc map_ r) as [[|c target]|] eqn:Em; auto.
      rewrite markers_obj, in_flat_map. intros (kv & Hkv & Hin).
      apply in_assoc_set in Hkv. destruct Hkv as [Hkv| ->].
      * left. rewrite markers_obj. apply in_flat_map. exists kv.
        apply filter_In in Hkv. split; [apply Hkv|exact Hin].
      * right. exists r. split; [|now apply reference_of_refs].
        unfold field_markers in Hin. cbn [fst snd] in Hin.
        rewrite str_eqb_refl in Hin.
        assert (E : strip_prefix (lit "__REF__") (lit "__REF__" ++ c :: target)
                    = Some (c :: target)) by now apply strip_prefix_Some.
        rewrite E in Hin. destruct Hin as [<-|[]]. exact Em.
    + rewrite markers_obj, in_flat_map. intros (kv & Hkv & Hin).
      apply in_map_iff in Hkv. destruct Hkv as ([k v] & <- & Hkv).
      unfold field_markers in Hin. cbn [fst snd] in Hin.
      rewrite Forall_forall in IH. specialize (IH (k, v) Hkv name).
      cbn [snd] in IH.
      assert (Hfrom : In name (markers (replaceRefsWithMarkers map_ v)) ->
                      In name (field_markers (k, v)) \/
                      exists key, assoc map_ key = Some name /\
                                  In key (refs (JObj fields))).
      { intros Hm. destruct (IH Hm) as [H|(key & Hk & Hr)].
        - left. unfold field_markers. cbn [snd].
          destruct v; try exact H. cbn [markers] in H. destruct H.
        - right. exists key. split; [exact Hk|].
          apply in_refs_obj. right. exists (k, v). auto. }
      assert (Hcases : In name (field_markers (k, v)) \/
                       exists key, assoc map_ key = Some name /\
                                   In key (refs (JObj fields))).
      { destruct v as [| | |s|items|fs];
          try (cbn [replaceRefsWithMarkers] in Hin; now left).
        - apply Hfrom. cbn [replaceRefsWithMarkers] in Hin |- *. exact Hin.
        - apply Hfrom.
          cbn [replaceRefsWithMarkers] in Hin |- *.
          destruct (reference_of fs) as [r|];
            [destruct (assoc map_ r) as [[|c target]|]|]; exact Hin. }
      destruct Hcases as [H|H]; [left|now right].
      rewrite markers_obj. apply in_flat_map. eauto.
Qed.

Lemma field_markers_value k v name :
  In name (markers v) -> In name (field_markers (k, v)).
Proof.
  unfold field_markers. cbn [snd]. destruct v; auto. intros [].
Qed.

(** In a schema that holds no marker of its own, every marker of a
    declaration is the identifier of a declaration: the schema name of a
    key of [definitions].  This is for a schema whose [definitions] is
    an object without the key [__proto__] and whose references to names
    without a definition are references to names that no object
    inherits. *)
Theorem markers_name_declarations (baseName : str)
    (fields defs : list (str * json)) (d : declaration) (name : str) :
  assoc fields (lit "definitions") = Some (JObj defs) ->
  ~ In (lit "__proto__") (map fst defs) ->
  (forall r, In r (dangling (JObj fields)) -> is_inherited r = false) ->
  markers (JObj fields) = [] ->
  In d (fst (declarations_of baseName (JObj fields))) ->
  In name (markers (rendered_from d)) ->
  exists key d',
    In key (map fst defs) /\ name = schema_name key /\
    In d' (fst (declarations_of baseName (JObj fields))) /\
    identifier d' = name.
Proof.
  intros Hdefs _ _ Hnone Hd Hname.
  unfold declarations_of in *. rewrite Hdefs in *. cbn [fst] in *.
  set (refMap := map (fun key => (key, schema_name key)) (map fst defs)) in *.
  assert (Hplain : forall kv, In kv fields ->
                     In name (field_markers kv) -> False).
  { intros kv Hkv Hin.
    assert (H : In name (markers (JObj fields)))
      by (rewrite markers_obj; apply in_flat_map; eauto).
    rewrite Hnone in H. destruct H. }
  assert (Hmapped : forall key, assoc refMap key = Some name ->
            exists key' d',
              In key' (map fst defs) /\ name = schema_name key' /\
              In d' (map (fun kv =>
                            {| identifier := schema_name (fst kv);
                               rendered_from :=
                                 replaceRefsWithMarkers refMap (snd kv) |})
                         defs) /\
              identifier d' = name).
  { intros key Hk. apply assoc_In in Hk. unfold refMap in Hk.
    apply in_map_iff in Hk. destruct Hk as (k & Hk & Hin).
    injection Hk as <- <-. pose proof Hin as Hin'.
    apply in_map_iff in Hin'. destruct Hin' as (kv & <- & Hkv).
    exists (fst kv). eexists. split; [exact Hin|]. split; [reflexivity|].
    split; [apply in_map_iff; exists kv; split; [reflexivity|exact Hkv]|].
    reflexivity. }
  assert (Hresult : forall v,
            (In name (markers v) -> False) ->
            In name (markers (replaceRefsWithMarkers refMap v)) ->
            exists key d',
              In key (map fst defs) /\ name = schema_name key /\
              In d' (map (fun kv =>
                            {| identifier := schema_name (fst kv);
                               rendered_from :=
                                 replaceRefsWithMarkers refMap (snd kv) |})
                         defs
                     ++ [{| identifier := toCamelCase baseName ++ lit "Schema";
                            rendered_from :=
                              replaceRefsWithMarkers refMap
                                (JObj (filter
                                         (fun kv =>
                                            negb (str_eqb (fst kv)
                                                    (lit "definitions")))
                                         fields)) |}]) /\
              identifier d' = name).
  { intros v Hv Hm. apply markers_replaced in Hm.
    destruct Hm as [Hm|(key & Hk & _)]; [destruct (Hv Hm)|].
    destruct (Hmapped key Hk) as (key' & d' & H1 & H2 & H3 & H4).
    exists key', d'. repeat split; auto. apply in_or_app. now left. }
  apply in_app_or in Hd. destruct Hd as [Hd|[<-|[]]].
  - apply in_map_iff in Hd. destruct Hd as ([k v] & <- & Hkv).
    cbn [rendered_from snd] in Hname. apply (Hresult v); [|exact Hname].
    intros Hv. apply (Hplain (lit "definitions", JObj defs)).
    + now apply assoc_In.
    + unfold field_markers. cbn [snd]. rewrite markers_obj.
      apply in_flat_map. exists (k, v). split; [exact Hkv|].
      now apply field_markers_value.
  - cbn [rendered_from] in Hname.
    apply (fun Hv => Hresult _ Hv Hname). intros Hv.
    rewrite markers_obj in Hv. apply in_flat_map in Hv.
    destruct Hv as (kv & Hkv & Hin). apply filter_In in Hkv.
    apply (Hplain kv); [apply Hkv|exact Hin].
Qed.

Lemma markers_name_declarations_witness :
  exists key d',
    In key [lit "Post"] /\ lit "postSchema" = schema_name key /\
    In d' (fst (declarations_of (lit "GetPostsBody")
                  (unwrap_root Drafts.posts_draft))) /\
    identifier d' = lit "postSchema".
Proof.
  refine (markers_name_declarations (lit "GetPostsBody")
            (match unwrap_root Drafts.posts_draft with
             | JObj fields => fields
             | _ => []
             end)
            [Drafts.field "Post" Drafts.post_schema]
            (nth 1 (fst (declarations_of (lit "GetPostsBody")
                           (unwrap_root Drafts.posts_draft)))
                 {| identifier := []; rendered_from := JNull |})
            (lit "postSchema") _ _ _ _ _ _).
  - reflexivity.
  - vm_compute. intuition discriminate.
  - intros r Hr. vm_compute in Hr. destruct Hr.
  - reflexivity.
  - vm_compute. right. left. reflexivity.
  - vm_compute. left. reflexivity.
Defined.

(** ** Items that refer to their own definition *)

Lemma refers_first_inv name v :
  refers_first name v = true ->
  exists fields container key pf item c r rest,
    v = JObj fields /\
    assoc fields (lit "properties") = Some container /\
    own_entries container = (key, JObj pf) :: rest /\
    assoc pf (lit "type") = Some (JStr (lit "array")) /\
    assoc pf (lit "items") = Some (JObj item) /\
    assoc item (lit "$ref") = Some (JStr (c :: r)) /\
    ref_name (c :: r) = name.
Proof.
  unfold refers_first, property.
  destruct v as [| | | | |fields]; try discriminate.
  destruct (assoc fields (lit "properties")) as [container|] eqn:Hp;
    [|discriminate].
  destruct (own_entries container) as [|[key prop] rest] eqn:He;
    [discriminate|].
  destruct prop as [| | | | |pf]; try discriminate.
  intros H. apply andb_prop in H. destruct H as [Ht Hi].
  unfold is_text in Ht.
  destruct (assoc pf (lit "type")) as [[| | |t| |]|] eqn:Et; try discriminate.
  apply str_eqb_eq in Ht. subst t.
  destruct (assoc pf (lit "items")) as [[| | | | |item]|] eqn:Ei;
    try discriminate.
  destruct (assoc item (lit "$ref")) as [[| | |[|c r]| |]|] eqn:Er;
    try discriminate.
  apply str_eqb_eq in Hi.
  exists fields, container, key, pf, item, c, r, rest.
  repeat split; auto.
Qed.

Lemma item_name_not_proto x : str_eqb (x ++ lit "Item") (lit "__proto__") = false.
Proof.
  apply str_eqb_neq. intros H. apply (f_equal (@rev N)) in H.
  rewrite rev_app_distr in H. discriminate.
Qed.

Lemma entries_truthy container kv rest :
  own_entries container = kv :: rest -> js_truthy (Some container) = true.
Proof. destruct container; try discriminate; reflexivity. Qed.

(** The item of such an array is registered as a copy of the definition
    and walked. *)
Lemma lift_item_of_definition walk_item item c r itemName s node fields :
  def_value s (ref_name (c :: r)) = Some (JObj fields) ->
  node = JObj fields ->
  lift_item walk_item (Some item) (Some (JStr (c :: r)))
    (itemName ++ lit "Item") s
  = walk_item (length (cells s)) (itemName ++ lit "Item")
      {| cells := cells s ++ [node];
         definitions := assoc_set (definitions s) (itemName ++ lit "Item")
                          (length (cells s)) |}.
Proof.
  intros Hd ->. unfold lift_item. cbn [js_truthy replace_prefix wbind].
  unfold def_read. rewrite Hd. cbn [wbind js_truthy].
  unfold def_assign. rewrite item_name_not_proto. reflexivity.
Qed.

(** After the registration the definition [name] is what it was. *)
Lemma def_value_after_copy s name node itemName :
  def_value s name = Some node ->
  cell_at {| cells := cells s ++ [node];
             definitions := assoc_set (definitions s) itemName
                              (length (cells s)) |} (length (cells s))
  = Some node /\
  def_value {| cells := cells s ++ [node];
               definitions := assoc_set (definitions s) itemName
                                (length (cells s)) |} name
  = Some node.
Proof.
  intros Hd.
  assert (Hnew : nth_error (cells s ++ [node]) (length (cells s)) = Some node).
  { rewrite nth_error_app2 by lia. now rewrite Nat.sub_diag. }
  split; [exact Hnew|].
  unfold def_value, cell_at in *. cbn [definitions cells].
  destruct (list_eq_dec N.eq_dec itemName name) as [->|Hne].
  - now rewrite assoc_set_same.
  - rewrite assoc_set_other by exact Hne.
    destruct (assoc (definitions s) name) as [c0|]; [|discriminate].
    rewrite nth_error_app1; [exact Hd|].
    apply nth_error_Some. congruence.
Qed.

Lemma PathNamed_processObject_overflows name node :
  refers_first name node = true ->
  forall fuel c currentName s v,
    cell_at s c = Some v -> refers_first name v = true ->
    def_value s name = Some node ->
    PathNamed.processObject fuel c currentName s = OutOfFuel.
Proof.
  intros Hnode. induction fuel as [|fuel IH]; intros c cur s v Hc Hv Hd;
    [reflexivity|].
  destruct (refers_first_inv _ _ Hv)
    as (fields & container & key & pf & item & x & r & rest
        & -> & Hp & He & Ht & Hi & Hr & Hn).
  destruct (refers_first_inv _ _ Hnode) as (nfields & _ & _ & _ & _ & _ & _ & _
                                            & Hnf & _).
  cbn [PathNamed.processObject]. rewrite Hc.
  cbn [js_truthy is_object negb orb prop_of wbind].
  rewrite Hp, (entries_truthy _ _ _ He), He. cbn [map fst for_keys].
  unfold PathNamed.process_key at 1. unfold object_at. rewrite Hc.
  cbn [descend prop_of wbind]. rewrite Hp, He. cbn [assoc].
  rewrite str_eqb_refl. cbn [prop_of wbind]. rewrite Ht.
  replace (is_text (Some (JStr (lit "array"))) (lit "array")) with true
    by reflexivity.
  rewrite Hi. cbn [prop_of wbind]. rewrite Hr.
  rewrite <- Hn in Hd. subst node.
  rewrite (lift_item_of_definition _ _ _ _ _ _ (JObj nfields) nfields Hd eq_refl).
  rewrite Hn in Hd.
  destruct (def_value_after_copy s name (JObj nfields)
              ((cur ++ toPascalCase key) ++ lit "Item") Hd) as [Hcell Hdef].
  rewrite (IH _ _ _ (JObj nfields) Hcell Hnode Hdef). reflexivity.
Qed.

Lemma ArrayLayer_processObject_overflows name node :
  refers_first name node = true ->
  forall fuel c currentName s v,
    cell_at s c = Some v -> refers_first name v = true ->
    def_value s name = Some node ->
    ArrayLayer.processObject fuel c [] currentName s = OutOfFuel.
Proof.
  intros Hnode. induction fuel as [|fuel IH]; intros c cur s v Hc Hv Hd;
    [reflexivity|].
  destruct (refers_first_inv _ _ Hv)
    as (fields & container & key & pf & item & x & r & rest
        & -> & Hp & He & Ht & Hi & Hr & Hn).
  destruct (refers_first_inv _ _ Hnode) as (nfields & _ & _ & _ & _ & _ & _ & _
                                            & Hnf & _).
  cbn [ArrayLayer.processObject]. unfold object_at at 1. rewrite Hc.
  cbn [descend js_truthy is_object negb orb prop_of wbind].
  rewrite Hp, (entries_truthy _ _ _ He), He. cbn [map fst for_keys].
  unfold ArrayLayer.process_key at 1. unfold object_at. rewrite Hc.
  cbn [descend prop_of wbind]. rewrite Hp, He. cbn [assoc].
  rewrite str_eqb_refl. cbn [prop_of wbind]. rewrite Ht.
  replace (is_text (Some (JStr (lit "array"))) (lit "array")) with true
    by reflexivity.
  rewrite Hi. cbn [prop_of wbind]. rewrite Hr.
  rewrite <- Hn in Hd. subst node.
  rewrite (lift_item_of_definition _ _ _ _ _ _ (JObj nfields) nfields Hd eq_refl).
  rewrite Hn in Hd.
  destruct (def_value_after_copy s name (JObj nfields)
              ((cur ++ toPascalCase key) ++ lit "Item") Hd) as [Hcell Hdef].
  rewrite (IH _ _ _ (JObj nfields) Hcell Hnode Hdef). reflexivity.
Qed.

Lemma open_schema_object fields defs :
  assoc fields (lit "definitions") = Some (JObj defs) ->
  existsb (fun nv => str_eqb (fst nv) (lit "__proto__")) defs = false ->
  open_schema (JObj fields) = Finished (initial_store fields defs).
Proof. intros Hd Hp. unfold open_schema. now rewrite Hd, Hp. Qed.

Lemma refers_first_root name fields defs :
  refers_first name (JObj fields) = true ->
  refers_first name (JObj (assoc_set fields (lit "definitions") defs)) = true.
Proof.
  unfold refers_first, property.
  now rewrite assoc_set_other by discriminate.
Qed.

(** A schema whose first property is an array of items that refer to a
    definition whose first property is such an array again, of items
    that refer to the same definition: in the snapshot that keeps arrays
    in place the walk copies the definition under a longer name at every
    level and has no end, whatever the bound on its depth. *)
Theorem PathNamed_recursive_items_never_return
    (fields defs : list (str * json)) (name rootName : str) (node : json)
    (fuel : nat) :
  assoc fields (lit "definitions") = Some (JObj defs) ->
  existsb (fun nv => str_eqb (fst nv) (lit "__proto__")) defs = false ->
  refers_first name (JObj fields) = true ->
  assoc defs name = Some node ->
  refers_first name node = true ->
  PathNamed.restructureArrays fuel (JObj fields) rootName = OutOfFuel.
Proof.
  intros Hd Hp Hroot Hnode Hrec. unfold PathNamed.restructureArrays.
  rewrite (open_schema_object _ _ Hd Hp). cbn [wbind].
  rewrite (PathNamed_processObject_overflows name node Hrec fuel schema_cell
             rootName (initial_store fields defs)
             (JObj (assoc_set fields (lit "definitions") (JObj [])))).
  - reflexivity.
  - reflexivity.
  - now apply refers_first_root.
  - now rewrite def_value_initial.
Qed.

Lemma PathNamed_recursive_items_never_return_witness :
  PathNamed.restructureArrays 1000 Drafts.tree_draft (lit "R") = OutOfFuel.
Proof.
  apply (PathNamed_recursive_items_never_return
           [Drafts.field "type" (Drafts.text "object");
            Drafts.field "properties"
              (JObj [Drafts.field "children"
                       (Drafts.array_schema (Drafts.reference "Node"))]);
            Drafts.field "definitions"
              (JObj [Drafts.field "Node"
                       (Drafts.object_schema "Node"
                          [Drafts.field "children"
                             (Drafts.array_schema
                                (Drafts.reference "Node"))])])]
           [Drafts.field "Node"
              (Drafts.object_schema "Node"
                 [Drafts.field "children"
                    (Drafts.array_schema (Drafts.reference "Node"))])]
           (lit "Node") (lit "R")
           (Drafts.object_schema "Node"
              [Drafts.field "children"
                 (Drafts.array_schema (Drafts.reference "Node"))])
           1000); reflexivity.
Defined.

(** The same in the snapshot that registers a definition for every
    array: the walk of the items comes first and has no end. *)
Theorem ArrayLayer_recursive_items_never_return
    (fields defs : list (str * json)) (name rootName : str) (node : json)
    (fuel : nat) :
  assoc fields (lit "definitions") = Some (JObj defs) ->
  existsb (fun nv => str_eqb (fst nv) (lit "__proto__")) defs = false ->
  refers_first name (JObj fields) = true ->
  assoc defs name = Some node ->
  refers_first name node = true ->
  ArrayLayer.restructureArrays fuel (JObj fields) rootName = OutOfFuel.
Proof.
  intros Hd Hp Hroot Hnode Hrec. unfold ArrayLayer.restructureArrays.
  rewrite (open_schema_object _ _ Hd Hp). cbn [wbind].
  rewrite (ArrayLayer_processObject_overflows name node Hrec fuel schema_cell
             rootName (initial_store fields defs)
             (JObj (assoc_set fields (lit "definitions") (JObj [])))).
  - reflexivity.
  - reflexivity.
  - now apply refers_first_root.
  - now rewrite def_value_initial.
Qed.

Lemma ArrayLayer_recursive_items_never_return_witness :
  ArrayLayer.restructureArrays 1000 Drafts.tree_draft (lit "R") = OutOfFuel.
Proof.
  apply (ArrayLayer_recursive_items_never_return
           [Drafts.field "type" (Drafts.text "object");
            Drafts.field "properties"
              (JObj [Drafts.field "children"
                       (Drafts.array_schema (Drafts.reference "Node"))]);
            Drafts.field "definitions"
              (JObj [Drafts.field "Node"
                       (Drafts.object_schema "Node"
                          [Drafts.field "children"
                             (Drafts.array_schema
                                (Drafts.reference "Node"))])])]
           [Drafts.field "Node"
              (Drafts.object_schema "Node"
                 [Drafts.field "children"
                    (Drafts.array_schema (Drafts.reference "Node"))])]
           (lit "Node") (lit "R")
           (Drafts.object_schema "Node"
              [Drafts.field "children"
                 (Drafts.array_schema (Drafts.reference "Node"))])
           1000); reflexivity.
Defined.

(** ** Properties that refer to their own definition *)

Lemma links_first_inv name v :
  links_first name v = true ->
  exists fields container key pf c r rest,
    v = JObj fields /\
    assoc fields (lit "properties") = Some container /\
    own_entries container = (key, JObj pf) :: rest /\
    is_text (assoc pf (lit "type")) (lit "array") = false /\
    is_text (assoc pf (lit "type")) (lit "object")
    && js_truthy (assoc pf (lit "properties")) = false /\
    assoc pf (lit "$ref") = Some (JStr (c :: r)) /\
    ref_name (c :: r) = name.
Proof.
  unfold links_first, property.
  destruct v as [| | | | |fields]; try discriminate.
  destruct (assoc fields (lit "properties")) as [container|] eqn:Hp;
    [|discriminate].
  destruct (own_entries container) as [|[key prop] rest] eqn:He;
    [discriminate|].
  destruct prop as [| | | | |pf];
    try (rewrite andb_false_r; discriminate).
  intros H. apply andb_prop in H. destruct H as [H Hr].
  apply andb_prop in H. destruct H as [Ha Ho].
  apply negb_true_iff in Ha, Ho.
  destruct (assoc pf (lit "$ref")) as [[| | |[|c r]| |]|] eqn:Er;
    try discriminate.
  apply str_eqb_eq in Hr.
  exists fields, container, key, pf, c, r, rest. repeat split; auto.
Qed.

Lemma alnum_not_proto x :
  forallb is_alnum x = true -> str_eqb x (lit "__proto__") = false.
Proof.
  intros H. apply str_eqb_neq. intros ->. discriminate H.
Qed.

Lemma PathNamed_processObject_follows name node rootName :
  links_first name node = true ->
  (forall suffix, name <> rootName ++ suffix) ->
  forallb is_alnum rootName = true ->
  forall fuel c suffix s v c0,
    cell_at s c = Some v -> links_first name v = true ->
    assoc (definitions s) name = Some c0 -> c0 <> c ->
    cell_at s c0 = Some node ->
    forallb is_alnum suffix = true ->
    PathNamed.processObject fuel c (rootName ++ suffix) s = OutOfFuel.
Proof.
  intros Hnode Hfresh Hroot.
  induction fuel as [|fuel IH]; intros c suffix s v c0 Hc Hv Hd Hne Hc0 Hs;
    [reflexivity|].
  destruct (links_first_inv _ _ Hv)
    as (fields & container & key & pf & x & r & rest
        & -> & Hp & He & Ha & Ho & Hr & Hn).
  destruct (links_first_inv _ _ Hnode)
    as (nfields & _ & _ & _ & _ & _ & _ & Hnf & _).
  cbn [PathNamed.processObject]. rewrite Hc.
  cbn [js_truthy is_object negb orb prop_of wbind].
  rewrite Hp, (entries_truthy _ _ _ He), He. cbn [map fst for_keys].
  unfold PathNamed.process_key at 1. unfold object_at. rewrite Hc.
  cbn [descend prop_of wbind]. rewrite Hp, He. cbn [assoc].
  rewrite str_eqb_refl. cbn [prop_of wbind]. rewrite Ha, Ho, Hr.
  cbn [js_truthy replace_prefix wbind]. rewrite Hn.
  unfold def_read, def_value. rewrite Hd, Hc0. cbn [wbind].
  rewrite Hnf at 1. cbn [js_truthy andb].
  assert (Hname : (rootName ++ suffix) ++ toPascalCase key
                  = rootName ++ suffix ++ toPascalCase key)
    by now rewrite app_assoc.
  assert (Halnum : forallb is_alnum (suffix ++ toPascalCase key) = true)
    by now rewrite forallb_app, Hs, toPascalCase_forallb.
  rewrite Hname.
  rewrite (str_eqb_neq name _ (Hfresh (suffix ++ toPascalCase key))).
  cbn [negb]. unfold def_assign.
  rewrite alnum_not_proto by now rewrite forallb_app, Hroot, Halnum.
  cbn [wbind clone].
  assert (Hlt : c < length (cells s)) by now apply cell_at_lt in Hc.
  assert (Hlt0 : c0 < length (cells s)) by now apply cell_at_lt in Hc0.
  unfold clone.
  set (s' := write_property
               {| cells := cells s ++ [node];
                  definitions :=
                    assoc_set (definitions s)
                      (rootName ++ suffix ++ toPascalCase key)
                      (length (cells s)) |}
               c [] key
               (ref_schema (rootName ++ suffix ++ toPascalCase key))).
  assert (H1 : cell_at s' (length (cells s)) = Some node).
  { unfold s'. rewrite cell_at_write_other by lia. unfold cell_at.
    cbn [cells]. rewrite nth_error_app2 by lia. now rewrite Nat.sub_diag. }
  assert (H2 : assoc (definitions s') name = Some c0).
  { unfold s'. rewrite definitions_write. cbn [definitions].
    rewrite assoc_set_other; [exact Hd|].
    intros E. apply (Hfresh (suffix ++ toPascalCase key)). now symmetry. }
  assert (H3 : c0 <> length (cells s)) by lia.
  assert (H4 : cell_at s' c0 = Some node).
  { unfold s'. rewrite cell_at_write_other by exact Hne. unfold cell_at.
    cbn [cells]. rewrite nth_error_app1 by lia. exact Hc0. }
  now rewrite (IH _ _ _ node c0 H1 Hnode H2 H3 H4 Halnum).
Qed.

Lemma assoc_combine_from keys : forall start name c,
  assoc (combine keys (seq start (length keys))) name = Some c -> start <= c.
Proof.
  intros start name c H. apply assoc_In, in_combine_r, in_seq in H. lia.
Qed.

(** In the snapshot that names every nested object by its access path,
    a schema whose first property refers to a definition whose first
    property refers to the same definition again (a linked list, say) is
    walked without end: the definition is copied under a longer name at
    every level.  The root name is one of letters and digits, as
    [generateComponentSchema] passes it, and the definition is not named
    by the root name or a text that starts with it. *)
Theorem PathNamed_recursive_reference_never_returns
    (fields defs : list (str * json)) (name rootName : str) (node : json)
    (fuel : nat) :
  assoc fields (lit "definitions") = Some (JObj defs) ->
  existsb (fun nv => str_eqb (fst nv) (lit "__proto__")) defs = false ->
  links_first name (JObj fields) = true ->
  assoc defs name = Some node ->
  links_first name node = true ->
  forallb is_alnum rootName = true ->
  (forall suffix, name <> rootName ++ suffix) ->
  PathNamed.restructureArrays fuel (JObj fields) rootName = OutOfFuel.
Proof.
  intros Hd Hp Hrootv Hnode Hrec Halnum Hfresh.
  unfold PathNamed.restructureArrays.
  rewrite (open_schema_object _ _ Hd Hp). cbn [wbind].
  pose proof (def_value_initial fields defs name) as Hv.
  rewrite Hnode in Hv. unfold def_value in Hv.
  destruct (assoc (definitions (initial_store fields defs)) name) as [c0|] eqn:E;
    [|discriminate].
  assert (H1 : 1 <= c0).
  { cbn [initial_store definitions] in E.
    rewrite <- (length_map fst defs) in E.
    now apply assoc_combine_from in E. }
  rewrite <- (app_nil_r rootName).
  rewrite (PathNamed_processObject_follows name node rootName Hrec Hfresh Halnum
             fuel schema_cell [] (initial_store fields defs)
             (JObj (assoc_set fields (lit "definitions") (JObj []))) c0);
    auto.
  - unfold links_first, property in *.
    now rewrite assoc_set_other by discriminate.
  - unfold schema_cell. lia.
Qed.

Lemma PathNamed_recursive_reference_never_returns_witness :
  PathNamed.restructureArrays 1000 Drafts.list_draft (lit "GetListBody")
  = OutOfFuel.
Proof.
  apply (PathNamed_recursive_reference_never_returns
           [Drafts.field "type" (Drafts.text "object");
            Drafts.field "properties"
              (JObj [Drafts.field "head" (Drafts.reference "Node")]);
            Drafts.field "definitions"
              (JObj [Drafts.field "Node"
                       (Drafts.object_schema "Node"
                          [Drafts.field "next" (Drafts.reference "Node")])])]
           [Drafts.field "Node"
              (Drafts.object_schema "Node"
                 [Drafts.field "next" (Drafts.reference "Node")])]
           (lit "Node") (lit "GetListBody")
           (Drafts.object_schema "Node"
              [Drafts.field "next" (Drafts.reference "Node")])
           1000); try reflexivity.
  intros suffix H. discriminate H.
Defined.

(** ** Schemas without arrays, objects and references *)

Lemma definitions_object_cells (defs : list (str * json)) : forall pre,
  flat_map (fun nc => match nth_error (pre ++ map snd defs) (snd nc) with
                      | Some v => [(fst nc, v)]
                      | None => []
                      end)
           (combine (map fst defs) (seq (length pre) (length defs)))
  = defs.
Proof.
  induction defs as [|[k v] rest IH]; intros pre; [reflexivity|].
  cbn [map fst snd length seq combine flat_map].
  rewrite nth_error_app2, Nat.sub_diag by lia. cbn [nth_error app]. f_equal.
  specialize (IH (pre ++ [v])).
  rewrite <- app_assoc, length_app, Nat.add_1_r in IH. exact IH.
Qed.

Lemma definitions_object_initial fields defs :
  definitions_object (initial_store fields defs) = JObj defs.
Proof.
  unfold definitions_object, initial_store, cell_at. cbn [cells definitions].
  f_equal.
  exact (definitions_object_cells defs
           [JObj (assoc_set fields (lit "definitions") (JObj []))]).
Qed.

Lemma schema_of_initial fields defs :
  assoc fields (lit "definitions") = Some (JObj defs) ->
  schema_of (initial_store fields defs) = Finished (JObj fields).
Proof.
  intros Hd. unfold schema_of, cell_at, schema_cell, initial_store at 1.
  cbn [cells nth_error].
  now rewrite assoc_set_twice, definitions_object_initial, assoc_set_id.
Qed.

(** A schema whose properties are neither arrays nor objects nor
    references is given back as it is, in both snapshots, for every
    bound on the depth of at least one. *)
Theorem flat_schema_is_left_alone (fields defs : list (str * json))
    (rootName : str) (fuel : nat) :
  assoc fields (lit "definitions") = Some (JObj defs) ->
  existsb (fun nv => str_eqb (fst nv) (lit "__proto__")) defs = false ->
  (forall container key prop,
     assoc fields (lit "properties") = Some container ->
     In (key, prop) (own_entries container) -> flat_property prop = true) ->
  PathNamed.restructureArrays (S fuel) (JObj fields) rootName
  = Finished (JObj fields) /\
  ArrayLayer.restructureArrays (S fuel) (JObj fields) rootName
  = Finished (JObj fields).
Proof.
  intros Hd Hp Hflat.
  unfold PathNamed.restructureArrays, ArrayLayer.restructureArrays.
  rewrite (open_schema_object _ _ Hd Hp). cbn [wbind].
  set (s := initial_store fields defs).
  assert (Hc : cell_at s schema_cell
               = Some (JObj (assoc_set fields (lit "definitions") (JObj []))))
    by reflexivity.
  assert (Hprops : assoc (assoc_set fields (lit "definitions") (JObj []))
                     (lit "properties")
                   = assoc fields (lit "properties"))
    by (apply assoc_set_other; discriminate).
  assert (Hkeys : forall container key,
            assoc fields (lit "properties") = Some container ->
            In key (map fst (own_entries container)) ->
            exists prop, assoc (own_entries container) key = Some prop /\
                         flat_property prop = true).
  { intros container key Hcont Hk.
    destruct (assoc_first _ _ Hk) as (prop & Ha & Hin).
    exists prop. split; [exact Ha|]. now apply (Hflat container key). }
  assert (HP : PathNamed.processObject (S fuel) schema_cell rootName s
               = Finished s).
  { cbn [PathNamed.processObject]. rewrite Hc.
    cbn [js_truthy is_object negb orb prop_of wbind]. rewrite Hprops.
    destruct (assoc fields (lit "properties")) as [container|] eqn:Ec;
      [|reflexivity].
    destruct (js_truthy (Some container)); [|reflexivity].
    apply for_keys_all. intros key Hk.
    destruct (Hkeys container key eq_refl Hk) as (prop & Ha & Hf).
    now apply (PathNamed_process_key_flat _ _ _ _ _ _ container prop Hc). }
  assert (HA : ArrayLayer.processObject (S fuel) schema_cell [] rootName s
               = Finished s).
  { cbn [ArrayLayer.processObject]. unfold object_at at 1. rewrite Hc.
    cbn [descend js_truthy is_object negb orb prop_of wbind]. rewrite Hprops.
    destruct (assoc fields (lit "properties")) as [container|] eqn:Ec;
      [|reflexivity].
    destruct (js_truthy (Some container)); [|reflexivity].
    apply for_keys_all. intros key Hk.
    destruct (Hkeys container key eq_refl Hk) as (prop & Ha & Hf).
    now apply (ArrayLayer_process_key_flat _ _ _ _ _ _ container prop Hc). }
  rewrite HP, HA. cbn [wbind]. unfold s.
  now rewrite (schema_of_initial _ _ Hd).
Qed.

Lemma flat_schema_is_left_alone_witness :
  PathNamed.restructureArrays 1 Drafts.flat_draft (lit "GetPostBody")
  = Finished Drafts.flat_draft /\
  ArrayLayer.restructureArrays 1 Drafts.flat_draft (lit "GetPostBody")
  = Finished Drafts.flat_draft.
Proof.
  apply (flat_schema_is_left_alone
           [Drafts.field "type" (Drafts.text "object");
            Drafts.field "properties"
              (JObj [Drafts.field "id" (Drafts.typed "integer");
                     Drafts.field "title" (Drafts.typed "string")]);
            Drafts.field "definitions" (JObj [])]
           [] (lit "GetPostBody") 0).
  - reflexivity.
  - reflexivity.
  - intros container key prop Hc Hin. injection Hc as <-.
    cbn [own_entries] in Hin.
    destruct Hin as [E|[E|[]]]; injection E as <- <-; reflexivity.
Defined.

